(** * Block-sparse tensor bookkeeping of [tensornetwork/block_sparse/block_tensor.py]

    A shallow embedding of the partition selector, the degeneracy
    accumulator, the sparse lookup builder, the charge reducer and the
    diagonal block locator, together with the properties of these
    functions.

    Conventions of the embedding.
    - Python exceptions are values of [exn]; a function that can raise
      returns a [result].
    - NumPy integer arrays are lists.  Fixed-width arithmetic is written
      out: 64-bit products, sums and degeneracies wrap around with
      [wrap64], the [uint32] positions of [fuse_stride_arrays] and the
      [uint32] row offsets and block dimensions of the block locator are
      reduced modulo [2^32].  Labels and positions, which index arrays
      that exist in memory, are natural numbers.
    - A charge is a single U(1) quantum number, an integer; fusion is
      addition and the identity charge is [0]. *)

From Stdlib Require Import List ZArith Lia Bool Arith Permutation Sorted.
Import ListNotations.

(** ** Exceptions *)

Inductive exn : Type :=
| ValueError
| IndexError.

Inductive result (A : Type) : Type :=
| Ok (a : A)
| Err (e : exn).

Arguments Ok {A} a.
Arguments Err {A} e.

Definition bind {A B : Type} (r : result A) (k : A -> result B) : result B :=
  match r with
  | Ok a => k a
  | Err e => Err e
  end.

Notation "x <- r ;; k" := (bind r (fun x => k))
  (at level 61, r at next level, right associativity).
Notation "' p <- r ;; k" := (bind r (fun p => k))
  (at level 61, p pattern, r at next level, right associativity).

(** ** Fixed-width integers *)

(** The value of a mathematical integer in a signed 64-bit integer
    ([int64], two's complement): NumPy's integer arithmetic wraps around. *)
Definition wrap64 (z : Z) : Z :=
  ((z + 9223372036854775808) mod 18446744073709551616
   - 9223372036854775808)%Z.

(** A count as a 64-bit integer. *)
Definition count64 (n : nat) : Z := wrap64 (Z.of_nat n).

(** The value of an integer after a cast to [uint32]. *)
Definition wrap32 (z : Z) : Z := (z mod 4294967296)%Z.

(** A [uint32] value as a position. *)
Definition to_uint32 (z : Z) : nat := Z.to_nat (wrap32 z).

(** The sum of two [uint32] positions. *)
Definition add32 (a b : nat) : nat := to_uint32 (Z.of_nat a + Z.of_nat b).

(** ** NumPy primitives on lists *)

Module Np.

(** [np.prod] on 64-bit integers; the product of an empty array is 1. *)
Definition prod (l : list Z) : Z := wrap64 (fold_right Z.mul 1%Z l).

(** [np.sum] on 64-bit integers. *)
Definition sum (l : list Z) : Z := wrap64 (fold_right Z.add 0%Z l).

(** [np.min]; an empty array has no minimum: [ValueError]. *)
Definition min (l : list Z) : result Z :=
  match l with
  | [] => Err ValueError
  | x :: tl => Ok (fold_right Z.min x tl)
  end.

(** [np.nonzero(mask)[0]]: the indices at which a boolean array holds. *)
Fixpoint nonzero_from (i : nat) (mask : list bool) : list nat :=
  match mask with
  | [] => []
  | b :: tl => if b then i :: nonzero_from (S i) tl else nonzero_from (S i) tl
  end.

Definition nonzero (mask : list bool) : list nat := nonzero_from 0 mask.

(** [np.argmax]: the first index of a maximal entry; [ValueError] on an
    empty array. *)
Fixpoint argmax_from (i best : nat) (bestv : Z) (l : list Z) : nat :=
  match l with
  | [] => best
  | x :: tl =>
      if (bestv <? x)%Z then argmax_from (S i) i x tl
      else argmax_from (S i) best bestv tl
  end.

Definition argmax (l : list Z) : result nat :=
  match l with
  | [] => Err ValueError
  | x :: tl => Ok (argmax_from 1 0 x tl)
  end.

(** [a[i]] for a non-negative index: [IndexError] out of range. *)
Definition get {A : Type} (l : list A) (i : nat) : result A :=
  match nth_error l i with
  | Some a => Ok a
  | None => Err IndexError
  end.

(** [a[mask]]: the entries of [a] at which the boolean array [mask] holds;
    NumPy refuses a mask of another length. *)
Fixpoint mask_select {A : Type} (l : list A) (mask : list bool) : list A :=
  match l, mask with
  | x :: tl, b :: mtl => if b then x :: mask_select tl mtl else mask_select tl mtl
  | _, _ => []
  end.

Definition select {A : Type} (l : list A) (mask : list bool) : result (list A) :=
  if length l =? length mask then Ok (mask_select l mask) else Err IndexError.

(** [np.concatenate]: an empty sequence of arrays is refused. *)
Definition concatenate {A : Type} (ls : list (list A)) : result (list A) :=
  match ls with
  | [] => Err ValueError
  | _ => Ok (concat ls)
  end.

(** [np.cumsum] on 64-bit integers. *)
Fixpoint cumsum_from (acc : Z) (l : list Z) : list Z :=
  match l with
  | [] => []
  | x :: tl => wrap64 (acc + x) :: cumsum_from (wrap64 (acc + x)) tl
  end.

Definition cumsum (l : list Z) : list Z := cumsum_from 0%Z l.

End Np.

(** ** The partition selector *)

(** [np.abs(np.prod(dims[0:n]) - np.prod(dims[n::]))], in 64-bit
    arithmetic. *)
Definition partition_diff (dims : list Z) (n : nat) : Z :=
  wrap64 (Z.abs (wrap64 (Np.prod (firstn n dims) - Np.prod (skipn n dims)))).

(** [_find_best_partition], lines 118-142. *)
Definition _find_best_partition (dims : list Z) : result nat :=
  if length dims =? 1 then Err ValueError
  else
    let diffs := map (partition_diff dims) (seq 1 (length dims - 1)) in
    m <- Np.min diffs ;;
    let min_inds := Np.nonzero (map (fun d => (d =? m)%Z) diffs) in
    if 1 <? length min_inds then
      let right_dims :=
        map (fun min_ind => Np.prod (skipn (min_ind + 1) dims)) min_inds in
      k <- Np.argmax right_dims ;;
      min_ind <- Np.get min_inds k ;;
      Ok (min_ind + 1)
    else
      min_ind <- Np.get min_inds 0 ;;
      Ok (min_ind + 1).


(** ** The charge algebra *)

Module Charge.

(** Modelled from the spec: the charge algebra of
    [tensornetwork/block_sparse/charge.py], which the functions below
    consume; section 6 of the specification lists its operations (fuse,
    dual, unique, intersect, identity, equality and a total order).  A
    charge object carries the distinct charges it refers to and, for every
    flat position, the label of its charge among them. *)
Record BaseCharge : Type := mk {
  unique_charges : list Z;
  charge_labels : list nat
}.

(** Modelled from the spec: insertion into a strictly increasing list, the
    canonical order of deduplicated charges. *)
Fixpoint insert_u (x : Z) (l : list Z) : list Z :=
  match l with
  | [] => [x]
  | y :: tl =>
      if (x <? y)%Z then x :: l
      else if (x =? y)%Z then l
      else y :: insert_u x tl
  end.

(** Modelled from the spec: the distinct values of an array in canonical
    (increasing) order. *)
Definition usort (l : list Z) : list Z := fold_right insert_u [] l.

(** Modelled from the spec: the index of the first occurrence of a value. *)
Fixpoint index_of (x : Z) (l : list Z) : nat :=
  match l with
  | [] => 0
  | y :: tl => if (x =? y)%Z then 0 else S (index_of x tl)
  end.

(** Modelled from the spec: membership of a charge in an array of
    charges. *)
Definition mem (x : Z) (l : list Z) : bool := existsb (Z.eqb x) l.

(** Modelled from the spec: [np.unique(a, return_inverse=True)], the
    distinct values and, for each element, the index of its value. *)
Definition np_unique (a : list Z) : list Z * list nat :=
  (usort a, map (fun v => index_of v (usort a)) a).

(** Modelled from the spec: the constructor of a charge object from the
    charge of every flat position. *)
Definition U1Charge (vals : list Z) : BaseCharge :=
  mk (fst (np_unique vals)) (snd (np_unique vals)).

(** Modelled from the spec: the charge at every flat position of a
    charge object. *)
Definition values (c : BaseCharge) : list Z :=
  map (fun l => nth l (unique_charges c) 0%Z) (charge_labels c).

(** Modelled from the spec: [len(c)], the number of flat positions. *)
Definition len (c : BaseCharge) : nat := length (charge_labels c).

(** Modelled from the spec: [c.dim], the number of flat positions. *)
Definition dim (c : BaseCharge) : nat := length (charge_labels c).

(** Modelled from the spec: [c.num_unique], the number of distinct
    charges. *)
Definition num_unique (c : BaseCharge) : nat := length (unique_charges c).

(** Modelled from the spec: [dual(charge, flow)], written [c * flow] and
    [c.dual(flow)] in the source: negation when the flow is [false],
    identity when it is [true]. *)
Definition dual (flow : bool) (c : BaseCharge) : BaseCharge :=
  if flow then c else U1Charge (map Z.opp (values c)).

(** Modelled from the spec: the outer combination of two arrays in
    row-major order, the left index running slowest. *)
Definition outer {A : Type} (op : A -> A -> A) (a b : list A) : list A :=
  flat_map (fun x => map (op x) b) a.

(** Modelled from the spec: [fuse(chargeA, chargeB)], written [a + b]. *)
Definition fuse (a b : BaseCharge) : BaseCharge :=
  U1Charge (outer Z.add (values a) (values b)).

(** Modelled from the spec: [fuse_ndarray_charges] on arrays of distinct
    charges. *)
Definition fuse_ndarray_charges (a b : list Z) : list Z := outer Z.add a b.

(** Modelled from the spec: [fuse_degeneracies], the products of the
    degeneracies of the fused pairs, in the order of the fused charges;
    degeneracies are 64-bit integers. *)
Definition fuse_degeneracies (d1 d2 : list Z) : list Z :=
  outer (fun a b => wrap64 (a * b)) d1 d2.

(** Modelled from the spec: the fusion of the legs [charges] onto [acc]
    from left to right, each leg dualized by its flow. *)
Fixpoint fuse_from (acc : BaseCharge) (charges : list BaseCharge)
  (flows : list bool) : result BaseCharge :=
  match charges with
  | [] => Ok acc
  | c :: cs =>
      match flows with
      | [] => Err IndexError
      | f :: fs => fuse_from (fuse acc (dual f c)) cs fs
      end
  end.

(** Modelled from the spec: [fuse_charges(charges, flows)], from the first
    leg on. *)
Definition fuse_charges (charges : list BaseCharge) (flows : list bool)
  : result BaseCharge :=
  c0 <- Np.get charges 0 ;;
  f0 <- Np.get flows 0 ;;
  fuse_from (dual f0 c0) (tl charges) (tl flows).

(** Modelled from the spec: [fuse_ndarrays], the outer sums of a list of
    integer arrays from left to right.  The source calls it on [uint32]
    arrays only, whose sums wrap around. *)
Definition fuse_ndarrays (arrays : list (list nat)) : result (list nat) :=
  match arrays with
  | [] => Err IndexError
  | a :: tl => Ok (fold_left (outer add32) tl a)
  end.

(** Modelled from the spec: [c.unique()], the charge object of the
    distinct charges of [c], each at one position. *)
Definition unique (c : BaseCharge) : BaseCharge :=
  let u := usort (values c) in mk u (seq 0 (length u)).

(** Modelled from the spec: the inverse indices of [unique]. *)
Definition unique_inverse (c : BaseCharge) : list nat :=
  snd (np_unique (values c)).

(** Modelled from the spec: the counts of [unique], 64-bit integers. *)
Definition unique_counts (c : BaseCharge) : list Z :=
  map (fun q => count64 (count_occ Z.eq_dec (values c) q))
      (usort (values c)).

(** Modelled from the spec: [intersect(a, b, return_indices=True)], the
    common values in canonical order with the index of each in [a] and
    in [b]. *)
Definition intersect (a b : list Z) : list Z * list nat * list nat :=
  let common := filter (fun x => mem x b) (usort a) in
  (common, map (fun x => index_of x a) common,
   map (fun x => index_of x b) common).

(** Modelled from the spec: the identity charge, the neutral element of
    fusion. *)
Definition identity_charge : Z := 0%Z.

(** Modelled from the spec: [c == c.identity_charges], position by
    position. *)
Definition eq_identity (c : BaseCharge) : list bool :=
  map (fun v => (v =? identity_charge)%Z) (values c).

(** Modelled from the spec: [c.reduce(target, return_locations, strides)],
    the reduce-by-target primitive of a single leg: the positions whose
    charge is a target charge are kept, in order; a location is the kept
    position times the stride. *)
Definition reduce (c : BaseCharge) (target : list Z) (stride : Z)
  : BaseCharge * list nat :=
  let '(reduced, _, _) := intersect (usort (values c)) target in
  let keep := map (fun v => mem v target) (values c) in
  (mk reduced
      (map (fun v => index_of v reduced) (Np.mask_select (values c) keep)),
   map (fun n => Z.to_nat (stride * Z.of_nat n)) (Np.nonzero keep)).

End Charge.

Import Charge.

(** ** Integer-array indexing *)

Fixpoint mapM {A B : Type} (f : A -> result B) (l : list A) : result (list B) :=
  match l with
  | [] => Ok []
  | x :: tl => y <- f x ;; ys <- mapM f tl ;; Ok (y :: ys)
  end.

(** [a[idx]] for an integer array [idx]: [IndexError] when an index is out
    of range. *)
Definition take {A : Type} (a : list A) (idx : list nat) : result (list A) :=
  mapM (Np.get a) idx.

(** [a[i] = v] on a copy. *)
Fixpoint set_nth {A : Type} (a : list A) (i : nat) (v : A) : result (list A) :=
  match a, i with
  | [], _ => Err IndexError
  | _ :: tl, 0 => Ok (v :: tl)
  | x :: tl, S j => r <- set_nth tl j v ;; Ok (x :: r)
  end.

(** [a[idx] = vals]: the assignments are made in order. *)
Fixpoint put {A : Type} (a : list A) (idx : list nat) (vals : list A)
  : result (list A) :=
  match idx, vals with
  | i :: itl, v :: vtl => a' <- set_nth a i v ;; put a' itl vtl
  | _, _ => Ok a
  end.

(** [a.reshape([rows, cols])] of a flat array of [rows * cols] entries. *)
Definition reshape {A : Type} (a : list A) (rows cols : nat) : list (list A) :=
  map (fun n => firstn cols (skipn (n * cols) a)) (seq 0 rows).

(** [a[a >= 0]]. *)
Definition nonneg (a : list Z) : list Z := filter (fun x => (0 <=? x)%Z) a.

(** ** Flattening utilities *)

(** [np.arange(0, step * count, step, dtype=np.uint32)] for a non-zero
    step: [count] entries, the multiples of the step as [uint32] values. *)
Definition arange_step (count : nat) (step : Z) : list nat :=
  map (fun k => to_uint32 (Z.of_nat k * step)) (seq 0 count).

(** [fuse_stride_arrays], lines 61-75.  The dimensions and strides are
    read as the integers of the [List[int]] of the signature, so the stop
    [strides[n] * dims[n]] of the range is exact; the positions are
    [uint32].  [np.arange] refuses a zero step; the class of that
    exception depends on the NumPy version and is recorded as
    [ValueError]. *)
Definition fuse_stride_arrays (dims : list nat) (strides : list Z)
  : result (list nat) :=
  arrays <- mapM (fun n =>
      d <- Np.get dims n ;;
      s <- Np.get strides n ;;
      if (s =? 0)%Z then Err ValueError else Ok (arange_step d s))
    (seq 0 (length dims)) ;;
  fuse_ndarrays arrays.

(** ** The sparse lookup builder *)

(** [compute_sparse_lookup], lines 78-108.  [tmp] is an [int16] array: its
    entries are the sentinel [-1] and labels of unique charges. *)
Definition compute_sparse_lookup (charges : list BaseCharge)
  (flows : list bool) (target_charges : BaseCharge)
  : result (list Z * BaseCharge * list nat) :=
  fused_charges <- fuse_charges charges flows ;;
  let unique_charges := unique fused_charges in
  let inverse := unique_inverse fused_charges in
  let '(_, label_to_unique, _) :=
    intersect (values unique_charges) (values target_charges) in
  let tmp := repeat (-1)%Z (len unique_charges) in
  tmp <- put tmp label_to_unique (map Z.of_nat label_to_unique) ;;
  lookup <- take tmp inverse ;;
  let lookup := nonneg lookup in
  Ok (lookup, unique_charges, label_to_unique).

(** ** The degeneracy accumulator *)

(** The body of the loop of [compute_fused_charge_degeneracies], lines
    168-181, over the legs after the first.  The degeneracies are 64-bit
    integers: the [uint32] array of line 174 is replaced at line 177 by
    the array of the [np.sum] results. *)
Fixpoint fused_degeneracies_loop (accumulated_charges : BaseCharge)
  (accumulated_degeneracies : list Z) (charges : list BaseCharge)
  (flows : list bool) : result (BaseCharge * list Z) :=
  match charges with
  | [] => Ok (accumulated_charges, accumulated_degeneracies)
  | c :: cs =>
      match flows with
      | [] => Err IndexError
      | f :: fs =>
          let leg_charges := unique c in
          let leg_degeneracies := unique_counts c in
          let fused_charges := fuse accumulated_charges (dual f leg_charges) in
          let fused_degeneracies :=
            fuse_degeneracies accumulated_degeneracies leg_degeneracies in
          let accumulated_charges := unique fused_charges in
          accumulated_degeneracies <- mapM (fun m =>
              am <- Np.get (charge_labels accumulated_charges) m ;;
              sel <- Np.select fused_degeneracies
                       (map (fun l => l =? am) (charge_labels fused_charges)) ;;
              Ok (Np.sum sel))
            (seq 0 (len accumulated_charges)) ;;
          fused_degeneracies_loop accumulated_charges
            accumulated_degeneracies cs fs
      end
  end.

(** [compute_fused_charge_degeneracies], lines 145-183. *)
Definition compute_fused_charge_degeneracies (charges : list BaseCharge)
  (flows : list bool) : result (BaseCharge * list Z) :=
  if length charges =? 1 then
    c0 <- Np.get charges 0 ;;
    f0 <- Np.get flows 0 ;;
    Ok (unique (dual f0 c0), unique_counts (dual f0 c0))
  else
    c0 <- Np.get charges 0 ;;
    f0 <- Np.get flows 0 ;;
    fused_degeneracies_loop (unique (dual f0 c0)) (unique_counts (dual f0 c0))
      (tl charges) (tl flows).

(** The loop of [compute_unique_fused_charges], lines 205-208. *)
Fixpoint unique_fused_loop (accumulated_charges : BaseCharge)
  (charges : list BaseCharge) (flows : list bool) : result BaseCharge :=
  match charges with
  | [] => Ok accumulated_charges
  | c :: cs =>
      match flows with
      | [] => Err IndexError
      | f :: fs =>
          let leg_charges := unique c in
          let fused_charges := fuse accumulated_charges (dual f leg_charges) in
          unique_fused_loop (unique fused_charges) cs fs
      end
  end.

(** [compute_unique_fused_charges], lines 186-209. *)
Definition compute_unique_fused_charges (charges : list BaseCharge)
  (flows : list bool) : result BaseCharge :=
  if length charges =? 1 then
    c0 <- Np.get charges 0 ;;
    f0 <- Np.get flows 0 ;;
    Ok (unique (dual f0 c0))
  else
    c0 <- Np.get charges 0 ;;
    f0 <- Np.get flows 0 ;;
    unique_fused_loop (unique (dual f0 c0)) (tl charges) (tl flows).

(** [compute_num_nonzero], lines 212-235; the result is a 64-bit
    integer. *)
Definition compute_num_nonzero (charges : list BaseCharge) (flows : list bool)
  : result Z :=
  if existsb (fun c => len c =? 0) charges then Ok 0%Z
  else
    '(accumulated_charges, accumulated_degeneracies) <-
      compute_fused_charge_degeneracies charges flows ;;
    let res := eq_identity accumulated_charges in
    let nz_inds := Np.nonzero res in
    if 0 <? length nz_inds then
      sel <- take accumulated_degeneracies nz_inds ;;
      Np.get sel 0
    else Ok 0%Z.

(** ** The charge reducer *)

(** [new_comb_labels[n, right_ind.charge_labels]], lines 303 and 318. *)
Definition row_labels (new_comb_labels : list (list Z)) (right_ind : BaseCharge)
  (n : nat) : result (list Z) :=
  row <- Np.get new_comb_labels n ;;
  take row (charge_labels right_ind).

(** The locations of the kept positions, lines 311-335.  With strides
    the sum of line 327 is a sum of [uint32] positions; without, the
    positions of line 332 are 64-bit positions of arrays in memory. *)
Definition reduce_locations (tensor_dims : list nat) (partition : nat)
  (left_ind right_ind : BaseCharge) (new_comb_labels : list (list Z))
  (strides : option (list Z)) : result (list nat) :=
  match strides with
  | Some strides =>
      row_pos <- fuse_stride_arrays (firstn partition tensor_dims)
                   (firstn partition strides) ;;
      col_pos <- fuse_stride_arrays (skipn partition tensor_dims)
                   (skipn partition strides) ;;
      row_locs <- mapM (fun n =>
          temp_label <- row_labels new_comb_labels right_ind n ;;
          let temp_keep := map (fun x => (0 <=? x)%Z) temp_label in
          Np.select col_pos temp_keep)
        (seq 0 (num_unique left_ind)) ;;
      pieces <- mapM (fun n =>
          p <- Np.get row_pos n ;;
          l <- Np.get (charge_labels left_ind) n ;;
          locs <- Np.get row_locs l ;;
          Ok (map (add32 p) locs))
        (seq 0 (dim left_ind)) ;;
      Np.concatenate pieces
  | None =>
      row_locs <- mapM (fun n =>
          temp_label <- row_labels new_comb_labels right_ind n ;;
          let temp_keep := map (fun x => (0 <=? x)%Z) temp_label in
          Ok (Np.nonzero temp_keep))
        (seq 0 (num_unique left_ind)) ;;
      pieces <- mapM (fun n =>
          l <- Np.get (charge_labels left_ind) n ;;
          locs <- Np.get row_locs l ;;
          Ok (map (Nat.add (n * dim right_ind)) locs))
        (seq 0 (dim left_ind)) ;;
      Np.concatenate pieces
  end.

(** [reduce_charges], lines 238-337.  The result is the reduced charge
    object and, when [return_locations] holds, the locations.
    [map_to_kept] is an [int16] array: the labels of the kept charges and
    the sentinel [-1]. *)
Definition reduce_charges (charges : list BaseCharge) (flows : list bool)
  (target_charges : list Z) (return_locations : bool)
  (strides : option (list Z)) : result (BaseCharge * option (list nat)) :=
  let tensor_dims := map len charges in
  if length charges =? 1 then
    let strides := match strides with None => [1%Z] | Some s => s end in
    c0 <- Np.get charges 0 ;;
    f0 <- Np.get flows 0 ;;
    s0 <- Np.get strides 0 ;;
    let '(obj, locs) := reduce (dual f0 c0) target_charges s0 in
    Ok (obj, if return_locations then Some locs else None)
  else
    partition <- _find_best_partition (map Z.of_nat tensor_dims) ;;
    left_ind <- fuse_charges (firstn partition charges) (firstn partition flows) ;;
    right_ind <- fuse_charges (skipn partition charges) (skipn partition flows) ;;
    let comb_qnums :=
      fuse_ndarray_charges (unique_charges left_ind) (unique_charges right_ind) in
    let '(unique_comb_qnums, comb_labels) := np_unique comb_qnums in
    let num_unique_comb := length unique_comb_qnums in
    let '(reduced_qnums, label_to_unique, _) :=
      intersect unique_comb_qnums target_charges in
    let map_to_kept := repeat (-1)%Z num_unique_comb in
    map_to_kept <- put map_to_kept label_to_unique
                     (map Z.of_nat (seq 0 (length label_to_unique))) ;;
    gathered <- take map_to_kept comb_labels ;;
    let new_comb_labels :=
      reshape gathered (num_unique left_ind) (num_unique right_ind) in
    reduced_rows <- mapM (fun n =>
        temp_label <- row_labels new_comb_labels right_ind n ;;
        Ok (nonneg temp_label))
      (seq 0 (num_unique left_ind)) ;;
    rows <- mapM (Np.get reduced_rows) (charge_labels left_ind) ;;
    reduced_labels <- Np.concatenate rows ;;
    let obj := mk reduced_qnums (map Z.to_nat reduced_labels) in
    if return_locations then
      reduced_locs <- reduce_locations tensor_dims partition left_ind right_ind
                        new_comb_labels strides ;;
      Ok (obj, Some reduced_locs)
    else Ok (obj, None).

(** ** The diagonal block locator *)

(** [m[r, c] = True] on a boolean matrix. *)
Definition set2 (m : list (list bool)) (r c : nat) : result (list (list bool)) :=
  row <- Np.get m r ;;
  row' <- set_nth row c true ;;
  set_nth m r row'.

(** [m[rows, cols] = True] for index arrays [rows] and [cols], given as
    the list of their pairs; the assignments are made in order. *)
Fixpoint put2 (m : list (list bool)) (rc : list (nat * nat))
  : result (list (list bool)) :=
  match rc with
  | [] => Ok m
  | (r, c) :: tl => m' <- set2 m r c ;; put2 m' tl
  end.

(** The row masks of the blocks, lines 407-417, by either method. *)
Definition block_row_locs (num_blocks : nat) (row_ind : BaseCharge)
  : result (list (list bool)) :=
  if num_blocks <? 15 then
    flat <- Np.concatenate
              (map (fun n => map (fun l => l =? n) (charge_labels row_ind))
                   (seq 0 num_blocks)) ;;
    Ok (reshape flat num_blocks (dim row_ind))
  else
    put2 (repeat (repeat false (dim row_ind)) num_blocks)
         (combine (charge_labels row_ind) (seq 0 (dim row_ind))).

(** [_find_diagonal_sparse_blocks], lines 340-432.  [block_dims] is the
    list of the two rows of the table.  In the special cases it holds
    64-bit integers and the positions are [uint64]; otherwise
    [cumulate_num_nz] (line 404) and [block_dims] (line 422) are cast to
    [uint32], and a block map is the sum of [uint32] row offsets and of
    the 64-bit range [np.arange(block_dims[1, n])], a 64-bit array. *)
Definition _find_diagonal_sparse_blocks (charges : list BaseCharge)
  (flows : list bool) (partition : nat)
  : result (list (list nat) * BaseCharge * list (list Z)) :=
  let num_inds := length charges in
  _ <- Np.get charges 0 ;;
  if (partition =? 0) || (partition =? num_inds) then
    num_nonzero <- compute_num_nonzero charges flows ;;
    let block_maps := [seq 0 (Z.to_nat num_nonzero)] in
    let block_qnums := [0%Z] in
    let block_dims := [[1%Z]; [num_nonzero]] in
    let block_dims :=
      if partition =? length flows then rev block_dims else block_dims in
    Ok (block_maps, mk block_qnums [], block_dims)
  else
    '(unique_row_qnums, row_degen) <-
      compute_fused_charge_degeneracies
        (firstn partition charges) (firstn partition flows) ;;
    '(unique_col_qnums, col_degen) <-
      compute_fused_charge_degeneracies
        (skipn partition charges) (map negb (skipn partition flows)) ;;
    let '(block_qnums, row_to_block, col_to_block) :=
      intersect (unique_charges unique_row_qnums)
                (unique_charges unique_col_qnums) in
    let num_blocks := length block_qnums in
    if num_blocks =? 0 then Ok ([], mk [] [], [])
    else
      '(row_ind, _) <-
        reduce_charges (firstn partition charges) (firstn partition flows)
          block_qnums false None ;;
      cols <- take col_to_block (charge_labels row_ind) ;;
      row_num_nz <- take col_degen cols ;;
      let cumulate_num_nz :=
        map to_uint32 (0%Z :: Np.cumsum (removelast row_num_nz)) in
      row_locs <- block_row_locs num_blocks row_ind ;;
      dims <- mapM (fun n =>
          r <- Np.get row_to_block n ;;
          rd <- Np.get row_degen r ;;
          c <- Np.get col_to_block n ;;
          cd <- Np.get col_degen c ;;
          Ok (wrap32 rd, wrap32 cd))
        (seq 0 num_blocks) ;;
      let block_dims := [map fst dims; map snd dims] in
      block_maps <- mapM (fun n =>
          mask <- Np.get row_locs n ;;
          offsets <- Np.select cumulate_num_nz mask ;;
          dims1 <- Np.get block_dims 1 ;;
          d <- Np.get dims1 n ;;
          Ok (outer Nat.add offsets (seq 0 (Z.to_nat d))))
        (seq 0 num_blocks) ;;
      Ok (block_maps, mk block_qnums (seq 0 num_blocks), block_dims).

(** ** The fused charge of every flat position *)

(** The charge a leg contributes under its flow. *)
Definition sgn (flow : bool) (x : Z) : Z := if flow then x else (- x)%Z.

(** The fusion of the legs after the first onto the charges [acc], in
    row-major order. *)
Fixpoint fused_from (acc : list Z) (legs : list (list Z)) (flows : list bool)
  : list Z :=
  match legs, flows with
  | v :: vs, f :: fs => fused_from (outer Z.add acc (map (sgn f) v)) vs fs
  | _, _ => acc
  end.

(** The fused charge of every flat position of a tensor whose legs carry
    the charges [legs] with the flows [flows]: the values of
    [fuse_charges]. *)
Definition fused_values (legs : list (list Z)) (flows : list bool) : list Z :=
  match legs, flows with
  | v :: vs, f :: fs => fused_from (map (sgn f) v) vs fs
  | _, _ => []
  end.

(** The product of the lengths of the legs. *)
Definition num_positions (legs : list (list Z)) : nat :=
  fold_right Nat.mul 1 (map (@length Z) legs).

(** The label of a charge among the kept charges [reduced], or the
    sentinel [-1] of a charge that is not a target charge. *)
Definition kept_index (target reduced : list Z) (z : Z) : Z :=
  if mem z target then Z.of_nat (index_of z reduced) else (-1)%Z.

(** The charge object of the positions of [F] whose charge is a target
    charge: the kept charges in canonical order and the label of every
    kept position among them. *)
Definition reduced_of (target F : list Z) : BaseCharge :=
  let reduced := filter (fun z => mem z target) (usort F) in
  mk reduced
     (map (fun z => index_of z reduced) (filter (fun z => mem z target) F)).










(** The number of flat positions of the tensor whose fused charge is the
    identity charge. *)
Definition num_conserving (legs : list (list Z)) (flows : list bool) : nat :=
  count_occ Z.eq_dec (fused_values legs flows) 0%Z.


(** The strides a caller may hand to [reduce_charges]: none (row-major
    order is assumed), or one non-zero stride for every leg. *)
Definition valid_strides (num_legs : nat) (strides : option (list Z)) : Prop :=
  match strides with
  | None => True
  | Some s => length s = num_legs /\ forall x, In x s -> (0 < x)%Z
  end.

(** ** Flattening of leg metadata and row-major strides *)

(** [flatten], lines 30-41: the lists are appended to [res] one after the
    other. *)
Definition flatten {A : Type} (list_of_list : list (list A)) : list A :=
  fold_left (fun res l => res ++ l) list_of_list [].

(** Modelled from the spec: the leg metadata of
    [tensornetwork/block_sparse/index.py], of which the source reads the
    flat charge list and the flat flow list. *)
Record Index : Type := mkIndex {
  flat_charges : list BaseCharge;
  flat_flows : list bool
}.

(** [get_flat_meta_data], lines 44-58. *)
Definition get_flat_meta_data (indices : list Index)
  : list BaseCharge * list bool :=
  fold_left
    (fun acc i => (fst acc ++ flat_charges i, snd acc ++ flat_flows i))
    indices ([], []).

(** [np.cumprod] on 64-bit integers. *)
Fixpoint cumprod_from (acc : Z) (l : list Z) : list Z :=
  match l with
  | [] => []
  | x :: tl => wrap64 (acc * x) :: cumprod_from (wrap64 (acc * x)) tl
  end.

Definition cumprod (l : list Z) : list Z := cumprod_from 1%Z l.

(** [_get_strides], lines 111-115:
    [np.flip(np.append(1, np.cumprod(np.flip(dims[1::]))))], an array of
    64-bit integers. *)
Definition _get_strides (dims : list nat) : list Z :=
  rev (1%Z :: cumprod (rev (map Z.of_nat (tl dims)))).

(** [np.prod] on dimensions. *)
Definition prod_dims (dims : list nat) : nat := fold_right Nat.mul 1 dims.

(** ** Quantities without wrap-around *)

(** The product of a list of integers. *)
Definition math_prod (l : list Z) : Z := fold_right Z.mul 1%Z l.

(** The sum of a list of integers. *)
Definition math_sum (l : list Z) : Z := fold_right Z.add 0%Z l.

(** The imbalance [|prod(dims[:n]) - prod(dims[n:])|] of the split of
    [dims] at [n]. *)
Definition math_diff (dims : list Z) (n : nat) : Z :=
  Z.abs (math_prod (firstn n dims) - math_prod (skipn n dims)).

(** The products that [_find_best_partition] forms on [dims], and their
    differences, are 64-bit integers: below [2^63] in absolute value. *)
Definition products_fit (dims : list Z) : Prop :=
  forall n, 1 <= n <= length dims - 1 ->
    (Z.abs (math_prod (firstn n dims)) < 9223372036854775808)%Z /\
    (Z.abs (math_prod (skipn n dims)) < 9223372036854775808)%Z /\
    (math_diff dims n < 9223372036854775808)%Z.

(** * Properties *)

(** ** Results and indexing *)

Lemma bind_ok {A B : Type} (r : result A) (k : A -> result B) (a : A) :
  r = Ok a -> bind r k = k a.
Proof. intros ->. reflexivity. Qed.

Lemma get_ok {A : Type} (l : list A) (i : nat) (d : A) :
  i < length l -> Np.get l i = Ok (nth i l d).
Proof.
  intros H. unfold Np.get.
  now rewrite (nth_error_nth' l d H).
Qed.

Lemma get_err {A : Type} (l : list A) (i : nat) :
  length l <= i -> Np.get l i = Err IndexError.
Proof.
  intros H. unfold Np.get.
  apply nth_error_None in H. now rewrite H.
Qed.

Lemma mapM_ok {A B : Type} (f : A -> result B) (g : A -> B) (l : list A) :
  (forall x, In x l -> f x = Ok (g x)) -> mapM f l = Ok (map g l).
Proof.
  induction l as [|x tl IH]; intros H; simpl.
  - reflexivity.
  - rewrite (H x (or_introl eq_refl)). simpl.
    rewrite IH by (intros y Hy; apply H; now right).
    reflexivity.
Qed.

Lemma take_ok {A : Type} (a : list A) (idx : list nat) (d : A) :
  (forall i, In i idx -> i < length a) ->
  take a idx = Ok (map (fun i => nth i a d) idx).
Proof.
  intros H. apply mapM_ok. intros i Hi. apply get_ok. now apply H.
Qed.

Lemma select_ok {A : Type} (l : list A) (mask : list bool) :
  length l = length mask -> Np.select l mask = Ok (Np.mask_select l mask).
Proof.
  intros H. unfold Np.select. now rewrite H, Nat.eqb_refl.
Qed.

Lemma wrap64_small (z : Z) :
  (- 9223372036854775808 <= z < 9223372036854775808)%Z -> wrap64 z = z.
Proof.
  intros H. unfold wrap64. rewrite Z.mod_small by lia. lia.
Qed.

Lemma wrap64_congr (a b : Z) :
  (a mod 18446744073709551616 = b mod 18446744073709551616)%Z ->
  wrap64 a = wrap64 b.
Proof.
  intros H. unfold wrap64. f_equal.
  rewrite (Z.add_mod a), (Z.add_mod b) by lia. now rewrite H.
Qed.

Lemma wrap64_mod (a : Z) :
  (wrap64 a mod 18446744073709551616 = a mod 18446744073709551616)%Z.
Proof.
  unfold wrap64.
  rewrite <- (Zminus_mod_idemp_l ((a + 9223372036854775808)
                                  mod 18446744073709551616)).
  rewrite Z.mod_mod by lia. rewrite Zminus_mod_idemp_l. f_equal. lia.
Qed.

Lemma wrap64_idem (a : Z) : wrap64 (wrap64 a) = wrap64 a.
Proof. apply wrap64_congr, wrap64_mod. Qed.

Lemma wrap64_mul (a b : Z) : wrap64 (wrap64 a * wrap64 b) = wrap64 (a * b).
Proof.
  apply wrap64_congr.
  rewrite (Z.mul_mod (wrap64 a)), (Z.mul_mod a) by lia.
  now rewrite !wrap64_mod.
Qed.


Lemma wrap64_add_l (a b : Z) : wrap64 (wrap64 a + b) = wrap64 (a + b).
Proof.
  apply wrap64_congr.
  rewrite (Z.add_mod (wrap64 a)), (Z.add_mod a) by lia.
  now rewrite wrap64_mod.
Qed.

Lemma count64_small (n : nat) :
  (Z.of_nat n < 9223372036854775808)%Z -> count64 n = Z.of_nat n.
Proof. intros H. unfold count64. apply wrap64_small. lia. Qed.

Lemma count64_mul (a b : nat) :
  wrap64 (count64 a * count64 b) = count64 (a * b).
Proof. unfold count64. now rewrite wrap64_mul, Nat2Z.inj_mul. Qed.

Lemma sum_count64 (l : list nat) :
  Np.sum (map count64 l) = count64 (list_sum l).
Proof.
  unfold Np.sum. induction l as [|x l IH]; [reflexivity|].
  cbn [map fold_right list_sum]. unfold count64 at 1 3.
  rewrite wrap64_add_l, Z.add_comm, <- wrap64_add_l, IH.
  unfold count64. rewrite wrap64_add_l. f_equal.
  change (fold_right Init.Nat.add 0 l) with (list_sum l). lia.
Qed.

(** ** The partition selector *)

Lemma min_spec (l : list Z) :
  l <> [] ->
  exists m, Np.min l = Ok m /\ In m l /\ forall d, In d l -> (m <= d)%Z.
Proof.
  destruct l as [|x tl]; [congruence|]. intros _.
  exists (fold_right Z.min x tl). split; [reflexivity|].
  induction tl as [|y tl IH]; simpl.
  - split; [now left|]. intros d [<-|[]]. lia.
  - destruct IH as [Hin Hle]. split.
    + destruct (Z.min_spec y (fold_right Z.min x tl)) as [[_ ->]|[_ ->]].
      * right; now left.
      * destruct Hin as [<-|Hin]; [now left|right; now right].
    + intros d [<-|[<-|Hd]].
      * specialize (Hle x (or_introl eq_refl)). lia.
      * lia.
      * specialize (Hle d (or_intror Hd)). lia.
Qed.

Lemma nonzero_from_In (mask : list bool) (s i : nat) :
  In i (Np.nonzero_from s mask) <->
  s <= i /\ nth_error mask (i - s) = Some true.
Proof.
  revert s. induction mask as [|b tl IH]; intros s; simpl.
  - split; [intros []|]. intros [_ H]. now destruct (i - s).
  - assert (Hstep : In i (Np.nonzero_from (S s) tl) <->
                    S s <= i /\ nth_error tl (i - S s) = Some true) by apply IH.
    destruct b; simpl; rewrite Hstep.
    + split.
      * intros [<-|[H1 H2]].
        -- split; [lia|]. now rewrite Nat.sub_diag.
        -- split; [lia|]. replace (i - s) with (S (i - S s)) by lia. exact H2.
      * intros [H1 H2]. destruct (Nat.eq_dec s i) as [->|Hne]; [now left|].
        right. split; [lia|].
        replace (i - s) with (S (i - S s)) in H2 by lia. exact H2.
    + split.
      * intros [H1 H2]. split; [lia|].
        replace (i - s) with (S (i - S s)) by lia. exact H2.
      * intros [H1 H2]. destruct (Nat.eq_dec s i) as [->|Hne].
        -- rewrite Nat.sub_diag in H2. discriminate.
        -- split; [lia|].
           replace (i - s) with (S (i - S s)) in H2 by lia. exact H2.
Qed.

Lemma nonzero_In (mask : list bool) (i : nat) :
  In i (Np.nonzero mask) <-> nth_error mask i = Some true.
Proof.
  unfold Np.nonzero. rewrite nonzero_from_In, Nat.sub_0_r.
  split; [now intros [_ H]|]. intros H. split; [lia|exact H].
Qed.

Lemma argmax_from_spec (l : list Z) (i best : nat) (bestv : Z) :
  exists v,
    (Np.argmax_from i best bestv l = best /\ v = bestv \/
     i <= Np.argmax_from i best bestv l /\
     nth_error l (Np.argmax_from i best bestv l - i) = Some v) /\
    (bestv <= v)%Z /\ forall y, In y l -> (y <= v)%Z.
Proof.
  revert i best bestv. induction l as [|x tl IH]; intros i best bestv; simpl.
  - exists bestv. split; [now left|]. split; [lia|]. intros y [].
  - destruct (Z.ltb_spec bestv x) as [Hlt|Hge].
    + destruct (IH (S i) i x) as (v & Hk & Hv & Hall).
      exists v. split; [|split].
      * right. destruct Hk as [[-> ->]|[H1 H2]].
        -- split; [lia|]. now rewrite Nat.sub_diag.
        -- split; [lia|].
           replace (Np.argmax_from (S i) i x tl - i)
             with (S (Np.argmax_from (S i) i x tl - S i)) by lia.
           exact H2.
      * lia.
      * intros y [<-|Hy]; [lia|now apply Hall].
    + destruct (IH (S i) best bestv) as (v & Hk & Hv & Hall).
      exists v. split; [|split].
      * destruct Hk as [[-> ->]|[H1 H2]]; [now left|right].
        split; [lia|].
        replace (Np.argmax_from (S i) best bestv tl - i)
          with (S (Np.argmax_from (S i) best bestv tl - S i)) by lia.
        exact H2.
      * lia.
      * intros y [<-|Hy]; [lia|now apply Hall].
Qed.

Lemma argmax_spec (l : list Z) :
  l <> [] ->
  exists k v, Np.argmax l = Ok k /\ nth_error l k = Some v /\
              forall y, In y l -> (y <= v)%Z.
Proof.
  destruct l as [|x tl]; [congruence|]. intros _.
  destruct (argmax_from_spec tl 1 0 x) as (v & Hk & Hv & Hall).
  exists (Np.argmax_from 1 0 x tl), v. split; [reflexivity|]. split.
  - destruct Hk as [[-> ->]|[H1 H2]]; [reflexivity|].
    replace (Np.argmax_from 1 0 x tl)
      with (S (Np.argmax_from 1 0 x tl - 1)) at 1 by lia.
    exact H2.
  - intros y [<-|Hy]; [lia|now apply Hall].
Qed.

Lemma min_inds_In (dims : list Z) (k : nat) (m : Z) (i : nat) :
  In i (Np.nonzero (map (fun d => (d =? m)%Z)
                        (map (partition_diff dims) (seq 1 k)))) <->
  i < k /\ partition_diff dims (S i) = m.
Proof.
  rewrite nonzero_In, map_map.
  split.
  - intros H.
    assert (Hi : i < k).
    { assert (Hn : nth_error (map (fun x => (partition_diff dims x =? m)%Z)
                                  (seq 1 k)) i <> None) by congruence.
      apply nth_error_Some in Hn. now rewrite length_map, length_seq in Hn. }
    split; [exact Hi|].
    rewrite nth_error_map, nth_error_seq in H.
    destruct (Nat.ltb_spec i k); [|lia]. simpl in H.
    injection H as H. now apply Z.eqb_eq in H.
  - intros [Hi Hm].
    rewrite nth_error_map, nth_error_seq.
    destruct (Nat.ltb_spec i k); [|lia]. simpl.
    f_equal. now apply Z.eqb_eq.
Qed.

Lemma find_best_partition_spec (dims : list Z) :
  2 <= length dims ->
  exists p,
    _find_best_partition dims = Ok p /\
    1 <= p <= length dims - 1 /\
    (forall q, 1 <= q <= length dims - 1 ->
       (partition_diff dims p <= partition_diff dims q)%Z) /\
    (forall q, 1 <= q <= length dims - 1 ->
       partition_diff dims q = partition_diff dims p ->
       (Np.prod (skipn q dims) <= Np.prod (skipn p dims))%Z).
Proof.
  intros Hlen. unfold _find_best_partition.
  destruct (Nat.eqb_spec (length dims) 1) as [Heq|_]; [lia|].
  set (k := length dims - 1).
  set (diffs := map (partition_diff dims) (seq 1 k)).
  assert (Hne : diffs <> []).
  { unfold diffs. destruct k eqn:Hk; [subst k; lia|]. simpl. congruence. }
  destruct (min_spec diffs Hne) as (m & Hmin & Hin & Hle).
  rewrite Hmin. simpl.
  set (min_inds := Np.nonzero (map (fun d => (d =? m)%Z) diffs)).
  assert (Hmi : forall i, In i min_inds <->
                          i < k /\ partition_diff dims (S i) = m)
    by (intros i; apply min_inds_In).
  assert (Hdiff : forall q, 1 <= q <= k -> (m <= partition_diff dims q)%Z).
  { intros q Hq. apply Hle. unfold diffs. apply in_map, in_seq. lia. }
  assert (Hmne : min_inds <> []).
  { unfold diffs in Hin. apply in_map_iff in Hin.
    destruct Hin as (q & Hq & Hqin). apply in_seq in Hqin.
    assert (Hq' : In (q - 1) min_inds).
    { apply Hmi. split; [lia|]. now replace (S (q - 1)) with q by lia. }
    intros E. rewrite E in Hq'. exact Hq'. }
  destruct (Nat.ltb_spec 1 (length min_inds)) as [Hmany|Hone].
  - set (right_dims :=
           map (fun min_ind => Np.prod (skipn (min_ind + 1) dims)) min_inds).
    assert (Hrne : right_dims <> []).
    { unfold right_dims. destruct min_inds; [congruence|]. simpl. congruence. }
    destruct (argmax_spec right_dims Hrne) as (j & v & Harg & Hnth & Hmax).
    rewrite Harg. simpl.
    assert (Hj : j < length min_inds).
    { assert (Hn : nth_error right_dims j <> None) by congruence.
      apply nth_error_Some in Hn. unfold right_dims in Hn.
      now rewrite length_map in Hn. }
    rewrite (get_ok min_inds j 0 Hj). simpl.
    set (mi := nth j min_inds 0).
    assert (Hin_mi : In mi min_inds) by (apply nth_In; exact Hj).
    apply Hmi in Hin_mi. destruct Hin_mi as [Hmik Hmid].
    assert (Hv : v = Np.prod (skipn (mi + 1) dims)).
    { unfold right_dims in Hnth. rewrite nth_error_map in Hnth.
      rewrite (nth_error_nth' min_inds 0 Hj) in Hnth. simpl in Hnth.
      now injection Hnth as <-. }
    exists (mi + 1). split; [reflexivity|].
    replace (mi + 1) with (S mi) in * by lia.
    split; [fold k; lia|]. split.
    + intros q Hq. rewrite Hmid. now apply Hdiff.
    + intros q Hq Heq. rewrite <- Hv. apply Hmax.
      unfold right_dims. apply in_map_iff. exists (q - 1). split.
      * replace (q - 1 + 1) with q by lia. reflexivity.
      * apply Hmi. fold k in Hq. split; [lia|].
        replace (S (q - 1)) with q by lia. congruence.
  - destruct min_inds as [|mi [|mi' tl]] eqn:Emi; [congruence| |simpl in Hone; lia].
    simpl.
    assert (Hin_mi : In mi [mi]) by now left.
    apply Hmi in Hin_mi. destruct Hin_mi as [Hmik Hmid].
    exists (mi + 1). split; [reflexivity|].
    replace (mi + 1) with (S mi) in * by lia.
    split; [fold k; lia|]. split.
    + intros q Hq. rewrite Hmid. now apply Hdiff.
    + intros q Hq Heq.
      assert (Hq' : In (q - 1) [mi]).
      { apply Hmi. fold k in Hq. split; [lia|].
        replace (S (q - 1)) with q by lia. congruence. }
      destruct Hq' as [Hq'|[]].
      replace q with (S mi) by lia. lia.
Qed.

Lemma partition_diff_exact (dims : list Z) (n : nat) :
  products_fit dims -> 1 <= n <= length dims - 1 ->
  partition_diff dims n = math_diff dims n /\
  Np.prod (skipn n dims) = math_prod (skipn n dims).
Proof.
  intros Hfit Hn. destruct (Hfit n Hn) as (H1 & H2 & H3).
  unfold partition_diff, Np.prod, math_diff in *.
  fold (math_prod (firstn n dims)). fold (math_prod (skipn n dims)).
  rewrite (wrap64_small (math_prod (firstn n dims))) by lia.
  rewrite (wrap64_small (math_prod (skipn n dims))) by lia.
  rewrite (wrap64_small (math_prod (firstn n dims) - math_prod (skipn n dims)))
    by lia.
  rewrite wrap64_small by lia. split; reflexivity.
Qed.

(** C5, as the code has it.  On a list of at least two dimensions whose
    products [prod(dims[:n])], [prod(dims[n:])] and their differences are
    below [2^63] in absolute value for every split index [n],
    [_find_best_partition] returns a split index [p] between 1 and
    [len(dims) - 1] that minimizes [|prod(dims[:p]) - prod(dims[p:])|],
    and among the split indices that reach the minimum one that maximizes
    [prod(dims[p:])]; it returns 2 on [[2,3,4]] and 1 on [[4,4]]. *)
Theorem find_best_partition_balanced :
  (forall dims : list Z,
     2 <= length dims -> products_fit dims ->
     exists p,
       _find_best_partition dims = Ok p /\
       1 <= p <= length dims - 1 /\
       (forall q, 1 <= q <= length dims - 1 ->
          (math_diff dims p <= math_diff dims q)%Z) /\
       (forall q, 1 <= q <= length dims - 1 ->
          math_diff dims q = math_diff dims p ->
          (math_prod (skipn q dims) <= math_prod (skipn p dims))%Z)) /\
  _find_best_partition [2; 3; 4]%Z = Ok 2 /\
  _find_best_partition [4; 4]%Z = Ok 1.
Proof.
  split; [|split; reflexivity].
  intros dims Hlen Hfit.
  destruct (find_best_partition_spec dims Hlen) as (p & Hp & Hr & Hmin & Htie).
  exists p. split; [exact Hp|]. split; [exact Hr|].
  destruct (partition_diff_exact dims p Hfit Hr) as [Edp Epp].
  split.
  - intros q Hq. destruct (partition_diff_exact dims q Hfit Hq) as [Edq _].
    rewrite <- Edp, <- Edq. now apply Hmin.
  - intros q Hq Heq.
    destruct (partition_diff_exact dims q Hfit Hq) as [Edq Epq].
    rewrite <- Epp, <- Epq. apply Htie; [exact Hq|]. congruence.
Qed.

Lemma find_best_partition_balanced_witness :
  exists p,
    _find_best_partition [2; 3; 4]%Z = Ok p /\
    1 <= p <= length [2; 3; 4]%Z - 1 /\
    (forall q, 1 <= q <= length [2; 3; 4]%Z - 1 ->
       (math_diff [2; 3; 4]%Z p <= math_diff [2; 3; 4]%Z q)%Z) /\
    (forall q, 1 <= q <= length [2; 3; 4]%Z - 1 ->
       math_diff [2; 3; 4]%Z q = math_diff [2; 3; 4]%Z p ->
       (math_prod (skipn q [2; 3; 4]%Z) <= math_prod (skipn p [2; 3; 4]%Z))%Z).
Proof.
  apply (proj1 find_best_partition_balanced [2; 3; 4]%Z).
  - simpl. lia.
  - intros n Hn. simpl in Hn.
    assert (E : n = 1 \/ n = 2) by lia.
    destruct E as [->| ->]; vm_compute; repeat split; reflexivity.
Defined.

(** The claim C5 as stated fails where 64-bit products wrap around: on
    [[2^32, 2^32, 3]] the code forms [prod(dims[:2]) = 0], finds the
    difference 3 at the split 2 and returns 2, although the split 1 has
    the smaller difference [2^33] against [2^64 - 3]. *)
Lemma find_best_partition_wraps :
  _find_best_partition [4294967296; 4294967296; 3]%Z = Ok 2 /\
  (math_diff [4294967296; 4294967296; 3]%Z 1 <
   math_diff [4294967296; 4294967296; 3]%Z 2)%Z.
Proof. split; reflexivity. Qed.

(** C6.  On a list of fewer than two dimensions [_find_best_partition]
    raises an error and returns no split index. *)
Theorem find_best_partition_too_short (dims : list Z) :
  length dims < 2 ->
  (exists e, _find_best_partition dims = Err e) /\
  (forall p, _find_best_partition dims <> Ok p).
Proof.
  intros H. destruct dims as [|x [|y tl]]; simpl in H; try lia.
  - split; [exists ValueError; reflexivity|]. intros p. discriminate.
  - split; [exists ValueError; reflexivity|]. intros p. discriminate.
Qed.

Lemma find_best_partition_too_short_witness :
  (exists e, _find_best_partition [7%Z] = Err e) /\
  (forall p, _find_best_partition [7%Z] <> Ok p).
Proof.
  apply (find_best_partition_too_short [7%Z]). simpl. lia.
Defined.

(** ** Canonical order, membership and indices of charges *)

Lemma mem_In (x : Z) (l : list Z) : mem x l = true <-> In x l.
Proof.
  unfold mem. rewrite existsb_exists. split.
  - intros (y & Hy & Heq). apply Z.eqb_eq in Heq. now subst.
  - intros H. exists x. split; [exact H|apply Z.eqb_refl].
Qed.

Lemma mem_false (x : Z) (l : list Z) : mem x l = false <-> ~ In x l.
Proof.
  rewrite <- mem_In. destruct (mem x l); split; congruence.
Qed.

Lemma insert_u_In (x y : Z) (l : list Z) :
  In y (insert_u x l) <-> y = x \/ In y l.
Proof.
  induction l as [|z tl IH]; simpl.
  - intuition.
  - destruct (Z.ltb_spec x z); [simpl; intuition|].
    destruct (Z.eqb_spec x z); [subst; simpl; intuition|].
    simpl. rewrite IH. intuition.
Qed.

Lemma usort_In (x : Z) (l : list Z) : In x (usort l) <-> In x l.
Proof.
  induction l as [|y tl IH]; simpl; [reflexivity|].
  rewrite insert_u_In, IH. intuition.
Qed.

Lemma insert_u_sorted (x : Z) (l : list Z) :
  StronglySorted Z.lt l -> StronglySorted Z.lt (insert_u x l).
Proof.
  induction 1 as [|z tl Hs IH Hall]; simpl.
  - repeat constructor.
  - destruct (Z.ltb_spec x z) as [Hlt|Hge].
    + constructor; [now constructor|].
      constructor; [exact Hlt|].
      eapply Forall_impl; [|exact Hall]. intros a Ha. simpl in Ha. lia.
    + destruct (Z.eqb_spec x z) as [Heq|Hne]; [now constructor|].
      constructor; [exact IH|].
      apply Forall_forall. intros a Ha. apply insert_u_In in Ha.
      destruct Ha as [->|Ha]; [lia|].
      rewrite Forall_forall in Hall. now apply Hall.
Qed.

Lemma usort_sorted (l : list Z) : StronglySorted Z.lt (usort l).
Proof.
  induction l as [|x tl IH]; simpl; [constructor|].
  now apply insert_u_sorted.
Qed.

Lemma sorted_NoDup (l : list Z) : StronglySorted Z.lt l -> NoDup l.
Proof.
  induction 1 as [|z tl Hs IH Hall]; constructor; [|exact IH].
  intros Hin. rewrite Forall_forall in Hall. specialize (Hall z Hin). lia.
Qed.

Lemma usort_NoDup (l : list Z) : NoDup (usort l).
Proof. apply sorted_NoDup, usort_sorted. Qed.

Lemma sorted_ext (l1 l2 : list Z) :
  StronglySorted Z.lt l1 -> StronglySorted Z.lt l2 ->
  (forall x, In x l1 <-> In x l2) -> l1 = l2.
Proof.
  intros H1. revert l2.
  induction H1 as [|a t1 Hs1 IH Hall1]; intros l2 H2 Hext.
  - destruct l2 as [|b t2]; [reflexivity|].
    exfalso. apply (proj2 (Hext b)). now left.
  - destruct H2 as [|b t2 Hs2 Hall2].
    + exfalso. apply (proj1 (Hext a)). now left.
    + rewrite Forall_forall in Hall1, Hall2.
      assert (Hab : a = b).
      { destruct (proj1 (Hext a) (or_introl eq_refl)) as [Hba|Hin1];
          [congruence|].
        destruct (proj2 (Hext b) (or_introl eq_refl)) as [Hba|Hin2];
          [congruence|].
        specialize (Hall1 b Hin2). specialize (Hall2 a Hin1). lia. }
      subst b. f_equal. apply IH; [exact Hs2|].
      intros x. split; intros Hx.
      * destruct (proj1 (Hext x) (or_intror Hx)) as [Hax|Hin]; [|exact Hin].
        specialize (Hall1 x Hx). lia.
      * destruct (proj2 (Hext x) (or_intror Hx)) as [Hax|Hin]; [|exact Hin].
        specialize (Hall2 x Hx). lia.
Qed.

Lemma usort_ext (l1 l2 : list Z) :
  (forall x, In x l1 <-> In x l2) -> usort l1 = usort l2.
Proof.
  intros H. apply sorted_ext; try apply usort_sorted.
  intros x. now rewrite !usort_In.
Qed.

Lemma usort_id (l : list Z) : StronglySorted Z.lt l -> usort l = l.
Proof.
  intros H. apply sorted_ext; [apply usort_sorted|exact H|].
  intros x. apply usort_In.
Qed.

Lemma usort_idem (l : list Z) : usort (usort l) = usort l.
Proof. apply usort_id, usort_sorted. Qed.

Lemma usort_nil_inv (l : list Z) : usort l = [] -> l = [].
Proof.
  destruct l as [|x tl]; [reflexivity|]. intros H.
  exfalso. assert (Hin : In x (usort (x :: tl))) by (apply usort_In; now left).
  now rewrite H in Hin.
Qed.


Lemma index_of_lt (x : Z) (l : list Z) : In x l -> index_of x l < length l.
Proof.
  induction l as [|y tl IH]; simpl; [intros []|].
  intros H. destruct (Z.eqb_spec x y); [lia|].
  destruct H as [H|H]; [congruence|]. specialize (IH H). lia.
Qed.

Lemma nth_index_of (x d : Z) (l : list Z) :
  In x l -> nth (index_of x l) l d = x.
Proof.
  induction l as [|y tl IH]; simpl; [intros []|].
  intros H. destruct (Z.eqb_spec x y); [congruence|].
  destruct H as [H|H]; [congruence|]. now apply IH.
Qed.

Lemma index_of_nth (i : nat) (d : Z) (l : list Z) :
  NoDup l -> i < length l -> index_of (nth i l d) l = i.
Proof.
  intros Hnd. revert i. induction Hnd as [|y tl Hnin Hnd IH]; intros i Hi.
  - simpl in Hi. lia.
  - destruct i as [|i]; simpl.
    + now rewrite Z.eqb_refl.
    + simpl in Hi. destruct (Z.eqb_spec (nth i tl d) y) as [Heq|_].
      * exfalso. apply Hnin. rewrite <- Heq. apply nth_In. lia.
      * f_equal. apply IH. lia.
Qed.

Lemma index_of_inj (x y : Z) (l : list Z) :
  In x l -> In y l -> index_of x l = index_of y l -> x = y.
Proof.
  intros Hx Hy Heq.
  rewrite <- (nth_index_of x 0%Z l Hx), <- (nth_index_of y 0%Z l Hy).
  now rewrite Heq.
Qed.

Lemma values_U1Charge (vals : list Z) : values (U1Charge vals) = vals.
Proof.
  unfold values, U1Charge, np_unique. simpl. rewrite map_map.
  transitivity (map (fun v : Z => v) vals); [|apply map_id].
  apply map_ext_in. intros v Hv.
  apply nth_index_of. now apply usort_In.
Qed.

Lemma values_unique (c : BaseCharge) : values (unique c) = usort (values c).
Proof.
  unfold unique, values at 1. simpl.
  apply nth_ext with (d := 0%Z) (d' := 0%Z).
  - now rewrite length_map, length_seq.
  - intros n Hn. rewrite length_map, length_seq in Hn.
    rewrite (nth_indep _ 0%Z (nth 0 (usort (values c)) 0%Z))
      by now rewrite length_map, length_seq.
    rewrite (map_nth (fun l => nth l (usort (values c)) 0%Z)).
    now rewrite seq_nth.
Qed.

(** ** Outer combinations and the fusion of legs *)

Lemma outer_cons {A : Type} (op : A -> A -> A) (x : A) (a b : list A) :
  outer op (x :: a) b = map (op x) b ++ outer op a b.
Proof. reflexivity. Qed.

Lemma outer_app {A : Type} (op : A -> A -> A) (a1 a2 b : list A) :
  outer op (a1 ++ a2) b = outer op a1 b ++ outer op a2 b.
Proof. unfold outer. apply flat_map_app. Qed.

Lemma length_outer {A : Type} (op : A -> A -> A) (a b : list A) :
  length (outer op a b) = length a * length b.
Proof.
  induction a as [|x a IH]; [reflexivity|].
  rewrite outer_cons, length_app, length_map, IH. simpl. lia.
Qed.

Lemma outer_nil_r {A : Type} (op : A -> A -> A) (a : list A) :
  outer op a [] = [].
Proof. induction a as [|x a IH]; [reflexivity|]. now rewrite outer_cons, IH. Qed.

Lemma In_outer_add (z : Z) (a b : list Z) :
  In z (outer Z.add a b) <-> exists x y, In x a /\ In y b /\ z = (x + y)%Z.
Proof.
  unfold outer. rewrite in_flat_map. split.
  - intros (x & Hx & Hz). apply in_map_iff in Hz.
    destruct Hz as (y & Hy & Hyb). exists x, y. now subst.
  - intros (x & y & Hx & Hy & ->). exists x. split; [exact Hx|].
    now apply in_map.
Qed.

Lemma outer_map_add_l (x : Z) (b c : list Z) :
  outer Z.add (map (Z.add x) b) c = map (Z.add x) (outer Z.add b c).
Proof.
  induction b as [|y b IH]; [reflexivity|].
  simpl map at 1. rewrite !outer_cons, map_app, IH. f_equal.
  rewrite map_map. apply map_ext. intros z. lia.
Qed.

Lemma outer_add_assoc (a b c : list Z) :
  outer Z.add (outer Z.add a b) c = outer Z.add a (outer Z.add b c).
Proof.
  induction a as [|x a IH]; [reflexivity|].
  rewrite !outer_cons, outer_app, IH. f_equal. apply outer_map_add_l.
Qed.

Lemma map_opp_outer (a b : list Z) :
  map Z.opp (outer Z.add a b) = outer Z.add (map Z.opp a) (map Z.opp b).
Proof.
  induction a as [|x a IH]; [reflexivity|].
  simpl map at 2. rewrite !outer_cons, map_app, IH. f_equal.
  rewrite !map_map. apply map_ext. intros z. lia.
Qed.

Lemma map_sgn_true (v : list Z) : map (sgn true) v = v.
Proof. apply map_id. Qed.

Lemma map_sgn_negb (f : bool) (v : list Z) :
  map (sgn (negb f)) v = map Z.opp (map (sgn f) v).
Proof.
  rewrite map_map. apply map_ext. intros x. destruct f; simpl; lia.
Qed.

Lemma fused_from_outer (acc : list Z) (legs : list (list Z)) (flows : list bool) :
  legs <> [] -> length flows = length legs ->
  fused_from acc legs flows = outer Z.add acc (fused_values legs flows).
Proof.
  revert acc flows. induction legs as [|v vs IH]; intros acc flows Hne Hlen;
    [congruence|].
  destruct flows as [|f fs]; [discriminate|]. simpl in Hlen.
  destruct vs as [|w vs].
  - destruct fs; [reflexivity|discriminate].
  - change (fused_from acc (v :: w :: vs) (f :: fs))
      with (fused_from (outer Z.add acc (map (sgn f) v)) (w :: vs) fs).
    change (fused_values (v :: w :: vs) (f :: fs))
      with (fused_from (map (sgn f) v) (w :: vs) fs).
    rewrite (IH (outer Z.add acc (map (sgn f) v)) fs) by (congruence || lia).
    rewrite (IH (map (sgn f) v) fs) by (congruence || lia).
    apply outer_add_assoc.
Qed.

Lemma fused_from_app (acc : list Z) (l1 l2 : list (list Z)) (f1 f2 : list bool) :
  length f1 = length l1 ->
  fused_from acc (l1 ++ l2) (f1 ++ f2) = fused_from (fused_from acc l1 f1) l2 f2.
Proof.
  revert acc f1. induction l1 as [|v l1 IH]; intros acc f1 Hlen.
  - destruct f1; [reflexivity|discriminate].
  - destruct f1 as [|f f1]; [discriminate|]. simpl. apply IH.
    simpl in Hlen. lia.
Qed.

Lemma fused_values_split (legs : list (list Z)) (flows : list bool) (p : nat) :
  length flows = length legs -> 0 < p < length legs ->
  fused_values legs flows =
  outer Z.add (fused_values (firstn p legs) (firstn p flows))
              (fused_values (skipn p legs) (skipn p flows)).
Proof.
  intros Hlen Hp.
  rewrite <- (firstn_skipn p legs) at 1. rewrite <- (firstn_skipn p flows) at 1.
  assert (H1 : length (firstn p flows) = length (firstn p legs))
    by (rewrite !length_firstn; lia).
  assert (H2 : length (skipn p flows) = length (skipn p legs))
    by (rewrite !length_skipn; lia).
  assert (Hne2 : skipn p legs <> []).
  { intros E. apply (f_equal (@length _)) in E.
    rewrite length_skipn in E. simpl in E. lia. }
  destruct (firstn p legs) as [|v l1] eqn:E1.
  { apply (f_equal (@length _)) in E1. rewrite length_firstn in E1.
    simpl in E1. lia. }
  destruct (firstn p flows) as [|f f1] eqn:E2; [discriminate|].
  simpl app. cbn [fused_values].
  rewrite fused_from_app by (simpl in H1; lia).
  now apply fused_from_outer.
Qed.

Lemma length_fused_from (acc : list Z) (legs : list (list Z)) (flows : list bool) :
  length flows = length legs ->
  length (fused_from acc legs flows) = length acc * num_positions legs.
Proof.
  revert acc flows. induction legs as [|v vs IH]; intros acc flows Hlen.
  - simpl. unfold num_positions. simpl. lia.
  - destruct flows as [|f fs]; [discriminate|]. simpl.
    rewrite IH by (simpl in Hlen; lia).
    rewrite length_outer, length_map. unfold num_positions. simpl. lia.
Qed.

Lemma length_fused_values (legs : list (list Z)) (flows : list bool) :
  legs <> [] -> length flows = length legs ->
  length (fused_values legs flows) = num_positions legs.
Proof.
  intros Hne Hlen. destruct legs as [|v vs]; [congruence|].
  destruct flows as [|f fs]; [discriminate|]. simpl.
  rewrite length_fused_from by (simpl in Hlen; lia).
  rewrite length_map. reflexivity.
Qed.

Lemma fused_from_negb (acc : list Z) (legs : list (list Z)) (flows : list bool) :
  fused_from (map Z.opp acc) legs (map negb flows) =
  map Z.opp (fused_from acc legs flows).
Proof.
  revert acc flows. induction legs as [|v vs IH]; intros acc flows;
    [reflexivity|].
  destruct flows as [|f fs]; [reflexivity|]. simpl.
  rewrite map_sgn_negb, <- map_opp_outer. apply IH.
Qed.

Lemma fused_values_negb (legs : list (list Z)) (flows : list bool) :
  fused_values legs (map negb flows) = map Z.opp (fused_values legs flows).
Proof.
  destruct legs as [|v vs]; [reflexivity|].
  destruct flows as [|f fs]; [reflexivity|]. simpl.
  rewrite map_sgn_negb. apply fused_from_negb.
Qed.

Lemma values_dual (f : bool) (c : BaseCharge) :
  values (dual f c) = map (sgn f) (values c).
Proof.
  destruct f; simpl.
  - symmetry. apply map_sgn_true.
  - apply values_U1Charge.
Qed.

Lemma dual_U1Charge (f : bool) (v : list Z) :
  dual f (U1Charge v) = U1Charge (map (sgn f) v).
Proof.
  destruct f; simpl.
  - now rewrite map_sgn_true.
  - now rewrite values_U1Charge.
Qed.

Lemma fuse_from_ok (acc : list Z) (legs : list (list Z)) (flows : list bool) :
  length flows = length legs ->
  fuse_from (U1Charge acc) (map U1Charge legs) flows =
  Ok (U1Charge (fused_from acc legs flows)).
Proof.
  revert acc flows. induction legs as [|v vs IH]; intros acc flows Hlen.
  - reflexivity.
  - destruct flows as [|f fs]; [discriminate|]. simpl.
    unfold fuse. rewrite values_U1Charge, values_dual, values_U1Charge.
    apply IH. simpl in Hlen. lia.
Qed.

Lemma fuse_charges_ok (legs : list (list Z)) (flows : list bool) :
  legs <> [] -> length flows = length legs ->
  fuse_charges (map U1Charge legs) flows =
  Ok (U1Charge (fused_values legs flows)).
Proof.
  intros Hne Hlen. destruct legs as [|v vs]; [congruence|].
  destruct flows as [|f fs]; [discriminate|].
  unfold fuse_charges. simpl.
  rewrite dual_U1Charge. apply fuse_from_ok. simpl in Hlen. lia.
Qed.

(** ** Counting fused charges *)

Lemma list_sum_map_add {A : Type} (f g : A -> nat) (l : list A) :
  list_sum (map (fun a => f a + g a) l) =
  list_sum (map f l) + list_sum (map g l).
Proof. induction l as [|x l IH]; simpl; lia. Qed.

Lemma list_sum_map_ext {A : Type} (f g : A -> nat) (l : list A) :
  (forall a, In a l -> f a = g a) ->
  list_sum (map f l) = list_sum (map g l).
Proof. intros H. f_equal. now apply map_ext_in. Qed.

Lemma list_sum_map_zero {A : Type} (f : A -> nat) (l : list A) :
  (forall a, In a l -> f a = 0) -> list_sum (map f l) = 0.
Proof.
  induction l as [|x l IH]; intros H; simpl; [reflexivity|].
  rewrite (H x (or_introl eq_refl)), IH; [reflexivity|].
  intros a Ha. apply H. now right.
Qed.

Lemma list_sum_map_mul_l {A : Type} (k : nat) (f : A -> nat) (l : list A) :
  list_sum (map (fun a => k * f a) l) = k * list_sum (map f l).
Proof. induction l as [|x l IH]; simpl; lia. Qed.

Lemma list_sum_indicator (x : Z) (g : Z -> nat) (l : list Z) :
  NoDup l -> In x l ->
  list_sum (map (fun a => if Z.eq_dec x a then g a else 0) l) = g x.
Proof.
  induction 1 as [|y l Hnin Hnd IH]; intros Hin; [destruct Hin|].
  simpl. destruct (Z.eq_dec x y) as [->|Hne].
  - rewrite list_sum_map_zero; [lia|].
    intros a Ha. destruct (Z.eq_dec y a); [congruence|reflexivity].
  - destruct Hin as [Hin|Hin]; [congruence|]. now rewrite IH.
Qed.

Lemma count_weighted_sum (g : Z -> nat) (keys X : list Z) :
  NoDup keys -> (forall x, In x X -> In x keys) ->
  list_sum (map (fun a => count_occ Z.eq_dec X a * g a) keys) =
  list_sum (map g X).
Proof.
  intros Hnd. induction X as [|x X IH]; intros Hsub.
  - simpl. now apply list_sum_map_zero.
  - simpl map at 2. simpl list_sum at 2.
    rewrite <- IH by (intros y Hy; apply Hsub; now right).
    rewrite <- (list_sum_indicator x g keys Hnd (Hsub x (or_introl eq_refl))).
    rewrite <- list_sum_map_add. apply list_sum_map_ext. intros a _.
    simpl. destruct (Z.eq_dec x a); lia.
Qed.

Lemma count_occ_map_add (x u : Z) (Y : list Z) :
  count_occ Z.eq_dec (map (Z.add x) Y) u = count_occ Z.eq_dec Y (u - x)%Z.
Proof.
  induction Y as [|y Y IH]; [reflexivity|]. simpl.
  destruct (Z.eq_dec (x + y) u), (Z.eq_dec y (u - x)); lia.
Qed.

Lemma count_occ_outer (X Y : list Z) (u : Z) :
  count_occ Z.eq_dec (outer Z.add X Y) u =
  list_sum (map (fun x => count_occ Z.eq_dec Y (u - x)%Z) X).
Proof.
  induction X as [|x X IH]; [reflexivity|].
  rewrite outer_cons, count_occ_app, count_occ_map_add, IH. reflexivity.
Qed.

Lemma count_occ_indicator_sum (Y : list Z) (w : Z) :
  count_occ Z.eq_dec Y w =
  list_sum (map (fun y => if Z.eq_dec y w then 1 else 0) Y).
Proof.
  induction Y as [|y Y IH]; [reflexivity|]. simpl.
  destruct (Z.eq_dec y w); lia.
Qed.

Lemma count_occ_map_opp (Y : list Z) (w : Z) :
  count_occ Z.eq_dec (map Z.opp Y) w = count_occ Z.eq_dec Y (- w)%Z.
Proof.
  induction Y as [|y Y IH]; [reflexivity|]. simpl.
  destruct (Z.eq_dec (- y) w), (Z.eq_dec y (- w)); lia.
Qed.

Lemma mask_select_app {A : Type} (l1 l2 : list A) (m1 m2 : list bool) :
  length l1 = length m1 ->
  Np.mask_select (l1 ++ l2) (m1 ++ m2) =
  Np.mask_select l1 m1 ++ Np.mask_select l2 m2.
Proof.
  revert m1. induction l1 as [|x l1 IH]; intros m1 Hlen.
  - destruct m1; [reflexivity|discriminate].
  - destruct m1 as [|b m1]; [discriminate|]. simpl.
    rewrite IH by (simpl in Hlen; lia). now destruct b.
Qed.

Lemma mask_select_map {A B : Type} (f : A -> B) (p : A -> bool) (l : list A) :
  Np.mask_select (map f l) (map p l) = map f (filter p l).
Proof.
  induction l as [|x l IH]; [reflexivity|]. simpl.
  destruct (p x); simpl; now rewrite IH.
Qed.

Lemma mask_select_map_l {A B : Type} (f : A -> B) (l : list A)
  (mask : list bool) :
  Np.mask_select (map f l) mask = map f (Np.mask_select l mask).
Proof.
  revert mask. induction l as [|x l IH]; intros mask; [reflexivity|].
  destruct mask as [|b mask]; [reflexivity|]. simpl.
  rewrite IH. now destruct b.
Qed.

Lemma list_sum_filter {A : Type} (f : A -> nat) (p : A -> bool) (l : list A) :
  list_sum (map f (filter p l)) =
  list_sum (map (fun a => if p a then f a else 0) l).
Proof.
  induction l as [|x l IH]; [reflexivity|]. simpl.
  destruct (p x); simpl; now rewrite IH.
Qed.

Lemma masked_outer_sum (cA cB : Z -> nat) (p : Z -> bool) (A B : list Z) :
  list_sum (Np.mask_select (outer Nat.mul (map cA A) (map cB B))
                           (map p (outer Z.add A B))) =
  list_sum (map (fun a =>
    list_sum (map (fun b => if p (a + b)%Z then cA a * cB b else 0) B)) A).
Proof.
  induction A as [|a A IH]; [reflexivity|].
  change (map cA (a :: A)) with (cA a :: map cA A).
  rewrite !outer_cons, map_app.
  rewrite mask_select_app by now rewrite !length_map.
  rewrite list_sum_app, IH.
  simpl. f_equal.
  rewrite !map_map.
  rewrite (mask_select_map (fun b => cA a * cB b) (fun b => p (a + b)%Z) B).
  apply list_sum_filter.
Qed.

(** ** The degeneracy accumulator *)

Lemma sgn_involutive (f : bool) (x : Z) : sgn f (sgn f x) = x.
Proof. destruct f; simpl; lia. Qed.

Lemma unique_U1Charge (X : list Z) :
  unique (U1Charge X) = mk (usort X) (seq 0 (length (usort X))).
Proof. unfold unique. now rewrite values_U1Charge. Qed.

Lemma unique_counts_U1Charge (X : list Z) :
  unique_counts (U1Charge X) =
  map count64 (map (count_occ Z.eq_dec X) (usort X)).
Proof. unfold unique_counts. now rewrite values_U1Charge, map_map. Qed.

Lemma fuse_degeneracies_count64 (a b : list nat) :
  fuse_degeneracies (map count64 a) (map count64 b) =
  map count64 (outer Nat.mul a b).
Proof.
  unfold fuse_degeneracies, outer. induction a as [|x a IH]; [reflexivity|].
  cbn [map flat_map]. rewrite map_app, IH, !map_map. f_equal.
  apply map_ext. intros y. apply count64_mul.
Qed.

Lemma map_nth_seq {B : Type} (h : Z -> B) (U : list Z) :
  map (fun m => h (nth m U 0%Z)) (seq 0 (length U)) = map h U.
Proof.
  rewrite <- (map_map (fun m => nth m U 0%Z) h). f_equal.
  apply nth_ext with (d := 0%Z) (d' := 0%Z).
  - now rewrite length_map, length_seq.
  - intros n Hn. rewrite length_map, length_seq in Hn.
    rewrite (nth_indep _ 0%Z (nth 0 U 0%Z))
      by now rewrite length_map, length_seq.
    rewrite (map_nth (fun m => nth m U 0%Z)). now rewrite seq_nth.
Qed.

Lemma leg_indicator_sum (f : bool) (v : list Z) (a u : Z) :
  list_sum (map (fun b => if Z.eq_dec (a + b) u
                          then count_occ Z.eq_dec v (sgn f b) else 0)
                (map (sgn f) (usort v))) =
  count_occ Z.eq_dec (map (sgn f) v) (u - a)%Z.
Proof.
  rewrite map_map.
  rewrite (list_sum_map_ext _
    (fun t => count_occ Z.eq_dec v t *
              (if Z.eq_dec (a + sgn f t) u then 1 else 0))).
  2:{ intros t _. rewrite sgn_involutive.
      destruct (Z.eq_dec (a + sgn f t) u); lia. }
  rewrite (count_weighted_sum
             (fun t => if Z.eq_dec (a + sgn f t) u then 1 else 0)
             (usort v) v (usort_NoDup v)).
  2:{ intros x Hx. now apply usort_In. }
  rewrite count_occ_indicator_sum, map_map.
  apply list_sum_map_ext. intros y _.
  destruct (Z.eq_dec (a + sgn f y) u), (Z.eq_dec (sgn f y) (u - a)); lia.
Qed.

Lemma usort_outer_usort (f : bool) (X v : list Z) :
  usort (outer Z.add (usort X) (map (sgn f) (usort v))) =
  usort (outer Z.add X (map (sgn f) v)).
Proof.
  apply usort_ext. intros z. rewrite !In_outer_add.
  split; intros (x & y & Hx & Hy & ->); exists x, y; repeat split.
  - now apply usort_In.
  - apply in_map_iff in Hy. destruct Hy as (t & <- & Ht).
    apply in_map. now apply usort_In.
  - now apply usort_In.
  - apply in_map_iff in Hy. destruct Hy as (t & <- & Ht).
    apply in_map. now apply usort_In.
Qed.

Lemma fused_degeneracy_at (f : bool) (X v : list Z) (m : nat) :
  let O := outer Z.add (usort X) (map (sgn f) (usort v)) in
  m < length (usort O) ->
  list_sum (Np.mask_select
              (outer Nat.mul (map (count_occ Z.eq_dec X) (usort X))
                             (map (count_occ Z.eq_dec v) (usort v)))
              (map (fun l => l =? m) (map (fun z => index_of z (usort O)) O))) =
  count_occ Z.eq_dec (outer Z.add X (map (sgn f) v)) (nth m (usort O) 0%Z).
Proof.
  intros O Hm. set (U := usort O) in *. set (u := nth m U 0%Z).
  rewrite map_map.
  replace (map (count_occ Z.eq_dec v) (usort v))
    with (map (fun b => count_occ Z.eq_dec v (sgn f b))
              (map (sgn f) (usort v))).
  2:{ rewrite map_map. apply map_ext. intros t. now rewrite sgn_involutive. }
  unfold O.
  rewrite (masked_outer_sum (count_occ Z.eq_dec X)
             (fun b => count_occ Z.eq_dec v (sgn f b))
             (fun z => index_of z U =? m)).
  rewrite (list_sum_map_ext _
    (fun a => count_occ Z.eq_dec X a *
              count_occ Z.eq_dec (map (sgn f) v) (u - a)%Z)).
  - rewrite (count_weighted_sum
               (fun a => count_occ Z.eq_dec (map (sgn f) v) (u - a)%Z)
               (usort X) X (usort_NoDup X)).
    + now rewrite count_occ_outer.
    + intros x Hx. now apply usort_In.
  - intros a Ha. rewrite <- leg_indicator_sum, <- list_sum_map_mul_l.
    apply list_sum_map_ext. intros b Hb.
    assert (Hin : In (a + b)%Z U).
    { apply usort_In. apply In_outer_add. now exists a, b. }
    destruct (Nat.eqb_spec (index_of (a + b)%Z U) m) as [Heq|Hne];
      destruct (Z.eq_dec (a + b) u) as [Hu|Hu]; try lia.
    + exfalso. apply Hu. unfold u. rewrite <- Heq.
      symmetry. now apply nth_index_of.
    + exfalso. apply Hne. rewrite Hu. unfold u.
      apply index_of_nth; [apply usort_NoDup|exact Hm].
Qed.

Lemma degeneracy_step (f : bool) (X v : list Z) :
  let fused_charges :=
    fuse (unique (U1Charge X)) (dual f (unique (U1Charge v))) in
  unique fused_charges = unique (U1Charge (outer Z.add X (map (sgn f) v))) /\
  mapM (fun m =>
      am <- Np.get (charge_labels (unique fused_charges)) m ;;
      sel <- Np.select
               (fuse_degeneracies (unique_counts (U1Charge X))
                                  (unique_counts (U1Charge v)))
               (map (fun l => l =? am) (charge_labels fused_charges)) ;;
      Ok (Np.sum sel))
    (seq 0 (len (unique fused_charges))) =
  Ok (unique_counts (U1Charge (outer Z.add X (map (sgn f) v)))).
Proof.
  intros fused_charges.
  set (O := outer Z.add (usort X) (map (sgn f) (usort v))).
  assert (Hf : fused_charges = U1Charge O).
  { unfold fused_charges, fuse.
    now rewrite values_dual, !values_unique, !values_U1Charge. }
  clearbody fused_charges. subst fused_charges.
  assert (HU : usort O = usort (outer Z.add X (map (sgn f) v)))
    by apply usort_outer_usort.
  assert (Hu : unique (U1Charge O) =
               unique (U1Charge (outer Z.add X (map (sgn f) v)))).
  { rewrite !unique_U1Charge. now rewrite HU. }
  split; [exact Hu|].
  rewrite !unique_counts_U1Charge.
  rewrite Hu, unique_U1Charge, <- HU. unfold len. simpl charge_labels.
  rewrite length_seq.
  rewrite (map_map (count_occ Z.eq_dec (outer Z.add X (map (sgn f) v)))
             count64).
  rewrite <- (map_nth_seq
    (fun q => count64 (count_occ Z.eq_dec (outer Z.add X (map (sgn f) v)) q))
    (usort O)).
  apply mapM_ok. intros m Hm. apply in_seq in Hm.
  rewrite (get_ok _ m 0) by (rewrite length_seq; lia).
  rewrite seq_nth by lia. cbn [bind Nat.add].
  unfold U1Charge, np_unique. cbn [charge_labels snd].
  rewrite fuse_degeneracies_count64.
  rewrite select_ok.
  2:{ rewrite length_map, length_outer, !length_map. unfold O.
      now rewrite length_outer, !length_map. }
  cbn [bind]. f_equal. rewrite mask_select_map_l, sum_count64. f_equal.
  apply (fused_degeneracy_at f X v m). fold O. lia.
Qed.

Lemma fused_degeneracies_loop_ok (X : list Z) (legs : list (list Z))
  (flows : list bool) :
  length flows = length legs ->
  fused_degeneracies_loop (unique (U1Charge X)) (unique_counts (U1Charge X))
    (map U1Charge legs) flows =
  Ok (unique (U1Charge (fused_from X legs flows)),
      unique_counts (U1Charge (fused_from X legs flows))).
Proof.
  revert X flows. induction legs as [|v vs IH]; intros X flows Hlen.
  - reflexivity.
  - destruct flows as [|f fs]; [discriminate|].
    cbn [map fused_degeneracies_loop fused_from].
    destruct (degeneracy_step f X v) as [Hu Hd].
    cbv zeta in Hu, Hd. rewrite Hd. cbn [bind]. rewrite Hu.
    apply IH. simpl in Hlen. lia.
Qed.

Lemma compute_fused_charge_degeneracies_ok (legs : list (list Z))
  (flows : list bool) :
  legs <> [] -> length flows = length legs ->
  compute_fused_charge_degeneracies (map U1Charge legs) flows =
  Ok (unique (U1Charge (fused_values legs flows)),
      unique_counts (U1Charge (fused_values legs flows))).
Proof.
  intros Hne Hlen. destruct legs as [|v vs]; [congruence|].
  destruct flows as [|f fs]; [discriminate|].
  assert (Hd : unique (dual f (U1Charge v)) = unique (U1Charge (map (sgn f) v)) /\
               unique_counts (dual f (U1Charge v)) =
               unique_counts (U1Charge (map (sgn f) v)))
    by now rewrite dual_U1Charge.
  destruct Hd as [Hd1 Hd2].
  unfold compute_fused_charge_degeneracies.
  cbn [map length Np.get nth_error bind tl].
  rewrite Hd1, Hd2.
  destruct (Nat.eqb_spec (S (length (map U1Charge vs))) 1) as [H1|H1].
  - destruct vs; [|simpl in H1; lia]. reflexivity.
  - cbn [fused_values]. apply fused_degeneracies_loop_ok. simpl in Hlen. lia.
Qed.

Lemma sum_counts (X : list Z) :
  list_sum (map (count_occ Z.eq_dec X) (usort X)) = length X.
Proof.
  rewrite (list_sum_map_ext _ (fun a => count_occ Z.eq_dec X a * 1))
    by (intros a _; lia).
  rewrite (count_weighted_sum (fun _ => 1) (usort X) X (usort_NoDup X))
    by (intros x Hx; now apply usort_In).
  induction X as [|x X IH]; simpl; [reflexivity|]. now rewrite IH.
Qed.

Lemma math_sum_of_nat (l : list nat) :
  math_sum (map Z.of_nat l) = Z.of_nat (list_sum l).
Proof.
  unfold math_sum. induction l as [|x l IH]; [reflexivity|].
  cbn [map fold_right list_sum]. rewrite IH.
  change (fold_right Init.Nat.add 0 l) with (list_sum l). lia.
Qed.

Lemma count_occ_le_length (X : list Z) (x : Z) :
  count_occ Z.eq_dec X x <= length X.
Proof.
  induction X as [|y X IH]; [simpl; lia|].
  simpl. destruct (Z.eq_dec y x); lia.
Qed.

Lemma map_count64_small (X : list Z) (keys : list Z) :
  (Z.of_nat (length X) < 9223372036854775808)%Z ->
  map count64 (map (count_occ Z.eq_dec X) keys) =
  map Z.of_nat (map (count_occ Z.eq_dec X) keys).
Proof.
  intros H. rewrite !map_map. apply map_ext. intros q.
  apply count64_small. pose proof (count_occ_le_length X q). lia.
Qed.

Lemma num_positions_Z (legs : list (list Z)) :
  Z.of_nat (num_positions legs) =
  math_prod (map (fun v => Z.of_nat (length v)) legs).
Proof.
  unfold num_positions, math_prod. induction legs as [|v vs IH]; [reflexivity|].
  cbn [map fold_right]. now rewrite Nat2Z.inj_mul, IH.
Qed.

(** C3, as the code has it.  For a non-empty list of legs and as many
    flows, when the product of the lengths of the legs is below [2^63],
    the degeneracies that [compute_fused_charge_degeneracies] returns sum
    to the product of the lengths of the legs. *)
Theorem degeneracy_conservation (legs : list (list Z)) (flows : list bool) :
  legs <> [] -> length flows = length legs ->
  (Z.of_nat (num_positions legs) < 9223372036854775808)%Z ->
  exists unique_charges degeneracies,
    compute_fused_charge_degeneracies (map U1Charge legs) flows =
      Ok (unique_charges, degeneracies) /\
    math_sum degeneracies = Z.of_nat (num_positions legs).
Proof.
  intros Hne Hlen Hfit.
  exists (unique (U1Charge (fused_values legs flows))),
         (unique_counts (U1Charge (fused_values legs flows))).
  split; [now apply compute_fused_charge_degeneracies_ok|].
  rewrite <- (length_fused_values legs flows Hne Hlen) in Hfit |- *.
  rewrite unique_counts_U1Charge, map_count64_small by exact Hfit.
  now rewrite math_sum_of_nat, sum_counts.
Qed.

Lemma degeneracy_conservation_witness :
  exists unique_charges degeneracies,
    compute_fused_charge_degeneracies
      (map U1Charge [[0; 1]; [0; 1; 2]; [0; 1; -1; 1]]%Z) [true; true; false] =
      Ok (unique_charges, degeneracies) /\
    math_sum degeneracies =
    Z.of_nat (num_positions [[0; 1]; [0; 1; 2]; [0; 1; -1; 1]]%Z).
Proof.
  apply (degeneracy_conservation [[0; 1]; [0; 1; 2]; [0; 1; -1; 1]]%Z
           [true; true; false]).
  - discriminate.
  - reflexivity.
  - simpl. lia.
Defined.

(** The claim C3 as stated fails where a 64-bit degeneracy wraps around:
    eight legs of 256 equal charges have [256^8 = 2^64] positions, all of
    the same fused charge, and the one degeneracy that the code returns
    is 0. *)
Lemma degeneracy_sum_wraps :
  compute_fused_charge_degeneracies
    (map U1Charge (repeat (repeat 0%Z 256) 8)) (repeat true 8) =
    Ok (mk [0%Z] [0], [0%Z]) /\
  Z.of_nat (num_positions (repeat (repeat 0%Z 256) 8)) =
    18446744073709551616%Z.
Proof.
  split; [vm_compute; reflexivity|].
  rewrite num_positions_Z. vm_compute. reflexivity.
Qed.

(** ** The number of non-zero elements *)

Lemma len_U1Charge (v : list Z) : len (U1Charge v) = length v.
Proof. unfold len, U1Charge, np_unique. simpl. apply length_map. Qed.

Lemma existsb_empty_leg (legs : list (list Z)) :
  existsb (fun c => len c =? 0) (map U1Charge legs) = true <-> In [] legs.
Proof.
  rewrite existsb_exists. split.
  - intros (c & Hc & Hz). apply in_map_iff in Hc. destruct Hc as (v & <- & Hv).
    rewrite len_U1Charge in Hz. apply Nat.eqb_eq in Hz.
    destruct v; [exact Hv|discriminate].
  - intros H. exists (U1Charge []). split; [|reflexivity].
    apply in_map_iff. now exists [].
Qed.

Lemma num_positions_zero (legs : list (list Z)) :
  num_positions legs = 0 <-> In [] legs.
Proof.
  unfold num_positions. induction legs as [|v vs IH]; simpl.
  - split; [discriminate|intros []].
  - rewrite Nat.eq_mul_0, IH. split.
    + intros [H|H]; [left; now apply length_zero_iff_nil|now right].
    + intros [H|H]; [left; now subst|now right].
Qed.

Lemma compute_num_nonzero_ok (legs : list (list Z)) (flows : list bool) :
  legs <> [] -> length flows = length legs ->
  compute_num_nonzero (map U1Charge legs) flows =
  Ok (count64 (count_occ Z.eq_dec (fused_values legs flows) 0%Z)).
Proof.
  intros Hne Hlen. unfold compute_num_nonzero.
  set (F := fused_values legs flows).
  destruct (existsb (fun c => len c =? 0) (map U1Charge legs)) eqn:Hex.
  - apply existsb_empty_leg, num_positions_zero in Hex.
    rewrite <- (length_fused_values legs flows Hne Hlen) in Hex.
    apply length_zero_iff_nil in Hex. fold F in Hex. now rewrite Hex.
  - rewrite compute_fused_charge_degeneracies_ok by assumption. fold F.
    cbn [bind]. rewrite unique_counts_U1Charge.
    unfold eq_identity. rewrite values_unique, values_U1Charge.
    set (U := usort F).
    set (nz := Np.nonzero (map (fun v => (v =? identity_charge)%Z) U)).
    assert (Hnz : forall i, In i nz <-> i < length U /\ nth i U 0%Z = 0%Z).
    { intros i. unfold nz. rewrite nonzero_In, nth_error_map.
      split.
      - intros H. destruct (nth_error U i) as [z|] eqn:E; [|discriminate].
        simpl in H. injection H as H. apply Z.eqb_eq in H.
        unfold identity_charge in H.
        assert (Hi : i < length U) by (apply nth_error_Some; congruence).
        split; [exact Hi|].
        rewrite (nth_error_nth' U 0%Z Hi) in E. congruence.
      - intros [Hi Hz]. rewrite (nth_error_nth' U 0%Z Hi). simpl.
        now rewrite Hz. }
    destruct nz as [|i0 rest] eqn:Enz.
    + simpl. f_equal.
      assert (E : count_occ Z.eq_dec F 0%Z = 0).
      { apply count_occ_not_In. intros Hin.
        assert (HinU : In 0%Z U) by now apply usort_In.
        apply (proj2 (Hnz (index_of 0%Z U))).
        split; [now apply index_of_lt|now apply nth_index_of]. }
      now rewrite E.
    + cbn [length Nat.ltb Nat.leb].
      rewrite map_map.
      rewrite (take_ok _ _ 0%Z).
      2:{ intros i Hi. rewrite length_map. now apply Hnz. }
      cbn [bind map Np.get nth_error]. f_equal.
      destruct (proj1 (Hnz i0) (or_introl eq_refl)) as [Hi Hz].
      rewrite (nth_indep _ 0%Z (count64 (count_occ Z.eq_dec F 0%Z)))
        by now rewrite length_map.
      rewrite (map_nth (fun x => count64 (count_occ Z.eq_dec F x))).
      now rewrite Hz.
Qed.

(** ** Assignment, gathering and reshaping *)

Lemma set_nth_ok {A : Type} (a : list A) (i : nat) (v d : A) :
  i < length a ->
  exists a', set_nth a i v = Ok a' /\ length a' = length a /\
             nth i a' d = v /\ forall k, k <> i -> nth k a' d = nth k a d.
Proof.
  revert i. induction a as [|x a IH]; intros i Hi; [simpl in Hi; lia|].
  destruct i as [|i].
  - exists (v :: a). repeat split. intros [|k] Hk; [congruence|reflexivity].
  - destruct (IH i) as (a' & Hset & Hlen & Hnth & Hother);
      [simpl in Hi; lia|].
    exists (x :: a'). simpl. rewrite Hset. simpl. repeat split.
    + now rewrite Hlen.
    + exact Hnth.
    + intros [|k] Hk; [reflexivity|]. apply Hother. congruence.
Qed.

Lemma put_spec {A : Type} (d : A) (idx : list nat) :
  forall (a vals : list A),
    (forall i, In i idx -> i < length a) ->
    length vals = length idx ->
    exists a', put a idx vals = Ok a' /\ length a' = length a /\
      (NoDup idx -> forall j, j < length idx ->
         nth (nth j idx 0) a' d = nth j vals d) /\
      (forall i, ~ In i idx -> nth i a' d = nth i a d).
Proof.
  induction idx as [|i itl IH]; intros a vals Hin Hlen.
  - exists a. simpl. repeat split. intros _ j Hj. lia.
  - destruct vals as [|v vtl]; [discriminate|].
    destruct (set_nth_ok a i v d (Hin i (or_introl eq_refl)))
      as (a1 & Hset & Hlen1 & Hnth1 & Hother1).
    destruct (IH a1 vtl) as (a' & Hput & Hlen' & HP1 & HP2).
    { intros k Hk. rewrite Hlen1. apply Hin. now right. }
    { simpl in Hlen. lia. }
    exists a'. simpl. rewrite Hset. simpl. rewrite Hput.
    split; [reflexivity|]. split; [congruence|]. split.
    + intros Hnd j Hj. inversion Hnd as [|? ? Hnin Hnd']; subst.
      destruct j as [|j]; simpl.
      * now rewrite HP2.
      * apply HP1; [exact Hnd'|simpl in Hj; lia].
    + intros k Hk. rewrite HP2 by (intros H; apply Hk; now right).
      apply Hother1. intros ->. apply Hk. now left.
Qed.

Lemma reshape_concat {A : Type} (cols : nat) (rows : list (list A)) :
  (forall r, In r rows -> length r = cols) ->
  reshape (concat rows) (length rows) cols = rows.
Proof.
  unfold reshape. induction rows as [|r rows IH]; intros Hlen; [reflexivity|].
  assert (Hr : length r = cols) by (apply Hlen; now left).
  cbn [length concat]. rewrite <- cons_seq, <- seq_shift, map_cons, map_map.
  f_equal.
  - simpl. rewrite firstn_app, Hr, Nat.sub_diag, firstn_O, app_nil_r.
    rewrite <- Hr. apply firstn_all.
  - rewrite <- IH at 2 by (intros r' Hr'; apply Hlen; now right).
    apply map_ext. intros n. f_equal.
    replace (S n * cols) with (length r + n * cols) by (simpl; lia).
    now rewrite skipn_app, Nat.add_comm, Nat.add_sub, skipn_all2, app_nil_l
      by lia.
Qed.

Lemma reshape_outer (h : Z -> Z) (A B : list Z) :
  reshape (map h (outer Z.add A B)) (length A) (length B) =
  map (fun a => map (fun b => h (a + b)%Z) B) A.
Proof.
  replace (map h (outer Z.add A B))
    with (concat (map (fun a => map (fun b => h (a + b)%Z) B) A)).
  - rewrite <- (length_map (fun a => map (fun b => h (a + b)%Z) B) A) at 1.
    apply reshape_concat. intros r Hr. apply in_map_iff in Hr.
    destruct Hr as (a & <- & _). apply length_map.
  - unfold outer. rewrite flat_map_concat_map, concat_map, map_map.
    f_equal. apply map_ext. intros a. now rewrite map_map.
Qed.

Lemma map_nth_seq_gen {A B : Type} (h : A -> B) (d : A) (U : list A) :
  map (fun m => h (nth m U d)) (seq 0 (length U)) = map h U.
Proof.
  induction U as [|x U IH]; [reflexivity|].
  cbn [length]. rewrite <- cons_seq, <- seq_shift, map_cons, map_map.
  simpl. f_equal. exact IH.
Qed.

Lemma nonneg_concat (rows : list (list Z)) :
  concat (map nonneg rows) = nonneg (concat rows).
Proof.
  unfold nonneg. induction rows as [|r rows IH]; [reflexivity|].
  simpl. now rewrite filter_app, IH.
Qed.

Lemma nonneg_kept_index (target reduced F : list Z) :
  map Z.to_nat (nonneg (map (kept_index target reduced) F)) =
  map (fun z => index_of z reduced) (filter (fun z => mem z target) F).
Proof.
  unfold nonneg, kept_index. induction F as [|z F IH]; [reflexivity|].
  simpl. destruct (mem z target); simpl.
  - destruct (Z.leb_spec 0 (Z.of_nat (index_of z reduced))); [|lia].
    simpl. now rewrite Nat2Z.id, IH.
  - exact IH.
Qed.

Lemma keep_kept_index (target reduced F : list Z) :
  map (fun x => (0 <=? x)%Z) (map (kept_index target reduced) F) =
  map (fun z => mem z target) F.
Proof.
  rewrite map_map. apply map_ext. intros z. unfold kept_index.
  destruct (mem z target); [|reflexivity].
  apply Z.leb_le. lia.
Qed.

(** ** The charge reducer *)

Lemma intersect_sorted (U target : list Z) :
  StronglySorted Z.lt U ->
  intersect U target =
  (filter (fun x => mem x target) U,
   map (fun x => index_of x U) (filter (fun x => mem x target) U),
   map (fun x => index_of x target) (filter (fun x => mem x target) U)).
Proof. intros H. unfold intersect. now rewrite (usort_id U H). Qed.

Lemma NoDup_map_index_of (U R : list Z) :
  NoDup R -> (forall x, In x R -> In x U) ->
  NoDup (map (fun x => index_of x U) R).
Proof.
  induction 1 as [|r R Hnin Hnd IH]; intros Hsub; simpl; constructor.
  - intros Hin. apply in_map_iff in Hin. destruct Hin as (x & Heq & Hx).
    apply Hnin. rewrite <- (index_of_inj x r U); auto.
    + apply Hsub. now right.
    + apply Hsub. now left.
  - apply IH. intros x Hx. apply Hsub. now right.
Qed.

Lemma map_to_kept_ok (U target : list Z) :
  NoDup U ->
  let R := filter (fun x => mem x target) U in
  let label_to_unique := map (fun x => index_of x U) R in
  put (repeat (-1)%Z (length U)) label_to_unique
      (map Z.of_nat (seq 0 (length label_to_unique))) =
  Ok (map (kept_index target R) U).
Proof.
  intros HndU R l2u.
  assert (HRU : forall x, In x R -> In x U)
    by (intros x Hx; unfold R in Hx; now apply filter_In in Hx).
  assert (HndR : NoDup R) by now apply NoDup_filter.
  assert (Hnd : NoDup l2u) by now apply NoDup_map_index_of.
  destruct (put_spec (-1)%Z l2u (repeat (-1)%Z (length U))
              (map Z.of_nat (seq 0 (length l2u))))
    as (M & Hput & Hlen & HP1 & HP2).
  { intros i Hi. unfold l2u in Hi. apply in_map_iff in Hi.
    destruct Hi as (x & <- & Hx). rewrite repeat_length.
    apply index_of_lt. now apply HRU. }
  { now rewrite length_map, length_seq. }
  rewrite Hput. f_equal.
  rewrite repeat_length in Hlen.
  apply nth_ext with (d := (-1)%Z) (d' := kept_index target R 0%Z).
  { now rewrite length_map. }
  intros i Hi. rewrite Hlen in Hi. rewrite map_nth.
  set (u := nth i U 0%Z).
  assert (HuU : In u U) by (apply nth_In; exact Hi).
  unfold kept_index. destruct (mem u target) eqn:Hmem.
  - assert (HuR : In u R) by (apply filter_In; split; assumption).
    set (j := index_of u R).
    assert (Hj : j < length l2u)
      by (unfold l2u; rewrite length_map; now apply index_of_lt).
    assert (Hidx : nth j l2u 0 = i).
    { unfold l2u.
      rewrite (nth_indep _ 0 (index_of 0%Z U)) by exact Hj.
      rewrite (map_nth (fun x => index_of x U)).
      unfold j. rewrite nth_index_of by exact HuR.
      unfold u. now apply index_of_nth. }
    rewrite <- Hidx at 1. rewrite (HP1 Hnd j Hj).
    rewrite (nth_indep _ (-1)%Z (Z.of_nat 0))
      by (rewrite length_map, length_seq; exact Hj).
    rewrite map_nth, seq_nth by exact Hj. reflexivity.
  - rewrite HP2.
    + apply nth_repeat.
    + intros Hin. unfold l2u in Hin. apply in_map_iff in Hin.
      destruct Hin as (x & Hx & HxR).
      assert (Hxu : x = u).
      { unfold u. rewrite <- Hx. symmetry. apply nth_index_of. now apply HRU. }
      subst x. unfold R in HxR. apply filter_In in HxR.
      destruct HxR as [_ HxR]. congruence.
Qed.

Lemma gather_kept_index (U target R comb : list Z) :
  (forall z, In z comb -> In z U) ->
  take (map (kept_index target R) U) (map (fun z => index_of z U) comb) =
  Ok (map (kept_index target R) comb).
Proof.
  intros Hsub. rewrite (take_ok _ _ (kept_index target R 0%Z)).
  - f_equal. rewrite map_map. apply map_ext_in. intros z Hz.
    rewrite map_nth. f_equal. apply nth_index_of. now apply Hsub.
  - intros i Hi. apply in_map_iff in Hi. destruct Hi as (z & <- & Hz).
    rewrite length_map. apply index_of_lt. now apply Hsub.
Qed.

Lemma row_labels_ok (h : Z -> Z) (FL FR : list Z) (n : nat) :
  n < length (usort FL) ->
  row_labels (map (fun a => map (fun b => h (a + b)%Z) (usort FR)) (usort FL))
             (U1Charge FR) n =
  Ok (map (fun y => h (nth n (usort FL) 0%Z + y)%Z) FR).
Proof.
  intros Hn. unfold row_labels.
  rewrite (get_ok _ n []) by now rewrite length_map.
  cbn [bind].
  rewrite (nth_indep _ [] ((fun a => map (fun b => h (a + b)%Z) (usort FR)) 0%Z))
    by now rewrite length_map.
  rewrite (map_nth (fun a => map (fun b => h (a + b)%Z) (usort FR))).
  unfold U1Charge, np_unique. cbn [charge_labels snd].
  rewrite (take_ok _ _ (h (nth n (usort FL) 0 + 0)%Z)).
  - f_equal. rewrite map_map. apply map_ext_in. intros y Hy.
    rewrite (map_nth (fun b => h (nth n (usort FL) 0 + b)%Z)).
    do 2 f_equal. apply nth_index_of. now apply usort_In.
  - intros i Hi. apply in_map_iff in Hi. destruct Hi as (y & <- & Hy).
    rewrite length_map. apply index_of_lt. now apply usort_In.
Qed.

Lemma num_unique_U1Charge (v : list Z) :
  num_unique (U1Charge v) = length (usort v).
Proof. reflexivity. Qed.

Lemma dim_U1Charge (v : list Z) : dim (U1Charge v) = length v.
Proof. apply len_U1Charge. Qed.

Lemma gather_by_label {B : Type} (g : Z -> B) (FL : list Z) :
  mapM (Np.get (map g (usort FL))) (charge_labels (U1Charge FL)) =
  Ok (map g FL).
Proof.
  unfold U1Charge, np_unique. cbn [charge_labels snd].
  change (mapM (Np.get (map g (usort FL))))
    with (take (map g (usort FL))).
  destruct FL as [|x0 FL0] eqn:E; [reflexivity|]. rewrite <- E.
  rewrite (take_ok _ _ (g x0)).
  - f_equal. rewrite map_map. apply map_ext_in. intros y Hy.
    rewrite map_nth. f_equal. apply nth_index_of. now apply usort_In.
  - intros i Hi. apply in_map_iff in Hi. destruct Hi as (y & <- & Hy).
    rewrite length_map. apply index_of_lt. now apply usort_In.
Qed.

Lemma per_label_rows {B : Type} (h : Z -> Z) (post : list Z -> B)
  (FL FR : list Z) :
  mapM (fun n =>
      temp_label <-
        row_labels
          (map (fun a => map (fun b => h (a + b)%Z) (usort FR)) (usort FL))
          (U1Charge FR) n ;;
      Ok (post temp_label))
    (seq 0 (num_unique (U1Charge FL))) =
  Ok (map (fun a => post (map (fun y => h (a + y)%Z) FR)) (usort FL)).
Proof.
  rewrite num_unique_U1Charge.
  rewrite <- (map_nth_seq_gen
    (fun a => post (map (fun y => h (a + y)%Z) FR)) 0%Z (usort FL)).
  apply mapM_ok. intros n Hn. apply in_seq in Hn.
  rewrite row_labels_ok by lia. reflexivity.
Qed.

Lemma nonzero_from_shift (s : nat) (mask : list bool) :
  Np.nonzero_from s mask = map (Nat.add s) (Np.nonzero mask).
Proof.
  unfold Np.nonzero. revert s. induction mask as [|b tl IH]; intros s;
    [reflexivity|].
  assert (E : map (Nat.add s) (map (Nat.add 1) (Np.nonzero_from 0 tl)) =
              map (Nat.add (S s)) (Np.nonzero_from 0 tl))
    by (rewrite map_map; apply map_ext; intros x; lia).
  destruct b; cbn [Np.nonzero_from map]; rewrite (IH (S s)), (IH 1), E;
    rewrite ?Nat.add_0_r; reflexivity.
Qed.

Lemma nonzero_from_app (s : nat) (m1 m2 : list bool) :
  Np.nonzero_from s (m1 ++ m2) =
  Np.nonzero_from s m1 ++ Np.nonzero_from (s + length m1) m2.
Proof.
  revert s. induction m1 as [|b m1 IH]; intros s; simpl.
  - now rewrite Nat.add_0_r.
  - rewrite IH. replace (S s + length m1) with (s + S (length m1)) by lia.
    now destruct b.
Qed.

Lemma nonzero_outer_from (p : Z -> bool) (FL FR : list Z) (s : nat) :
  concat (map (fun n =>
      map (Nat.add ((s + n) * length FR))
          (Np.nonzero (map p (map (Z.add (nth n FL 0%Z)) FR))))
    (seq 0 (length FL))) =
  Np.nonzero_from (s * length FR) (map p (outer Z.add FL FR)).
Proof.
  revert s. induction FL as [|x FL IH]; intros s; [reflexivity|].
  cbn [length]. rewrite <- cons_seq, <- seq_shift, map_cons, (map_map S).
  cbn [concat]. rewrite outer_cons, map_app, nonzero_from_app.
  rewrite !length_map. f_equal.
  - rewrite Nat.add_0_r. cbn [nth]. symmetry. apply nonzero_from_shift.
  - replace (s * length FR + length FR) with (S s * length FR) by (simpl; lia).
    rewrite <- IH. f_equal. apply map_ext. intros n.
    cbn [nth]. now replace (s + S n) with (S s + n) by lia.
Qed.

Lemma nonzero_outer (p : Z -> bool) (FL FR : list Z) :
  concat (map (fun n =>
      map (Nat.add (n * length FR))
          (Np.nonzero (map p (map (Z.add (nth n FL 0%Z)) FR))))
    (seq 0 (length FL))) =
  Np.nonzero (map p (outer Z.add FL FR)).
Proof. exact (nonzero_outer_from p FL FR 0). Qed.

Lemma concatenate_ok {A : Type} (ls : list (list A)) :
  ls <> [] -> Np.concatenate ls = Ok (concat ls).
Proof. destruct ls; [congruence|reflexivity]. Qed.

Lemma mask_select_filter {A : Type} (p : A -> bool) (l : list A) :
  Np.mask_select l (map p l) = filter p l.
Proof.
  rewrite <- (map_id l) at 1. rewrite mask_select_map. apply map_id.
Qed.

Lemma concat_rows (h : Z -> Z) (FL FR : list Z) :
  concat (map (fun x => map (fun y => h (x + y)%Z) FR) FL) =
  map h (outer Z.add FL FR).
Proof.
  unfold outer. rewrite flat_map_concat_map, concat_map, map_map.
  f_equal. apply map_ext. intros a. now rewrite map_map.
Qed.

Lemma usort_outer_usort_plain (FL FR : list Z) :
  usort (outer Z.add (usort FL) (usort FR)) = usort (outer Z.add FL FR).
Proof.
  pose proof (usort_outer_usort true FL FR) as H.
  now rewrite !map_sgn_true in H.
Qed.

Lemma reduce_single_ok (v : list Z) (f : bool) (target : list Z) (s : Z) :
  reduce (dual f (U1Charge v)) target s =
  (reduced_of target (map (sgn f) v),
   map (fun n => Z.to_nat (s * Z.of_nat n))
       (Np.nonzero (map (fun z => mem z target) (map (sgn f) v)))).
Proof.
  unfold reduce. rewrite dual_U1Charge, values_U1Charge.
  rewrite (intersect_sorted _ target (usort_sorted _)).
  now rewrite mask_select_filter.
Qed.

Lemma reduce_locations_none_ok (dims : list nat) (p : nat)
  (target R FL FR : list Z) :
  FL <> [] ->
  reduce_locations dims p (U1Charge FL) (U1Charge FR)
    (map (fun a => map (fun b => kept_index target R (a + b)%Z) (usort FR))
         (usort FL)) None =
  Ok (Np.nonzero (map (fun z => mem z target) (outer Z.add FL FR))).
Proof.
  intros Hne. unfold reduce_locations.
  rewrite (per_label_rows (kept_index target R)
             (fun t => Np.nonzero (map (fun x => (0 <=? x)%Z) t))).
  cbn [bind]. rewrite !dim_U1Charge.
  rewrite (mapM_ok _ (fun n =>
      map (Nat.add (n * length FR))
          (Np.nonzero (map (fun z => mem z target)
                           (map (Z.add (nth n FL 0%Z)) FR))))).
  - cbn [bind]. rewrite concatenate_ok.
    + f_equal. apply nonzero_outer.
    + destruct FL; [congruence|]. simpl. congruence.
  - intros n Hn. apply in_seq in Hn.
    unfold U1Charge, np_unique. cbn [charge_labels snd].
    rewrite (get_ok _ n 0) by (rewrite length_map; lia). cbn [bind].
    rewrite (nth_indep _ 0 (index_of 0%Z (usort FL)))
      by (rewrite length_map; lia).
    rewrite (map_nth (fun v => index_of v (usort FL))).
    assert (Hin : In (nth n FL 0%Z) (usort FL))
      by (apply usort_In, nth_In; lia).
    rewrite (get_ok _ _ []) by (rewrite length_map; now apply index_of_lt).
    cbn [bind]. f_equal.
    rewrite (nth_indep _ []
      ((fun a => Np.nonzero (map (fun x => (0 <=? x)%Z)
                 (map (fun y => kept_index target R (a + y)%Z) FR))) 0%Z))
      by (rewrite length_map; now apply index_of_lt).
    rewrite (map_nth (fun a => Np.nonzero (map (fun x => (0 <=? x)%Z)
                 (map (fun y => kept_index target R (a + y)%Z) FR)))).
    rewrite nth_index_of by exact Hin.
    f_equal. f_equal.
    rewrite <- (map_map (Z.add (nth n FL 0%Z)) (kept_index target R)).
    apply keep_kept_index.
Qed.

Lemma new_comb_labels_ok (h : Z -> Z) (FL FR : list Z) :
  reshape (map h (outer Z.add (usort FL) (usort FR)))
          (num_unique (U1Charge FL)) (num_unique (U1Charge FR)) =
  map (fun a => map (fun b => h (a + b)%Z) (usort FR)) (usort FL).
Proof. apply reshape_outer. Qed.

Lemma fused_values_nonempty (legs : list (list Z)) (flows : list bool) :
  legs <> [] -> length flows = length legs -> ~ In [] legs ->
  fused_values legs flows <> [].
Proof.
  intros Hne Hlen Hnz E. apply Hnz, num_positions_zero.
  rewrite <- (length_fused_values legs flows Hne Hlen). now rewrite E.
Qed.

Lemma reduce_charges_multi (legs : list (list Z)) (flows : list bool)
  (target : list Z) :
  length flows = length legs -> 2 <= length legs -> ~ In [] legs ->
  exists p,
    0 < p < length legs /\
    forall (return_locations : bool) (strides : option (list Z)),
      let F := fused_values legs flows in
      let FL := fused_values (firstn p legs) (firstn p flows) in
      let FR := fused_values (skipn p legs) (skipn p flows) in
      let R := filter (fun z => mem z target) (usort F) in
      reduce_charges (map U1Charge legs) flows target return_locations
        strides =
      if return_locations then
        reduced_locs <-
          reduce_locations (map len (map U1Charge legs)) p
            (U1Charge FL) (U1Charge FR)
            (map (fun a => map (fun b => kept_index target R (a + b)%Z)
                               (usort FR)) (usort FL))
            strides ;;
        Ok (reduced_of target F, Some reduced_locs)
      else Ok (reduced_of target F, None).
Proof.
  intros Hlen H2 Hnz.
  assert (Hne : legs <> []) by (intros E; rewrite E in H2; simpl in H2; lia).
  set (dims := map Z.of_nat (map len (map U1Charge legs))).
  assert (Hdims : 2 <= length dims) by (unfold dims; now rewrite !length_map).
  destruct (find_best_partition_spec dims Hdims) as (p & Hp & Hrange & _).
  unfold dims in Hrange. rewrite !length_map in Hrange.
  exists p. split; [lia|]. intros rl strides. cbv zeta.
  unfold reduce_charges. rewrite length_map.
  destruct (Nat.eqb_spec (length legs) 1) as [H1|_]; [lia|].
  fold dims. rewrite Hp. cbn [bind].
  rewrite firstn_map, skipn_map.
  assert (HneL : firstn p legs <> []).
  { intros E. apply (f_equal (@length _)) in E.
    rewrite length_firstn in E. simpl in E. lia. }
  assert (HneR : skipn p legs <> []).
  { intros E. apply (f_equal (@length _)) in E.
    rewrite length_skipn in E. simpl in E. lia. }
  assert (HlenL : length (firstn p flows) = length (firstn p legs))
    by (rewrite !length_firstn; lia).
  assert (HlenR : length (skipn p flows) = length (skipn p legs))
    by (rewrite !length_skipn; lia).
  rewrite (fuse_charges_ok _ _ HneL HlenL). cbn [bind].
  rewrite (fuse_charges_ok _ _ HneR HlenR). cbn [bind].
  rewrite (fused_values_split legs flows p Hlen) by lia.
  set (FL := fused_values (firstn p legs) (firstn p flows)).
  set (FR := fused_values (skipn p legs) (skipn p flows)).
  assert (HFL : FL <> []).
  { apply fused_values_nonempty; try assumption.
    intros Hin. apply Hnz. rewrite <- (firstn_skipn p legs).
    apply in_or_app. now left. }
  change (unique_charges (U1Charge FL)) with (usort FL).
  change (unique_charges (U1Charge FR)) with (usort FR).
  unfold fuse_ndarray_charges, np_unique.
  set (comb := outer Z.add (usort FL) (usort FR)).
  rewrite (intersect_sorted _ target (usort_sorted comb)).
  cbv beta iota zeta.
  pose proof (map_to_kept_ok (usort comb) target (usort_NoDup comb)) as HM.
  cbv zeta in HM. rewrite HM. clear HM. cbn [bind].
  assert (HR : filter (fun x => mem x target) (usort comb) =
               filter (fun z => mem z target) (usort (outer Z.add FL FR))).
  { unfold comb. now rewrite usort_outer_usort_plain. }
  rewrite HR.
  set (R := filter (fun z => mem z target) (usort (outer Z.add FL FR))).
  rewrite (gather_kept_index (usort comb) target R comb)
    by (intros z Hz; now apply usort_In).
  cbn [bind].
  rewrite (new_comb_labels_ok (kept_index target R) FL FR
           : reshape (map (kept_index target R) comb) _ _ = _).
  rewrite (per_label_rows (kept_index target R) nonneg). cbn [bind].
  rewrite (gather_by_label
             (fun a => nonneg (map (fun y => kept_index target R (a + y)%Z) FR))).
  cbn [bind]. rewrite concatenate_ok
    by (destruct FL; [congruence|simpl; congruence]).
  cbn [bind].
  assert (Hobj :
    mk R (map Z.to_nat
            (concat (map (fun a => nonneg
               (map (fun y => kept_index target R (a + y)%Z) FR)) FL))) =
    reduced_of target (outer Z.add FL FR)).
  { unfold reduced_of. cbv zeta. fold R. f_equal.
    rewrite <- (map_map
      (fun a => map (fun y => kept_index target R (a + y)%Z) FR) nonneg).
    rewrite nonneg_concat, concat_rows. apply nonneg_kept_index. }
  rewrite Hobj. reflexivity.
Qed.

Lemma reduce_charges_ok (legs : list (list Z)) (flows : list bool)
  (target : list Z) (return_locations : bool) :
  legs <> [] -> length flows = length legs -> ~ In [] legs ->
  reduce_charges (map U1Charge legs) flows target return_locations None =
  Ok (reduced_of target (fused_values legs flows),
      if return_locations
      then Some (Np.nonzero (map (fun z => mem z target)
                                 (fused_values legs flows)))
      else None).
Proof.
  intros Hne Hlen Hnz.
  destruct (Nat.eq_dec (length legs) 1) as [H1|H1].
  - unfold reduce_charges. rewrite length_map, H1. cbn [Nat.eqb].
    destruct legs as [|v [|? ?]]; try discriminate.
    destruct flows as [|f [|? ?]]; try discriminate.
    cbn [map Np.get nth_error bind].
    rewrite reduce_single_ok. cbn [fused_values fused_from].
    destruct return_locations; [|reflexivity].
    do 3 f_equal. rewrite <- (map_id (Np.nonzero _)) at 2.
    apply map_ext. intros n. lia.
  - assert (H2 : 2 <= length legs)
      by (destruct legs as [|? [|? ?]]; simpl in *; try congruence; lia).
    destruct (reduce_charges_multi legs flows target Hlen H2 Hnz)
      as (p & Hp & Hred).
    rewrite Hred. cbv zeta.
    destruct return_locations; [|reflexivity].
    assert (HneL : firstn p legs <> []).
    { intros E. apply (f_equal (@length _)) in E.
      rewrite length_firstn in E. simpl in E. lia. }
    assert (HlenL : length (firstn p flows) = length (firstn p legs))
      by (rewrite !length_firstn; lia).
    rewrite reduce_locations_none_ok.
    + cbn [bind]. now rewrite (fused_values_split legs flows p Hlen Hp).
    + apply fused_values_nonempty; try assumption.
      intros Hin. apply Hnz. rewrite <- (firstn_skipn p legs).
      apply in_or_app. now left.
Qed.

(** ** The row masks of the blocks *)

Lemma set2_spec (m : list (list bool)) (r c : nat) :
  r < length m -> c < length (nth r m []) ->
  exists m', set2 m r c = Ok m' /\ length m' = length m /\
    (forall r', length (nth r' m' []) = length (nth r' m [])) /\
    (forall r' c', nth c' (nth r' m' []) false =
                   nth c' (nth r' m []) false || ((r =? r') && (c =? c'))).
Proof.
  intros Hr Hc. unfold set2. rewrite (get_ok m r [] Hr). cbn [bind].
  destruct (set_nth_ok (nth r m []) c true false Hc)
    as (row' & Hset & Hlen & Hnth & Hother).
  rewrite Hset. cbn [bind].
  destruct (set_nth_ok m r row' [] Hr) as (m' & Hset' & Hlen' & Hnth' & Hother').
  exists m'. split; [exact Hset'|]. split; [exact Hlen'|]. split.
  - intros r'. destruct (Nat.eq_dec r' r) as [->|Hne].
    + now rewrite Hnth'.
    + now rewrite Hother'.
  - intros r' c'. destruct (Nat.eqb_spec r r') as [<-|Hne].
    + rewrite Hnth'. destruct (Nat.eqb_spec c c') as [<-|Hnc].
      * rewrite Hnth. now rewrite orb_true_r.
      * rewrite Hother by congruence. now rewrite orb_false_r.
    + rewrite Hother' by congruence. now rewrite orb_false_r.
Qed.

Lemma put2_spec (rc : list (nat * nat)) :
  forall m : list (list bool),
    (forall r c, In (r, c) rc -> r < length m /\ c < length (nth r m [])) ->
    exists m', put2 m rc = Ok m' /\ length m' = length m /\
      (forall r, length (nth r m' []) = length (nth r m [])) /\
      (forall r c, nth c (nth r m' []) false =
                   nth c (nth r m []) false ||
                   existsb (fun x => (fst x =? r) && (snd x =? c)) rc).
Proof.
  induction rc as [|[r0 c0] rc IH]; intros m Hin.
  - exists m. simpl. repeat split. intros r c. now rewrite orb_false_r.
  - destruct (Hin r0 c0 (or_introl eq_refl)) as [Hr Hc].
    destruct (set2_spec m r0 c0 Hr Hc) as (m1 & Hset & Hlen1 & Hrow1 & Hval1).
    destruct (IH m1) as (m' & Hput & Hlen' & Hrow' & Hval').
    { intros r c Hrc. rewrite Hlen1, Hrow1. apply Hin. now right. }
    exists m'. simpl. rewrite Hset. cbn [bind].
    split; [exact Hput|]. split; [congruence|]. split.
    + intros r. now rewrite Hrow', Hrow1.
    + intros r c. rewrite Hval', Hval1. now rewrite orb_assoc.
Qed.

Lemma existsb_combine_seq (labels : list nat) (n i s : nat) :
  existsb (fun x => (fst x =? n) && (snd x =? s + i))
          (combine labels (seq s (length labels))) =
  match nth_error labels i with
  | Some l => l =? n
  | None => false
  end.
Proof.
  revert i s. induction labels as [|l labels IH]; intros i s.
  - now destruct i.
  - cbn [length seq combine existsb fst snd].
    destruct i as [|i].
    + rewrite Nat.add_0_r, Nat.eqb_refl, andb_true_r. cbn [nth_error].
      destruct (l =? n); [reflexivity|]. simpl.
      apply not_true_iff_false. intros H. apply existsb_exists in H.
      destruct H as ([l' j] & Hin & Hj). apply in_combine_r in Hin.
      apply in_seq in Hin. simpl in Hj. apply andb_true_iff in Hj.
      destruct Hj as [_ Hj]. apply Nat.eqb_eq in Hj. lia.
    + destruct (Nat.eqb_spec s (s + S i)); [lia|].
      rewrite andb_false_r. cbn [orb nth_error].
      replace (s + S i) with (S s + i) by lia. apply IH.
Qed.

Lemma block_row_locs_ok (num_blocks : nat) (qnums : list Z) (labels : list nat) :
  num_blocks <> 0 ->
  (forall l, In l labels -> l < num_blocks) ->
  block_row_locs num_blocks (mk qnums labels) =
  Ok (map (fun n => map (fun l => l =? n) labels) (seq 0 num_blocks)).
Proof.
  intros Hnb Hlab. unfold block_row_locs, dim. cbn [charge_labels].
  destruct (num_blocks <? 15).
  - rewrite concatenate_ok
      by (destruct num_blocks; [congruence|simpl; congruence]).
    cbn [bind]. f_equal.
    pose proof (reshape_concat (length labels)
                  (map (fun n => map (fun l => l =? n) labels)
                       (seq 0 num_blocks))) as H.
    rewrite length_map, length_seq in H. apply H.
    intros r Hr. apply in_map_iff in Hr.
    destruct Hr as (n & <- & _). apply length_map.
  - destruct (put2_spec (combine labels (seq 0 (length labels)))
                (repeat (repeat false (length labels)) num_blocks))
      as (m & Hput & Hlen & Hrow & Hval).
    { intros r c Hrc. pose proof (in_combine_l _ _ _ _ Hrc) as Hr.
      apply in_combine_r in Hrc. apply in_seq in Hrc.
      rewrite repeat_length. split; [now apply Hlab|].
      rewrite nth_repeat_lt by now apply Hlab.
      rewrite repeat_length. lia. }
    rewrite Hput. f_equal. rewrite repeat_length in Hlen.
    apply nth_ext with (d := []) (d' := map (fun l => l =? 0) labels).
    { now rewrite length_map, length_seq. }
    intros n Hn. rewrite Hlen in Hn.
    pose proof (map_nth (fun n => map (fun l => l =? n) labels)
                  (seq 0 num_blocks) 0 n) as E.
    cbv beta in E. rewrite E. clear E.
    rewrite seq_nth by exact Hn. cbn [Nat.add].
    assert (Hrown : length (nth n m []) = length labels).
    { rewrite Hrow, nth_repeat_lt by exact Hn. apply repeat_length. }
    apply nth_ext with (d := false) (d' := false).
    { now rewrite length_map. }
    intros i Hi. rewrite Hrown in Hi. rewrite Hval.
    rewrite nth_repeat_lt by exact Hn.
    rewrite nth_repeat, orb_false_l.
    pose proof (existsb_combine_seq labels n i 0) as E.
    cbn [Nat.add] in E. rewrite E. clear E.
    rewrite (nth_error_nth' labels 0 Hi).
    rewrite (nth_indep _ false (0 =? n)) by now rewrite length_map.
    pose proof (map_nth (fun l => l =? n) labels 0 i) as E.
    cbv beta in E. now rewrite E.
Qed.

(** ** The diagonal block locator *)







Lemma map_add_seq (a s d : nat) : map (Nat.add a) (seq s d) = seq (a + s) d.
Proof.
  revert s. induction d as [|d IH]; intros s; [reflexivity|].
  simpl. rewrite IH. f_equal. f_equal. lia.
Qed.

















(** ** Tensors of equal charges *)












(** ** Tensors whose positions fit [uint32] *)









Lemma num_nonzero_exact (legs : list (list Z)) (flows : list bool) :
  legs <> [] -> length flows = length legs ->
  (Z.of_nat (num_conserving legs flows) < 9223372036854775808)%Z ->
  compute_num_nonzero (map U1Charge legs) flows =
  Ok (Z.of_nat (num_conserving legs flows)).
Proof.
  intros Hne Hlen Hfit. rewrite (compute_num_nonzero_ok legs flows Hne Hlen).
  f_equal. now apply count64_small.
Qed.










(** ** Degenerate partitions *)

Lemma find_blocks_degenerate (legs : list (list Z)) (flows : list bool) :
  legs <> [] -> length flows = length legs ->
  let num_nonzero :=
    count64 (count_occ Z.eq_dec (fused_values legs flows) 0%Z) in
  compute_num_nonzero (map U1Charge legs) flows = Ok num_nonzero /\
  _find_diagonal_sparse_blocks (map U1Charge legs) flows 0 =
    Ok ([seq 0 (Z.to_nat num_nonzero)], mk [0%Z] [],
        [[1%Z]; [num_nonzero]]) /\
  _find_diagonal_sparse_blocks (map U1Charge legs) flows (length legs) =
    Ok ([seq 0 (Z.to_nat num_nonzero)], mk [0%Z] [],
        [[num_nonzero]; [1%Z]]).
Proof.
  intros Hne Hlen num_nonzero.
  pose proof (compute_num_nonzero_ok legs flows Hne Hlen) as Hnz.
  fold num_nonzero in Hnz.
  assert (Hpos : 0 < length legs) by (destruct legs; [congruence|simpl; lia]).
  split; [exact Hnz|]. unfold _find_diagonal_sparse_blocks.
  rewrite length_map, Hlen.
  rewrite (get_ok _ 0 (U1Charge [])) by (rewrite length_map; lia).
  cbn [bind]. rewrite Hnz. cbn [bind]. split.
  - cbn [Nat.eqb orb]. destruct (length legs); [lia|reflexivity].
  - rewrite Nat.eqb_refl, orb_true_r. reflexivity.
Qed.

(** C9, as the code has it.  For a non-empty list of legs and as many
    flows, [_find_diagonal_sparse_blocks] with partition 0 returns one
    block whose positions are all the positions below
    [compute_num_nonzero(charges, flows)], with
    [block_dims == [[1], [num_nonzero]]]; with the partition at the number
    of legs the two rows of [block_dims] are flipped. *)
Theorem degenerate_partition_block (legs : list (list Z)) (flows : list bool) :
  legs <> [] -> length flows = length legs ->
  exists num_nonzero block_qnums,
    compute_num_nonzero (map U1Charge legs) flows = Ok num_nonzero /\
    _find_diagonal_sparse_blocks (map U1Charge legs) flows 0 =
      Ok ([seq 0 (Z.to_nat num_nonzero)], block_qnums,
          [[1%Z]; [num_nonzero]]) /\
    _find_diagonal_sparse_blocks (map U1Charge legs) flows (length legs) =
      Ok ([seq 0 (Z.to_nat num_nonzero)], block_qnums,
          [[num_nonzero]; [1%Z]]).
Proof.
  intros Hne Hlen.
  exists (count64 (count_occ Z.eq_dec (fused_values legs flows) 0%Z)),
         (mk [0%Z] []).
  exact (find_blocks_degenerate legs flows Hne Hlen).
Qed.

Lemma degenerate_partition_block_witness :
  exists num_nonzero block_qnums,
    compute_num_nonzero (map U1Charge [[0; 1]; [0; 1; 2]]%Z) [true; false] =
      Ok num_nonzero /\
    _find_diagonal_sparse_blocks (map U1Charge [[0; 1]; [0; 1; 2]]%Z)
      [true; false] 0 =
      Ok ([seq 0 (Z.to_nat num_nonzero)], block_qnums,
          [[1%Z]; [num_nonzero]]) /\
    _find_diagonal_sparse_blocks (map U1Charge [[0; 1]; [0; 1; 2]]%Z)
      [true; false] (length [[0; 1]; [0; 1; 2]]%Z) =
      Ok ([seq 0 (Z.to_nat num_nonzero)], block_qnums,
          [[num_nonzero]; [1%Z]]).
Proof.
  apply (degenerate_partition_block [[0; 1]; [0; 1; 2]]%Z [true; false]).
  - discriminate.
  - reflexivity.
Defined.

(** C9 as stated fails on the empty list of legs: there is no first
    charge to take the number of symmetries from, and the call raises
    [IndexError] instead of returning one block. *)
Lemma degenerate_partition_no_legs :
  _find_diagonal_sparse_blocks [] [] 0 = Err IndexError /\
  forall r, _find_diagonal_sparse_blocks [] [] 0 <> Ok r.
Proof. split; [reflexivity|]. intros r. discriminate. Qed.

(** ** The sparse lookup on the input of the specification *)

(** C8, as the code has it.  On [charges = [[0,1,0,1]]], [flows = [True]],
    [target_charges = [0]], [compute_sparse_lookup] returns the lookup
    [[0, 0]]: one entry, the label of the target charge among the unique
    fused charges [[0, 1]], for each of the flat positions 0 and 2 whose
    fused charge is a target charge, in flat order. *)
Theorem sparse_lookup_example :
  compute_sparse_lookup [U1Charge [0; 1; 0; 1]%Z] [true] (U1Charge [0%Z]) =
    Ok ([0; 0]%Z, mk [0; 1]%Z [0; 1], [0]) /\
  Np.nonzero (map (fun z => mem z [0%Z])
                  (fused_values [[0; 1; 0; 1]%Z] [true])) = [0; 2].
Proof. split; reflexivity. Qed.

(** C8 as stated fails: the lookup that is returned holds labels of unique
    charges, not flat positions, and is not [[0, 2]]. *)
Lemma sparse_lookup_not_positions :
  ~ (exists unique_charges label_to_unique,
       compute_sparse_lookup [U1Charge [0; 1; 0; 1]%Z] [true]
         (U1Charge [0%Z]) =
       Ok ([0; 2]%Z, unique_charges, label_to_unique)).
Proof.
  intros (u & l & H).
  assert (E : compute_sparse_lookup [U1Charge [0; 1; 0; 1]%Z] [true]
                (U1Charge [0%Z]) = Ok ([0; 0]%Z, mk [0; 1]%Z [0; 1], [0]))
    by reflexivity.
  rewrite E in H. discriminate.
Qed.

(** ** Locations under caller-supplied strides *)

Lemma length_fold_outer (tl : list (list nat)) (a : list nat) :
  length (fold_left (outer add32) tl a) =
  length a * fold_right Nat.mul 1 (map (@length nat) tl).
Proof.
  revert a. induction tl as [|b tl IH]; intros a; simpl; [lia|].
  rewrite IH, length_outer. lia.
Qed.

Lemma fuse_ndarrays_ok (arrays : list (list nat)) :
  arrays <> [] ->
  exists r, fuse_ndarrays arrays = Ok r /\
            length r = fold_right Nat.mul 1 (map (@length nat) arrays).
Proof.
  destruct arrays as [|a tl]; [congruence|]. intros _.
  exists (fold_left (outer add32) tl a). split; [reflexivity|].
  apply length_fold_outer.
Qed.

Lemma fuse_stride_arrays_ok (dims : list nat) (strides : list Z) :
  dims <> [] -> length strides = length dims ->
  (forall x, In x strides -> x <> 0%Z) ->
  exists a, fuse_stride_arrays dims strides = Ok a /\
            length a = fold_right Nat.mul 1 dims.
Proof.
  intros Hne Hlen Hpos. unfold fuse_stride_arrays.
  rewrite (mapM_ok _ (fun n => arange_step (nth n dims 0) (nth n strides 0%Z))).
  - cbn [bind].
    destruct (fuse_ndarrays_ok
                (map (fun n => arange_step (nth n dims 0) (nth n strides 0%Z))
                     (seq 0 (length dims)))) as (r & Hr & Hlenr).
    { destruct dims; [congruence|]. simpl. congruence. }
    exists r. split; [exact Hr|]. rewrite Hlenr. f_equal.
    rewrite map_map.
    rewrite (map_ext _ (fun n => nth n dims 0))
      by (intros n; unfold arange_step; now rewrite length_map, length_seq).
    rewrite (map_nth_seq_gen (fun x : nat => x) 0 dims). apply map_id.
  - intros n Hn. apply in_seq in Hn.
    rewrite (get_ok dims n 0) by lia. cbn [bind].
    rewrite (get_ok strides n 0%Z) by lia. cbn [bind].
    destruct (Z.eqb_spec (nth n strides 0%Z) 0) as [E|_]; [|reflexivity].
    exfalso. apply (Hpos (nth n strides 0%Z)); [|exact E].
    apply nth_In. lia.
Qed.

Lemma mask_select_none {A : Type} (l : list A) (mask : list bool) :
  (forall b, In b mask -> b = false) -> Np.mask_select l mask = [].
Proof.
  revert mask. induction l as [|x l IH]; intros mask H; [reflexivity|].
  destruct mask as [|b mask]; [reflexivity|]. simpl.
  rewrite (H b (or_introl eq_refl)). apply IH.
  intros b' Hb'. apply H. now right.
Qed.

Lemma concat_all_nil {A B : Type} (l : list B) :
  concat (map (fun _ : B => @nil A) l) = [].
Proof. induction l as [|x l IH]; [reflexivity|]. exact IH. Qed.

Lemma nth_const_nil {A B : Type} (l : list B) (i : nat) :
  nth i (map (fun _ : B => @nil A) l) [] = [].
Proof.
  revert i. induction l as [|x l IH]; intros [|i]; simpl; auto.
Qed.

Lemma reduce_locations_some_none (dims : list nat) (strides : list Z) (p : nat)
  (target R FL FR : list Z) (row_pos col_pos : list nat) :
  fuse_stride_arrays (firstn p dims) (firstn p strides) = Ok row_pos ->
  fuse_stride_arrays (skipn p dims) (skipn p strides) = Ok col_pos ->
  length row_pos = length FL -> length col_pos = length FR ->
  FL <> [] ->
  (forall z, In z (outer Z.add FL FR) -> mem z target = false) ->
  reduce_locations dims p (U1Charge FL) (U1Charge FR)
    (map (fun a => map (fun b => kept_index target R (a + b)%Z) (usort FR))
         (usort FL)) (Some strides) = Ok [].
Proof.
  intros Hrow Hcol Hlr Hlc Hne Hnone. unfold reduce_locations.
  rewrite Hrow, Hcol. cbn [bind].
  rewrite (mapM_ok _ (fun _ : nat => @nil nat)).
  - cbn [bind]. rewrite (mapM_ok _ (fun _ : nat => @nil nat)).
    + cbn [bind]. rewrite concatenate_ok.
      * now rewrite concat_all_nil.
      * rewrite dim_U1Charge. destruct FL; [congruence|]. simpl. congruence.
    + intros n Hn. apply in_seq in Hn. rewrite dim_U1Charge in Hn.
      rewrite (get_ok row_pos n 0) by lia. cbn [bind].
      unfold U1Charge, np_unique. cbn [charge_labels snd].
      rewrite (get_ok _ n 0) by (rewrite length_map; lia). cbn [bind].
      rewrite (nth_indep _ 0 (index_of 0%Z (usort FL)))
        by (rewrite length_map; lia).
      rewrite (map_nth (fun v => index_of v (usort FL))).
      assert (Hl : index_of (nth n FL 0%Z) (usort FL) < length (usort FL))
        by (apply index_of_lt, usort_In, nth_In; lia).
      rewrite (get_ok _ _ [])
        by (rewrite length_map, length_seq; exact Hl).
      cbn [bind].
      rewrite nth_const_nil. reflexivity.
  - intros n Hn. apply in_seq in Hn. rewrite num_unique_U1Charge in Hn.
    rewrite row_labels_ok by lia. cbn [bind].
    rewrite select_ok by now rewrite !length_map.
    f_equal. apply mask_select_none. intros b Hb.
    apply in_map_iff in Hb. destruct Hb as (x & <- & Hx).
    apply in_map_iff in Hx. destruct Hx as (y & <- & Hy).
    unfold kept_index.
    rewrite Hnone; [reflexivity|].
    apply In_outer_add. exists (nth n (usort FL) 0%Z), y.
    repeat split; [|exact Hy].
    apply usort_In with (l := FL). apply nth_In. lia.
Qed.

Lemma tensor_dims_positions (legs : list (list Z)) :
  fold_right Nat.mul 1 (map len (map U1Charge legs)) = num_positions legs.
Proof.
  unfold num_positions. f_equal. rewrite map_map.
  apply map_ext. intros v. apply len_U1Charge.
Qed.

(** ** The charge reducer on full and on disjoint targets *)

Lemma unique_fused_loop_ok (X : list Z) (legs : list (list Z))
  (flows : list bool) :
  length flows = length legs ->
  unique_fused_loop (unique (U1Charge X)) (map U1Charge legs) flows =
  Ok (unique (U1Charge (fused_from X legs flows))).
Proof.
  revert X flows. induction legs as [|v vs IH]; intros X flows Hlen.
  - reflexivity.
  - destruct flows as [|f fs]; [discriminate|].
    cbn [map unique_fused_loop fused_from].
    destruct (degeneracy_step f X v) as [Hu _]. cbv zeta in Hu.
    rewrite Hu. apply IH. simpl in Hlen. lia.
Qed.

Lemma compute_unique_fused_charges_ok (legs : list (list Z))
  (flows : list bool) :
  legs <> [] -> length flows = length legs ->
  compute_unique_fused_charges (map U1Charge legs) flows =
  Ok (unique (U1Charge (fused_values legs flows))).
Proof.
  intros Hne Hlen. destruct legs as [|v vs]; [congruence|].
  destruct flows as [|f fs]; [discriminate|].
  unfold compute_unique_fused_charges.
  cbn [map length Np.get nth_error bind tl].
  rewrite dual_U1Charge.
  destruct (Nat.eqb_spec (S (length (map U1Charge vs))) 1) as [H1|H1].
  - destruct vs; [|simpl in H1; lia]. reflexivity.
  - cbn [fused_values]. apply unique_fused_loop_ok. simpl in Hlen. lia.
Qed.

Lemma filter_all {A : Type} (p : A -> bool) (l : list A) :
  (forall x, In x l -> p x = true) -> filter p l = l.
Proof.
  induction l as [|x l IH]; intros H; [reflexivity|]. simpl.
  rewrite (H x (or_introl eq_refl)). f_equal. apply IH.
  intros y Hy. apply H. now right.
Qed.

Lemma filter_none {A : Type} (p : A -> bool) (l : list A) :
  (forall x, In x l -> p x = false) -> filter p l = [].
Proof.
  induction l as [|x l IH]; intros H; [reflexivity|]. simpl.
  rewrite (H x (or_introl eq_refl)). apply IH.
  intros y Hy. apply H. now right.
Qed.

Lemma nonzero_none {A : Type} (p : A -> bool) (l : list A) :
  (forall x, In x l -> p x = false) -> Np.nonzero (map p l) = [].
Proof.
  unfold Np.nonzero. generalize 0.
  induction l as [|x l IH]; intros s H; [reflexivity|]. simpl.
  rewrite (H x (or_introl eq_refl)). apply IH.
  intros y Hy. apply H. now right.
Qed.

(** On legs that are all non-empty the reducer filters nothing out when
    the target charges are the unique fused charges of the legs: the
    reduced charge object has one position per combination of leg
    positions. *)
Lemma reduce_charges_full_target (legs : list (list Z)) (flows : list bool) :
  legs <> [] -> length flows = length legs -> ~ In [] legs ->
  exists target obj,
    compute_unique_fused_charges (map U1Charge legs) flows = Ok target /\
    reduce_charges (map U1Charge legs) flows (unique_charges target)
      false None = Ok (obj, None) /\
    len obj = num_positions legs /\
    values obj = fused_values legs flows.
Proof.
  intros Hne Hlen Hnz.
  set (F := fused_values legs flows).
  exists (unique (U1Charge F)), (reduced_of (usort F) F).
  split; [now apply compute_unique_fused_charges_ok|].
  rewrite unique_U1Charge. cbn [unique_charges].
  split; [now apply reduce_charges_ok|].
  assert (HF : filter (fun z => mem z (usort F)) F = F).
  { apply filter_all. intros x Hx. apply mem_In. now apply usort_In. }
  assert (HU : filter (fun z => mem z (usort F)) (usort F) = usort F).
  { apply filter_all. intros x Hx. now apply mem_In. }
  split.
  - unfold len, reduced_of. cbn [charge_labels].
    rewrite length_map, HF. now apply length_fused_values.
  - unfold values, reduced_of. cbn [charge_labels unique_charges].
    rewrite HF, HU, map_map.
    transitivity (map (fun z : Z => z) F); [|apply map_id].
    apply map_ext_in. intros z Hz. apply nth_index_of. now apply usort_In.
Qed.

(** C4 at a leg list whose first leg carries no charge: the target is the
    (empty) set of unique fused charges, the product of the leg lengths is
    0, and [reduce_charges] raises [ValueError] (from [np.concatenate] on
    an empty list of rows) instead of returning a charge object of
    length 0. *)
Theorem reduce_charges_empty_left_leg :
  compute_unique_fused_charges (map U1Charge [[]; [1%Z]]) [true; true] =
    Ok (mk [] []) /\
  num_positions [[]; [1%Z]] = 0 /\
  reduce_charges (map U1Charge [[]; [1%Z]]) [true; true] [] false None =
    Err ValueError.
Proof. repeat split. Qed.

Lemma reduced_of_disjoint (target F : list Z) :
  (forall z, In z F -> ~ In z target) -> reduced_of target F = mk [] [].
Proof.
  intros Hdis.
  assert (Hmem : forall z, In z F -> mem z target = false)
    by (intros z Hz; apply mem_false; now apply Hdis).
  unfold reduced_of.
  rewrite (filter_none (fun z => mem z target) F Hmem).
  rewrite (filter_none (fun z => mem z target) (usort F))
    by (intros z Hz; apply Hmem; now apply usort_In).
  reflexivity.
Qed.

Lemma reduce_charges_disjoint (legs : list (list Z)) (flows : list bool)
  (target : list Z) (return_locations : bool) (strides : option (list Z)) :
  legs <> [] -> length flows = length legs -> ~ In [] legs ->
  valid_strides (length legs) strides ->
  (forall z, In z (fused_values legs flows) -> ~ In z target) ->
  reduce_charges (map U1Charge legs) flows target return_locations strides =
  Ok (mk [] [], if return_locations then Some [] else None).
Proof.
  intros Hne Hlen Hnz Hval Hdis.
  pose proof (reduced_of_disjoint target _ Hdis) as Hobj.
  assert (Hmem : forall z, In z (fused_values legs flows) ->
                           mem z target = false)
    by (intros z Hz; apply mem_false; now apply Hdis).
  destruct strides as [s|].
  2:{ rewrite (reduce_charges_ok legs flows target return_locations
                 Hne Hlen Hnz).
      rewrite Hobj, (nonzero_none (fun z => mem z target) _ Hmem).
      reflexivity. }
  destruct Hval as [Hls Hpos].
  destruct (Nat.eq_dec (length legs) 1) as [H1|H1].
  - unfold reduce_charges. rewrite length_map, H1. cbn [Nat.eqb].
    destruct legs as [|v [|? ?]]; try discriminate.
    destruct flows as [|f [|? ?]]; try discriminate.
    destruct s as [|s0 [|? ?]]; try discriminate.
    cbn [map Np.get nth_error bind].
    rewrite reduce_single_ok.
    cbn [fused_values fused_from] in Hobj, Hmem.
    rewrite Hobj, (nonzero_none (fun z => mem z target) _ Hmem).
    reflexivity.
  - assert (H2 : 2 <= length legs)
      by (destruct legs as [|? [|? ?]]; simpl in *; try congruence; lia).
    destruct (reduce_charges_multi legs flows target Hlen H2 Hnz)
      as (p & Hp & Hred).
    rewrite Hred. cbv zeta. rewrite Hobj.
    destruct return_locations; [|reflexivity].
    assert (HneL : firstn p legs <> []).
    { intros E. apply (f_equal (@length _)) in E.
      rewrite length_firstn in E. simpl in E. lia. }
    assert (HneR : skipn p legs <> []).
    { intros E. apply (f_equal (@length _)) in E.
      rewrite length_skipn in E. simpl in E. lia. }
    assert (HlenL : length (firstn p flows) = length (firstn p legs))
      by (rewrite !length_firstn; lia).
    assert (HlenR : length (skipn p flows) = length (skipn p legs))
      by (rewrite !length_skipn; lia).
    set (dims := map len (map U1Charge legs)).
    assert (Hdl : length dims = length legs)
      by (unfold dims; now rewrite !length_map).
    destruct (fuse_stride_arrays_ok (firstn p dims) (firstn p s))
      as (row_pos & Hrow & Hlrow).
    { intros E. apply (f_equal (@length _)) in E.
      rewrite length_firstn in E. simpl in E. lia. }
    { rewrite !length_firstn. lia. }
    { intros x Hx.
      assert (0 < x)%Z; [|lia]. apply Hpos. rewrite <- (firstn_skipn p s).
      apply in_or_app. now left. }
    destruct (fuse_stride_arrays_ok (skipn p dims) (skipn p s))
      as (col_pos & Hcol & Hlcol).
    { intros E. apply (f_equal (@length _)) in E.
      rewrite length_skipn in E. simpl in E. lia. }
    { rewrite !length_skipn. lia. }
    { intros x Hx.
      assert (0 < x)%Z; [|lia]. apply Hpos. rewrite <- (firstn_skipn p s).
      apply in_or_app. now right. }
    unfold dims in Hlrow, Hcol, Hlcol, Hrow.
    rewrite firstn_map, firstn_map, tensor_dims_positions in Hlrow.
    rewrite skipn_map, skipn_map, tensor_dims_positions in Hlcol.
    rewrite (reduce_locations_some_none _ s p target _ _ _ row_pos col_pos
               Hrow Hcol).
    + reflexivity.
    + rewrite Hlrow. symmetry. now apply length_fused_values.
    + rewrite Hlcol. symmetry. now apply length_fused_values.
    + apply fused_values_nonempty; try assumption.
      intros Hin. apply Hnz. rewrite <- (firstn_skipn p legs).
      apply in_or_app. now left.
    + rewrite <- (fused_values_split legs flows p Hlen Hp). exact Hmem.
Qed.

(** C7, as the code has it.  For a non-empty list of non-empty legs with
    as many flows, and strides that are absent or one positive stride per
    leg, when no fused charge is a target charge [reduce_charges] returns
    an empty reduced charge object and, when locations are requested, an
    empty location array; on an empty list of legs it raises
    [ValueError]. *)
Theorem reduce_charges_no_survivor :
  (forall (legs : list (list Z)) (flows : list bool) (target : list Z)
          (return_locations : bool) (strides : option (list Z)),
     legs <> [] -> length flows = length legs -> ~ In [] legs ->
     valid_strides (length legs) strides ->
     (forall z, In z (fused_values legs flows) -> ~ In z target) ->
     reduce_charges (map U1Charge legs) flows target return_locations
       strides =
     Ok (mk [] [], if return_locations then Some [] else None)) /\
  (forall flows target return_locations strides,
     reduce_charges [] flows target return_locations strides =
     Err ValueError).
Proof.
  split; [exact reduce_charges_disjoint|reflexivity].
Qed.

Lemma reduce_charges_no_survivor_witness :
  reduce_charges (map U1Charge [[0; 1]; [2; 3]]%Z) [true; true] [0%Z] true
    (Some [2; 1]%Z) = Ok (mk [] [], Some []).
Proof.
  apply (proj1 reduce_charges_no_survivor [[0; 1]; [2; 3]]%Z [true; true]
           [0%Z] true (Some [2; 1]%Z)).
  - discriminate.
  - reflexivity.
  - simpl. intros [H|[H|[]]]; discriminate.
  - simpl. split; [reflexivity|]. intros x [<-|[<-|[]]]; lia.
  - simpl. intros z [<-|[<-|[<-|[<-|[]]]]] [H|[]]; discriminate.
Defined.

(** C7 as stated fails on the empty list of legs: the partition selector
    has no minimum to take and the call raises [ValueError]. *)
Lemma reduce_charges_no_legs :
  reduce_charges [] [] [0%Z] true None = Err ValueError /\
  forall r, reduce_charges [] [] [0%Z] true None <> Ok r.
Proof. split; [reflexivity|]. intros r. discriminate. Qed.

(** * Further properties of the source *)

(** ** The number of non-zero elements *)

(** X1.  For a non-empty list of legs and as many flows, on a tensor
    with fewer than [2^63] charge-conserving positions, so that the
    64-bit degeneracy does not wrap around, [compute_num_nonzero] returns
    the number of flat positions whose fused charge is the identity
    charge; it never exceeds the product of the leg lengths. *)
Theorem num_nonzero_count (legs : list (list Z)) (flows : list bool) :
  legs <> [] -> length flows = length legs ->
  (Z.of_nat (num_conserving legs flows) < 9223372036854775808)%Z ->
  exists n fused,
    compute_num_nonzero (map U1Charge legs) flows = Ok n /\
    fuse_charges (map U1Charge legs) flows = Ok fused /\
    n = Z.of_nat (count_occ Z.eq_dec (values fused) identity_charge) /\
    (n <= Z.of_nat (num_positions legs))%Z.
Proof.
  intros Hne Hlen Hfit.
  exists (Z.of_nat (num_conserving legs flows)),
         (U1Charge (fused_values legs flows)).
  split; [now apply num_nonzero_exact|].
  split; [now apply fuse_charges_ok|].
  rewrite values_U1Charge. split; [reflexivity|].
  rewrite <- (length_fused_values legs flows Hne Hlen).
  apply inj_le. apply count_occ_bound.
Qed.

Lemma num_nonzero_count_witness :
  exists n fused,
    compute_num_nonzero (map U1Charge [[0; 1]; [0; 1; 2]]%Z) [true; false] =
      Ok n /\
    fuse_charges (map U1Charge [[0; 1]; [0; 1; 2]]%Z) [true; false] =
      Ok fused /\
    n = Z.of_nat (count_occ Z.eq_dec (values fused) identity_charge) /\
    (n <= Z.of_nat (num_positions [[0; 1]; [0; 1; 2]]%Z))%Z.
Proof.
  apply (num_nonzero_count [[0; 1]; [0; 1; 2]]%Z [true; false]).
  - discriminate.
  - reflexivity.
  - vm_compute. reflexivity.
Defined.

(** X2.  When a leg carries no charge [compute_num_nonzero] returns 0
    before it looks at the flows: whatever the flows are, even too few of
    them. *)
Theorem num_nonzero_empty_leg (legs : list (list Z)) (flows : list bool) :
  In [] legs -> compute_num_nonzero (map U1Charge legs) flows = Ok 0%Z.
Proof.
  intros Hin. unfold compute_num_nonzero.
  now rewrite (proj2 (existsb_empty_leg legs) Hin).
Qed.

Lemma num_nonzero_empty_leg_witness :
  compute_num_nonzero (map U1Charge [[0; 1]%Z; []; [2%Z]]) [true] = Ok 0%Z.
Proof.
  apply (num_nonzero_empty_leg [[0; 1]%Z; []; [2%Z]] [true]).
  simpl. right. now left.
Defined.

(** X3.  Reversing every flow leaves the number of non-zero elements
    unchanged. *)
Theorem num_nonzero_reversed_flows (legs : list (list Z)) (flows : list bool) :
  legs <> [] -> length flows = length legs ->
  compute_num_nonzero (map U1Charge legs) (map negb flows) =
  compute_num_nonzero (map U1Charge legs) flows.
Proof.
  intros Hne Hlen.
  rewrite (compute_num_nonzero_ok legs flows Hne Hlen).
  rewrite (compute_num_nonzero_ok legs (map negb flows) Hne)
    by now rewrite length_map.
  rewrite fused_values_negb, count_occ_map_opp. reflexivity.
Qed.

Lemma num_nonzero_reversed_flows_witness :
  compute_num_nonzero (map U1Charge [[0; 1]; [0; 1; 2]]%Z)
    (map negb [true; false]) =
  compute_num_nonzero (map U1Charge [[0; 1]; [0; 1; 2]]%Z) [true; false].
Proof.
  apply (num_nonzero_reversed_flows [[0; 1]; [0; 1; 2]]%Z [true; false]).
  - discriminate.
  - reflexivity.
Defined.

(** ** The degeneracy accumulator, once more *)

Lemma count_occ_pos_In (l : list Z) (x : Z) :
  In x l -> 1 <= count_occ Z.eq_dec l x.
Proof. intros H. apply (count_occ_In Z.eq_dec) in H. lia. Qed.

(** X4.  For a non-empty list of legs and as many flows whose leg
    lengths have a product below [2^63], so that no 64-bit degeneracy
    wraps around, [compute_fused_charge_degeneracies] returns the fused
    charges of the legs without repetition in increasing order, each once
    and labelled by its rank, and one degeneracy per charge: the number
    of flat positions that fuse to it, which is at least 1. *)
Theorem fused_degeneracies_multiplicities (legs : list (list Z))
  (flows : list bool) :
  legs <> [] -> length flows = length legs ->
  (Z.of_nat (num_positions legs) < 9223372036854775808)%Z ->
  exists charges degeneracies fused,
    compute_fused_charge_degeneracies (map U1Charge legs) flows =
      Ok (charges, degeneracies) /\
    fuse_charges (map U1Charge legs) flows = Ok fused /\
    StronglySorted Z.lt (unique_charges charges) /\
    (forall z, In z (unique_charges charges) <-> In z (values fused)) /\
    charge_labels charges = seq 0 (length (unique_charges charges)) /\
    length degeneracies = length (unique_charges charges) /\
    forall m, m < length degeneracies ->
      nth m degeneracies 0%Z =
        Z.of_nat (count_occ Z.eq_dec (values fused)
                    (nth m (unique_charges charges) 0%Z))
      /\ (1 <= nth m degeneracies 0)%Z.
Proof.
  intros Hne Hlen Hfit. set (F := fused_values legs flows).
  exists (unique (U1Charge F)), (unique_counts (U1Charge F)), (U1Charge F).
  split; [now apply compute_fused_charge_degeneracies_ok|].
  split; [now apply fuse_charges_ok|].
  rewrite unique_U1Charge, unique_counts_U1Charge, values_U1Charge.
  rewrite map_count64_small
    by (unfold F; now rewrite (length_fused_values legs flows Hne Hlen)).
  rewrite map_map.
  cbn [unique_charges charge_labels].
  split; [apply usort_sorted|].
  split; [intros z; apply usort_In|].
  split; [reflexivity|].
  split; [apply length_map|].
  intros m Hm. rewrite length_map in Hm.
  rewrite (nth_indep (map (fun x => Z.of_nat (count_occ Z.eq_dec F x)) (usort F))
             0%Z (Z.of_nat (count_occ Z.eq_dec F 0%Z)))
    by now rewrite length_map.
  rewrite (map_nth (fun x => Z.of_nat (count_occ Z.eq_dec F x))).
  split; [reflexivity|].
  assert (1 <= count_occ Z.eq_dec F (nth m (usort F) 0%Z))
    by (apply count_occ_pos_In, usort_In, nth_In; exact Hm).
  lia.
Qed.

Lemma fused_degeneracies_multiplicities_witness :
  exists charges degeneracies fused,
    compute_fused_charge_degeneracies
      (map U1Charge [[0; 1]; [0; 1; 2]]%Z) [true; false] =
      Ok (charges, degeneracies) /\
    fuse_charges (map U1Charge [[0; 1]; [0; 1; 2]]%Z) [true; false] =
      Ok fused /\
    StronglySorted Z.lt (unique_charges charges) /\
    (forall z, In z (unique_charges charges) <-> In z (values fused)) /\
    charge_labels charges = seq 0 (length (unique_charges charges)) /\
    length degeneracies = length (unique_charges charges) /\
    forall m, m < length degeneracies ->
      nth m degeneracies 0%Z =
        Z.of_nat (count_occ Z.eq_dec (values fused)
                    (nth m (unique_charges charges) 0%Z))
      /\ (1 <= nth m degeneracies 0)%Z.
Proof.
  apply (fused_degeneracies_multiplicities [[0; 1]; [0; 1; 2]]%Z
           [true; false]).
  - discriminate.
  - reflexivity.
  - vm_compute. reflexivity.
Defined.

(** X5.  [compute_unique_fused_charges] returns the charge object that
    [compute_fused_charge_degeneracies] returns beside its degeneracies. *)
Theorem unique_fused_charges_agree (legs : list (list Z)) (flows : list bool) :
  legs <> [] -> length flows = length legs ->
  exists charges degeneracies,
    compute_fused_charge_degeneracies (map U1Charge legs) flows =
      Ok (charges, degeneracies) /\
    compute_unique_fused_charges (map U1Charge legs) flows = Ok charges.
Proof.
  intros Hne Hlen.
  exists (unique (U1Charge (fused_values legs flows))),
         (unique_counts (U1Charge (fused_values legs flows))).
  split.
  - now apply compute_fused_charge_degeneracies_ok.
  - now apply compute_unique_fused_charges_ok.
Qed.

Lemma unique_fused_charges_agree_witness :
  exists charges degeneracies,
    compute_fused_charge_degeneracies
      (map U1Charge [[0; 1]; [0; 1; 2]; [1; 1]]%Z) [true; false; true] =
      Ok (charges, degeneracies) /\
    compute_unique_fused_charges
      (map U1Charge [[0; 1]; [0; 1; 2]; [1; 1]]%Z) [true; false; true] =
      Ok charges.
Proof.
  apply (unique_fused_charges_agree [[0; 1]; [0; 1; 2]; [1; 1]]%Z
           [true; false; true]).
  - discriminate.
  - reflexivity.
Defined.

Lemma fused_degeneracies_loop_short (X : list Z) (legs : list (list Z))
  (flows : list bool) :
  length flows < length legs ->
  fused_degeneracies_loop (unique (U1Charge X)) (unique_counts (U1Charge X))
    (map U1Charge legs) flows = Err IndexError.
Proof.
  revert X flows. induction legs as [|v vs IH]; intros X flows Hlen.
  - simpl in Hlen. lia.
  - destruct flows as [|f fs]; [reflexivity|].
    cbn [map fused_degeneracies_loop].
    destruct (degeneracy_step f X v) as [Hu Hd].
    cbv zeta in Hu, Hd. rewrite Hd. cbn [bind]. rewrite Hu.
    apply IH. simpl in Hlen. lia.
Qed.

Lemma unique_fused_loop_short (X : list Z) (legs : list (list Z))
  (flows : list bool) :
  length flows < length legs ->
  unique_fused_loop (unique (U1Charge X)) (map U1Charge legs) flows =
  Err IndexError.
Proof.
  revert X flows. induction legs as [|v vs IH]; intros X flows Hlen.
  - simpl in Hlen. lia.
  - destruct flows as [|f fs]; [reflexivity|].
    cbn [map unique_fused_loop].
    destruct (degeneracy_step f X v) as [Hu _]. cbv zeta in Hu.
    rewrite Hu. apply IH. simpl in Hlen. lia.
Qed.

(** X6.  With fewer flows than legs both folds over the legs,
    [compute_fused_charge_degeneracies] and [compute_unique_fused_charges],
    raise [IndexError]: every leg before the missing flow is fused, then
    the flow of the next leg is read. *)
Theorem fused_charges_missing_flow (legs : list (list Z)) (flows : list bool) :
  length flows < length legs ->
  compute_fused_charge_degeneracies (map U1Charge legs) flows =
    Err IndexError /\
  compute_unique_fused_charges (map U1Charge legs) flows = Err IndexError.
Proof.
  intros Hlen. destruct legs as [|v vs]; [simpl in Hlen; lia|].
  unfold compute_fused_charge_degeneracies, compute_unique_fused_charges.
  destruct flows as [|f fs].
  - cbn [map length Np.get nth_error bind].
    destruct (S (length (map U1Charge vs)) =? 1); split; reflexivity.
  - cbn [map length Np.get nth_error bind tl].
    rewrite dual_U1Charge.
    assert (Hvs : length fs < length vs) by (simpl in Hlen; lia).
    destruct (Nat.eqb_spec (S (length (map U1Charge vs))) 1) as [H1|_].
    + rewrite length_map in H1. lia.
    + split.
      * now apply fused_degeneracies_loop_short.
      * now apply unique_fused_loop_short.
Qed.

Lemma fused_charges_missing_flow_witness :
  compute_fused_charge_degeneracies
    (map U1Charge [[0; 1]; [0; 1; 2]; [1; 1]]%Z) [true; false] =
    Err IndexError /\
  compute_unique_fused_charges
    (map U1Charge [[0; 1]; [0; 1; 2]; [1; 1]]%Z) [true; false] =
    Err IndexError.
Proof.
  apply (fused_charges_missing_flow [[0; 1]; [0; 1; 2]; [1; 1]]%Z
           [true; false]).
  simpl. lia.
Defined.

(** ** The charge reducer, once more *)


Lemma nonzero_from_sorted (s : nat) (mask : list bool) :
  StronglySorted lt (Np.nonzero_from s mask) /\
  forall i, In i (Np.nonzero_from s mask) -> s <= i.
Proof.
  revert s. induction mask as [|b tl IH]; intros s.
  - split; [constructor|intros i []].
  - destruct (IH (S s)) as [Hs Hge]. simpl. destruct b.
    + split.
      * constructor; [exact Hs|]. apply Forall_forall. intros i Hi.
        apply Hge in Hi. lia.
      * intros i [<-|Hi]; [lia|]. apply Hge in Hi. lia.
    + split; [exact Hs|]. intros i Hi. apply Hge in Hi. lia.
Qed.

Lemma nonzero_lt (mask : list bool) (i : nat) :
  In i (Np.nonzero mask) -> i < length mask.
Proof.
  intros H. apply nonzero_In in H. apply nth_error_Some. congruence.
Qed.









(** ** Row-major strides *)

Lemma prod_dims_app (l1 l2 : list nat) :
  prod_dims (l1 ++ l2) = prod_dims l1 * prod_dims l2.
Proof.
  unfold prod_dims. induction l1 as [|x l1 IH]; simpl; [lia|].
  rewrite IH. lia.
Qed.

Lemma prod_dims_rev (l : list nat) : prod_dims (rev l) = prod_dims l.
Proof.
  induction l as [|x l IH]; [reflexivity|].
  simpl rev. rewrite prod_dims_app, IH. unfold prod_dims. simpl. lia.
Qed.

Lemma prod_dims_nonzero (l : list nat) :
  (forall d, In d l -> d <> 0) -> prod_dims l <> 0.
Proof.
  unfold prod_dims. induction l as [|x l IH]; intros H; simpl; [lia|].
  assert (x <> 0) by (apply H; now left).
  assert (fold_right Nat.mul 1 l <> 0) by (apply IH; intros d Hd; apply H; now right).
  lia.
Qed.

Lemma wrap64_mul_l (a b : Z) : wrap64 (wrap64 a * b) = wrap64 (a * b).
Proof.
  apply wrap64_congr.
  rewrite (Z.mul_mod (wrap64 a)), (Z.mul_mod a) by lia.
  now rewrite wrap64_mod.
Qed.

Lemma last_cons_default {A : Type} (x : A) (l : list A) (d : A) :
  last (x :: l) d = last l x.
Proof.
  revert x d. induction l as [|y l IH]; intros x d; [reflexivity|].
  change (last (x :: y :: l) d) with (last (y :: l) d).
  now rewrite (IH y d), (IH y x).
Qed.

Lemma cumprod_from_app (a : Z) (l1 l2 : list Z) :
  cumprod_from a (l1 ++ l2) =
  cumprod_from a l1 ++ cumprod_from (last (cumprod_from a l1) a) l2.
Proof.
  revert a. induction l1 as [|x l1 IH]; intros a; [reflexivity|].
  cbn [app cumprod_from]. rewrite IH, last_cons_default. reflexivity.
Qed.

Lemma last_cumprod_from (a : nat) (l : list nat) :
  last (cumprod_from (count64 a) (map Z.of_nat l)) (count64 a) =
  count64 (a * prod_dims l).
Proof.
  revert a. induction l as [|x l IH]; intros a.
  - unfold prod_dims. simpl. now rewrite Nat.mul_1_r.
  - cbn [map cumprod_from].
    assert (E : wrap64 (count64 a * Z.of_nat x) = count64 (a * x)).
    { unfold count64. now rewrite wrap64_mul_l, Nat2Z.inj_mul. }
    rewrite E.
    rewrite last_cons_default, IH. f_equal. unfold prod_dims. simpl. lia.
Qed.

Lemma get_strides_suffix (l : list nat) :
  rev (1%Z :: cumprod (rev (map Z.of_nat l))) =
  map (fun i => count64 (prod_dims (skipn i l))) (seq 0 (S (length l))).
Proof.
  induction l as [|x l IH]; [reflexivity|].
  cbn [length]. rewrite <- (cons_seq (S (length l))), <- seq_shift.
  rewrite (map_cons (fun i => count64 (prod_dims (skipn i (x :: l))))).
  rewrite (map_map S). cbn [skipn]. rewrite <- IH.
  unfold cumprod.
  change (rev (map Z.of_nat (x :: l)))
    with (rev (map Z.of_nat l) ++ [Z.of_nat x]).
  rewrite cumprod_from_app. rewrite <- map_rev.
  pose proof (last_cumprod_from 1 (rev l)) as HL.
  change (count64 1) with 1%Z in HL. rewrite HL. clear HL.
  rewrite Nat.mul_1_l, prod_dims_rev.
  cbn [cumprod_from].
  change (1%Z :: cumprod_from 1 (map Z.of_nat (rev l)) ++
            [wrap64 (count64 (prod_dims l) * Z.of_nat x)])
    with ((1%Z :: cumprod_from 1 (map Z.of_nat (rev l))) ++
            [wrap64 (count64 (prod_dims l) * Z.of_nat x)]).
  rewrite rev_app_distr.
  change (rev [wrap64 (count64 (prod_dims l) * Z.of_nat x)])
    with [wrap64 (count64 (prod_dims l) * Z.of_nat x)].
  cbn [app]. f_equal.
  unfold count64. rewrite wrap64_mul_l, <- Nat2Z.inj_mul. f_equal. f_equal.
  unfold prod_dims. simpl. lia.
Qed.

(** X10.  [_get_strides] returns the row-major strides of a non-empty list
    of dimensions as 64-bit integers: one stride per dimension, the
    stride of a dimension being the product of the dimensions after it
    reduced to 64 bits, hence that product itself when it is below
    [2^63] (so the last stride is 1); on an empty list of dimensions it
    returns the single stride 1. *)
Theorem get_strides_row_major :
  (forall dims : list nat,
     dims <> [] ->
     length (_get_strides dims) = length dims /\
     forall i, i < length dims ->
       nth i (_get_strides dims) 0%Z =
         wrap64 (Z.of_nat (prod_dims (skipn (S i) dims))) /\
       ((Z.of_nat (prod_dims (skipn (S i) dims)) < 9223372036854775808)%Z ->
        nth i (_get_strides dims) 0%Z =
          Z.of_nat (prod_dims (skipn (S i) dims)))) /\
  _get_strides [] = [1%Z].
Proof.
  split; [|reflexivity].
  intros dims Hne. destruct dims as [|d ds]; [congruence|].
  unfold _get_strides. cbn [tl]. rewrite get_strides_suffix. split.
  - now rewrite length_map, length_seq.
  - intros i Hi. cbn [length] in Hi.
    rewrite (nth_indep _ 0%Z ((fun i => count64 (prod_dims (skipn i ds))) 0))
      by now rewrite length_map, length_seq.
    rewrite (map_nth (fun i => count64 (prod_dims (skipn i ds)))).
    rewrite seq_nth by exact Hi. cbn [Nat.add skipn].
    split; [reflexivity|]. intros Hfit. now apply count64_small.
Qed.

Lemma get_strides_row_major_witness :
  length (_get_strides [2; 3; 4]) = length [2; 3; 4] /\
  forall i, i < length [2; 3; 4] ->
    nth i (_get_strides [2; 3; 4]) 0%Z =
      wrap64 (Z.of_nat (prod_dims (skipn (S i) [2; 3; 4]))) /\
    ((Z.of_nat (prod_dims (skipn (S i) [2; 3; 4]%nat)) <
      9223372036854775808)%Z ->
     nth i (_get_strides [2; 3; 4]) 0%Z =
       Z.of_nat (prod_dims (skipn (S i) [2; 3; 4]))).
Proof.
  apply (proj1 get_strides_row_major [2; 3; 4]). discriminate.
Defined.

(** ** Strided positions *)

Lemma to_uint32_small (z : Z) :
  (0 <= z < 4294967296)%Z -> to_uint32 z = Z.to_nat z.
Proof.
  intros H. unfold to_uint32, wrap32. now rewrite Z.mod_small.
Qed.

Lemma add32_small (a b : nat) :
  (Z.of_nat a + Z.of_nat b < 4294967296)%Z -> add32 a b = a + b.
Proof.
  intros H. unfold add32. rewrite to_uint32_small by lia. lia.
Qed.

Lemma add32_assoc (a b c : nat) : add32 (add32 a b) c = add32 a (add32 b c).
Proof.
  unfold add32, to_uint32, wrap32.
  rewrite !Z2Nat.id by (apply Z.mod_pos_bound; lia).
  rewrite Zplus_mod_idemp_l, Zplus_mod_idemp_r. f_equal. f_equal. lia.
Qed.

Lemma map_nth_combine {B : Type} (h : nat -> Z -> B) (dims : list nat)
  (s : list Z) :
  length s = length dims ->
  map (fun n => h (nth n dims 0) (nth n s 0%Z)) (seq 0 (length dims)) =
  map (fun ds => h (fst ds) (snd ds)) (combine dims s).
Proof.
  revert s. induction dims as [|d dims IH]; intros s Hlen; [reflexivity|].
  destruct s as [|x s]; [discriminate|].
  cbn [length combine map]. rewrite <- cons_seq, <- seq_shift.
  rewrite map_cons, map_map. cbn [nth fst snd]. f_equal.
  apply IH. simpl in Hlen. lia.
Qed.

Lemma fuse_stride_arrays_explicit (dims : list nat) (strides : list Z) :
  length strides = length dims ->
  (forall x, In x strides -> x <> 0%Z) ->
  fuse_stride_arrays dims strides =
  fuse_ndarrays
    (map (fun ds => arange_step (fst ds) (snd ds)) (combine dims strides)).
Proof.
  intros Hlen Hpos. unfold fuse_stride_arrays.
  rewrite (mapM_ok _ (fun n => arange_step (nth n dims 0) (nth n strides 0%Z))).
  - cbn [bind]. now rewrite (map_nth_combine arange_step dims strides Hlen).
  - intros n Hn. apply in_seq in Hn.
    rewrite (get_ok dims n 0) by lia. cbn [bind].
    rewrite (get_ok strides n 0%Z) by lia. cbn [bind].
    destruct (Z.eqb_spec (nth n strides 0%Z) 0) as [E|_]; [|reflexivity].
    exfalso. apply (Hpos (nth n strides 0%Z)); [|exact E].
    apply nth_In. lia.
Qed.

Lemma outer_map_add32_l (x : nat) (b c : list nat) :
  outer add32 (map (add32 x) b) c = map (add32 x) (outer add32 b c).
Proof.
  induction b as [|y b IH]; [reflexivity|].
  simpl map at 1. rewrite !outer_cons, map_app, IH. f_equal.
  rewrite map_map. apply map_ext. intros z. apply add32_assoc.
Qed.

Lemma outer_add32_assoc (a b c : list nat) :
  outer add32 (outer add32 a b) c = outer add32 a (outer add32 b c).
Proof.
  induction a as [|x a IH]; [reflexivity|].
  rewrite !outer_cons, outer_app, IH. f_equal. apply outer_map_add32_l.
Qed.

Lemma fold_outer_cons (tl : list (list nat)) (a b : list nat) :
  fold_left (outer add32) (b :: tl) a =
  outer add32 a (fold_left (outer add32) tl b).
Proof.
  revert a b. induction tl as [|c tl IH]; intros a b; [reflexivity|].
  change (fold_left (outer add32) (b :: c :: tl) a)
    with (fold_left (outer add32) (c :: tl) (outer add32 a b)).
  rewrite (IH (outer add32 a b) c), (IH b c).
  apply outer_add32_assoc.
Qed.

Lemma fuse_ndarrays_app (A1 A2 : list (list nat)) (r1 r2 : list nat) :
  fuse_ndarrays A1 = Ok r1 -> fuse_ndarrays A2 = Ok r2 ->
  fuse_ndarrays (A1 ++ A2) = Ok (outer add32 r1 r2).
Proof.
  destruct A1 as [|a t1]; [discriminate|].
  destruct A2 as [|b t2]; [discriminate|].
  cbn [fuse_ndarrays app]. intros H1 H2.
  injection H1 as <-. injection H2 as <-.
  now rewrite fold_left_app, fold_outer_cons.
Qed.

Lemma flat_map_seq_rows (s a d : nat) :
  flat_map (fun k => seq (k * s) s) (seq a d) = seq (a * s) (d * s).
Proof.
  revert a. induction d as [|d IH]; intros a; [reflexivity|].
  cbn [seq flat_map]. rewrite IH.
  replace (S d * s) with (s + d * s) by (simpl; lia).
  rewrite seq_app. do 2 f_equal. simpl. lia.
Qed.

Lemma outer_arange_seq (d s : nat) :
  (Z.of_nat (d * s) <= 4294967296)%Z ->
  outer add32 (arange_step d (Z.of_nat s)) (seq 0 s) = seq 0 (d * s).
Proof.
  intros Hfit. unfold outer, arange_step.
  rewrite flat_map_concat_map, map_map.
  rewrite (map_ext_in _ (fun k => seq (k * s) s)).
  - rewrite <- flat_map_concat_map. apply (flat_map_seq_rows s 0 d).
  - intros k Hk. apply in_seq in Hk.
    assert (Hks : to_uint32 (Z.of_nat k * Z.of_nat s) = k * s).
    { rewrite to_uint32_small by nia. lia. }
    rewrite Hks.
    replace (seq (k * s) s) with (seq (k * s + 0) s) by (f_equal; lia).
    rewrite <- (map_add_seq (k * s) 0 s).
    apply map_ext_in. intros j Hj. apply in_seq in Hj.
    apply add32_small. nia.
Qed.

Lemma arange_step_one (d : nat) :
  (Z.of_nat d <= 4294967296)%Z -> arange_step d 1 = seq 0 d.
Proof.
  intros Hfit. unfold arange_step. rewrite <- (map_id (seq 0 d)) at 2.
  apply map_ext_in. intros k Hk. apply in_seq in Hk.
  rewrite to_uint32_small by lia. lia.
Qed.

Lemma fold_outer_nil (tl : list (list nat)) :
  fold_left (outer add32) tl [] = [].
Proof. induction tl as [|b tl IH]; [reflexivity|]. exact IH. Qed.

Lemma fuse_row_major (d : nat) (ds : list nat) :
  (forall x, In x ds -> x <> 0) ->
  (Z.of_nat (prod_dims (d :: ds)) <= 4294967296)%Z ->
  fuse_ndarrays
    (map (fun p => arange_step (fst p) (snd p))
         (combine (d :: ds)
            (map (fun i => Z.of_nat (prod_dims (skipn i ds)))
                 (seq 0 (S (length ds)))))) =
  Ok (seq 0 (prod_dims (d :: ds))).
Proof.
  revert d. induction ds as [|e es IH]; intros d Hpos Hfit.
  - cbn [length seq map skipn combine fst snd fuse_ndarrays fold_left].
    change (Z.of_nat (prod_dims [])) with 1%Z.
    assert (E : prod_dims [d] = d) by (unfold prod_dims; simpl; lia).
    rewrite E in Hfit |- *. now rewrite arange_step_one.
  - cbn [length]. rewrite <- (cons_seq (S (length es))), <- seq_shift.
    rewrite map_cons, map_map.
    change (combine (d :: e :: es)
              (Z.of_nat (prod_dims (skipn 0 (e :: es)))
               :: map (fun x => Z.of_nat (prod_dims (skipn (S x) (e :: es))))
                      (seq 0 (S (length es)))))
      with ((d, Z.of_nat (prod_dims (e :: es)))
            :: combine (e :: es)
                 (map (fun i => Z.of_nat (prod_dims (skipn i es)))
                      (seq 0 (S (length es))))).
    rewrite map_cons. cbn [fst snd].
    assert (Hd : prod_dims (d :: e :: es) = d * prod_dims (e :: es))
      by reflexivity.
    assert (Hne : prod_dims (e :: es) <> 0) by now apply prod_dims_nonzero.
    destruct (map (fun p => arange_step (fst p) (snd p))
                (combine (e :: es)
                   (map (fun i => Z.of_nat (prod_dims (skipn i es)))
                        (seq 0 (S (length es)))))) as [|b tl] eqn:E;
      [discriminate|].
    cbn [fuse_ndarrays]. rewrite fold_outer_cons.
    destruct d as [|d'].
    + rewrite Hd. reflexivity.
    + assert (IH' : fuse_ndarrays (b :: tl) = Ok (seq 0 (prod_dims (e :: es)))).
      { rewrite <- E. apply IH.
        - intros x Hx. apply Hpos. now right.
        - rewrite Hd in Hfit. nia. }
      cbn [fuse_ndarrays] in IH'. injection IH' as IH'.
      rewrite IH', Hd. f_equal. apply outer_arange_seq.
      rewrite <- Hd. exact Hfit.
Qed.

Lemma get_strides_exact (dims : list nat) :
  dims <> [] -> (forall d, In d dims -> d <> 0) ->
  (Z.of_nat (prod_dims dims) < 9223372036854775808)%Z ->
  _get_strides dims =
  map (fun i => Z.of_nat (prod_dims (skipn i (tl dims))))
      (seq 0 (length dims)).
Proof.
  intros Hne Hpos Hfit. destruct dims as [|d ds]; [congruence|].
  unfold _get_strides. cbn [tl length]. rewrite get_strides_suffix.
  apply map_ext. intros i. apply count64_small.
  assert (Hd : d <> 0) by (apply Hpos; now left).
  assert (Hds : prod_dims ds =
                prod_dims (firstn i ds) * prod_dims (skipn i ds))
    by now rewrite <- prod_dims_app, firstn_skipn.
  assert (Hf : prod_dims (firstn i ds) <> 0).
  { apply prod_dims_nonzero. intros x Hx. apply Hpos. right.
    rewrite <- (firstn_skipn i ds). apply in_or_app. now left. }
  assert (Hall : prod_dims (d :: ds) = d * prod_dims ds) by reflexivity.
  rewrite Hall in Hfit. nia.
Qed.

(** X11.  With the row-major strides of [_get_strides], on dimensions
    none of which is 0 and whose product is at most [2^32], so that the
    [uint32] positions do not wrap around, [fuse_stride_arrays]
    enumerates the flat positions in order: it returns
    [0, 1, ..., prod(dims) - 1]. *)
Theorem fuse_stride_arrays_row_major (dims : list nat) :
  dims <> [] -> (forall d, In d dims -> d <> 0) ->
  (Z.of_nat (prod_dims dims) <= 4294967296)%Z ->
  fuse_stride_arrays dims (_get_strides dims) = Ok (seq 0 (prod_dims dims)).
Proof.
  intros Hne Hpos Hfit.
  rewrite (get_strides_exact dims Hne Hpos) by lia.
  destruct dims as [|d ds]; [congruence|]. cbn [tl length].
  rewrite fuse_stride_arrays_explicit.
  - apply fuse_row_major; [|exact Hfit]. intros x Hx. apply Hpos. now right.
  - now rewrite length_map, length_seq.
  - intros x Hx. apply in_map_iff in Hx. destruct Hx as (i & <- & _).
    assert (prod_dims (skipn i ds) <> 0); [|lia].
    apply prod_dims_nonzero. intros y Hy. apply Hpos. right.
    rewrite <- (firstn_skipn i ds). apply in_or_app. now right.
Qed.

Lemma fuse_stride_arrays_row_major_witness :
  fuse_stride_arrays [2; 3; 4] (_get_strides [2; 3; 4]) =
  Ok (seq 0 (prod_dims [2; 3; 4])).
Proof.
  apply (fuse_stride_arrays_row_major [2; 3; 4]).
  - discriminate.
  - simpl. intros d [<-|[<-|[<-|[]]]]; discriminate.
  - vm_compute. discriminate.
Defined.

(** X12.  When a dimension after the first is 0 the row-major stride of
    the first dimension is 0, and [fuse_stride_arrays] on these strides
    fails: [np.arange] is asked for a zero step. *)
Theorem fuse_stride_arrays_zero_dimension (dims : list nat) :
  In 0 (tl dims) ->
  exists e, fuse_stride_arrays dims (_get_strides dims) = Err e.
Proof.
  intros Hin. destruct dims as [|d ds]; [destruct Hin|]. cbn [tl] in Hin.
  exists ValueError.
  unfold _get_strides. cbn [tl]. rewrite get_strides_suffix.
  unfold fuse_stride_arrays. cbn [length seq mapM Np.get nth_error bind map].
  cbn [skipn].
  assert (E : prod_dims ds = 0).
  { unfold prod_dims. clear -Hin. induction ds as [|x ds IH]; [destruct Hin|].
    simpl. destruct Hin as [->|Hin]; [reflexivity|]. rewrite IH by exact Hin.
    lia. }
  rewrite E. reflexivity.
Qed.

Lemma fuse_stride_arrays_zero_dimension_witness :
  exists e, fuse_stride_arrays [2; 0; 3] (_get_strides [2; 0; 3]) = Err e.
Proof.
  apply (fuse_stride_arrays_zero_dimension [2; 0; 3]). simpl. now left.
Defined.

Lemma combine_split {A B : Type} (p : nat) (l : list A) (s : list B) :
  combine l s =
  combine (firstn p l) (firstn p s) ++ combine (skipn p l) (skipn p s).
Proof.
  revert l s. induction p as [|p IH]; intros l s; [reflexivity|].
  destruct l as [|x l]; [reflexivity|].
  destruct s as [|y s];
    [cbn [firstn skipn combine app]; now destruct (skipn p l)|].
  cbn [firstn skipn combine app]. f_equal. apply IH.
Qed.

Lemma fuse_stride_arrays_split (dims : list nat) (strides : list Z) (p : nat) :
  length strides = length dims -> 0 < p < length dims ->
  (forall x, In x strides -> x <> 0%Z) ->
  exists row_pos col_pos,
    fuse_stride_arrays (firstn p dims) (firstn p strides) = Ok row_pos /\
    fuse_stride_arrays (skipn p dims) (skipn p strides) = Ok col_pos /\
    fuse_stride_arrays dims strides = Ok (outer add32 row_pos col_pos) /\
    length row_pos = prod_dims (firstn p dims) /\
    length col_pos = prod_dims (skipn p dims).
Proof.
  intros Hlen Hp Hpos.
  destruct (fuse_stride_arrays_ok (firstn p dims) (firstn p strides))
    as (row_pos & Hrow & Hlrow).
  { intros E. apply (f_equal (@length _)) in E.
    rewrite length_firstn in E. simpl in E. lia. }
  { rewrite !length_firstn. lia. }
  { intros x Hx. apply Hpos. rewrite <- (firstn_skipn p strides).
    apply in_or_app. now left. }
  destruct (fuse_stride_arrays_ok (skipn p dims) (skipn p strides))
    as (col_pos & Hcol & Hlcol).
  { intros E. apply (f_equal (@length _)) in E.
    rewrite length_skipn in E. simpl in E. lia. }
  { rewrite !length_skipn. lia. }
  { intros x Hx. apply Hpos. rewrite <- (firstn_skipn p strides).
    apply in_or_app. now right. }
  exists row_pos, col_pos. repeat split; try assumption.
  rewrite fuse_stride_arrays_explicit by assumption.
  rewrite (combine_split p dims strides), map_app.
  apply fuse_ndarrays_app.
  - rewrite <- Hrow. symmetry. apply fuse_stride_arrays_explicit.
    + rewrite !length_firstn. lia.
    + intros x Hx. apply Hpos. rewrite <- (firstn_skipn p strides).
      apply in_or_app. now left.
  - rewrite <- Hcol. symmetry. apply fuse_stride_arrays_explicit.
    + rewrite !length_skipn. lia.
    + intros x Hx. apply Hpos. rewrite <- (firstn_skipn p strides).
      apply in_or_app. now right.
Qed.

Lemma positive_nonzero (strides : list Z) :
  (forall x, In x strides -> (0 < x)%Z) ->
  forall x, In x strides -> x <> 0%Z.
Proof. intros H x Hx. specialize (H x Hx). lia. Qed.

(** X13.  [fuse_stride_arrays] composes over a split of the dimensions:
    with one positive stride per dimension, the positions of all
    dimensions are the outer sums in [uint32] arithmetic, row group
    first, of the positions of the dimensions before the split and of
    those after it; there are [prod(dims)] positions. *)
Theorem fuse_stride_arrays_compose (dims : list nat) (strides : list Z)
  (p : nat) :
  length strides = length dims -> 0 < p < length dims ->
  (forall x, In x strides -> (0 < x)%Z) ->
  exists row_pos col_pos,
    fuse_stride_arrays (firstn p dims) (firstn p strides) = Ok row_pos /\
    fuse_stride_arrays (skipn p dims) (skipn p strides) = Ok col_pos /\
    fuse_stride_arrays dims strides = Ok (outer add32 row_pos col_pos) /\
    length (outer add32 row_pos col_pos) = prod_dims dims.
Proof.
  intros Hlen Hp Hpos.
  destruct (fuse_stride_arrays_split dims strides p Hlen Hp
              (positive_nonzero strides Hpos))
    as (row_pos & col_pos & Hrow & Hcol & Hall & Hlr & Hlc).
  exists row_pos, col_pos. repeat split; try assumption.
  rewrite length_outer, Hlr, Hlc, <- prod_dims_app.
  now rewrite firstn_skipn.
Qed.

Lemma fuse_stride_arrays_compose_witness :
  exists row_pos col_pos,
    fuse_stride_arrays (firstn 1 [2; 3; 4]) (firstn 1 [1; 2; 6]%Z) =
      Ok row_pos /\
    fuse_stride_arrays (skipn 1 [2; 3; 4]) (skipn 1 [1; 2; 6]%Z) =
      Ok col_pos /\
    fuse_stride_arrays [2; 3; 4] [1; 2; 6]%Z =
      Ok (outer add32 row_pos col_pos) /\
    length (outer add32 row_pos col_pos) = prod_dims [2; 3; 4].
Proof.
  apply (fuse_stride_arrays_compose [2; 3; 4] [1; 2; 6]%Z 1).
  - reflexivity.
  - simpl. lia.
  - simpl. intros x [<-|[<-|[<-|[]]]]; lia.
Defined.

(** ** Locations under caller-supplied strides, in general *)

Lemma mask_select_arange {B : Type} (f : nat -> B) (mask : list bool) (s : nat) :
  Np.mask_select (map f (seq s (length mask))) mask =
  map f (Np.nonzero_from s mask).
Proof.
  revert s. induction mask as [|b mask IH]; intros s; [reflexivity|].
  cbn [length seq map Np.mask_select Np.nonzero_from].
  rewrite IH. now destruct b.
Qed.

Lemma concat_strided_rows (p : Z -> bool) (FL FR : list Z)
  (row_pos col_pos : list nat) :
  length row_pos = length FL -> length col_pos = length FR ->
  concat (map (fun n =>
      map (add32 (nth n row_pos 0))
          (Np.mask_select col_pos (map p (map (Z.add (nth n FL 0%Z)) FR))))
    (seq 0 (length FL))) =
  Np.mask_select (outer add32 row_pos col_pos) (map p (outer Z.add FL FR)).
Proof.
  intros Hlr Hlc. revert row_pos Hlr.
  induction FL as [|x FL IH]; intros row_pos Hlr.
  - destruct row_pos; [reflexivity|discriminate].
  - destruct row_pos as [|r row_pos]; [discriminate|].
    cbn [length]. rewrite <- cons_seq, <- seq_shift, map_cons, (map_map S).
    cbn [concat nth]. rewrite !outer_cons, map_app.
    rewrite mask_select_app by now rewrite !length_map.
    rewrite mask_select_map_l. f_equal.
    apply IH. simpl in Hlr. lia.
Qed.

Lemma reduce_locations_some_ok (dims : list nat) (strides : list Z) (p : nat)
  (target R FL FR : list Z) (row_pos col_pos : list nat) :
  fuse_stride_arrays (firstn p dims) (firstn p strides) = Ok row_pos ->
  fuse_stride_arrays (skipn p dims) (skipn p strides) = Ok col_pos ->
  length row_pos = length FL -> length col_pos = length FR ->
  FL <> [] ->
  reduce_locations dims p (U1Charge FL) (U1Charge FR)
    (map (fun a => map (fun b => kept_index target R (a + b)%Z) (usort FR))
         (usort FL)) (Some strides) =
  Ok (Np.mask_select (outer add32 row_pos col_pos)
        (map (fun z => mem z target) (outer Z.add FL FR))).
Proof.
  intros Hrow Hcol Hlr Hlc Hne. unfold reduce_locations.
  rewrite Hrow, Hcol. cbn [bind].
  rewrite (mapM_ok _ (fun n =>
      Np.mask_select col_pos
        (map (fun z => mem z target)
             (map (Z.add (nth n (usort FL) 0%Z)) FR)))).
  2:{ intros n Hn. apply in_seq in Hn. rewrite num_unique_U1Charge in Hn.
      rewrite row_labels_ok by lia. cbn [bind].
      rewrite select_ok by now rewrite !length_map.
      f_equal. f_equal.
      rewrite <- (map_map (Z.add (nth n (usort FL) 0%Z))
                          (kept_index target R)).
      apply keep_kept_index. }
  cbn [bind]. rewrite num_unique_U1Charge, dim_U1Charge.
  rewrite (map_nth_seq_gen
    (fun a => Np.mask_select col_pos
                (map (fun z => mem z target) (map (Z.add a) FR)))
    0%Z (usort FL)).
  rewrite (mapM_ok _ (fun n =>
      map (add32 (nth n row_pos 0))
          (Np.mask_select col_pos
             (map (fun z => mem z target)
                  (map (Z.add (nth n FL 0%Z)) FR))))).
  - cbn [bind]. rewrite concatenate_ok.
    + f_equal. now apply concat_strided_rows.
    + destruct FL; [congruence|]. simpl. congruence.
  - intros n Hn. apply in_seq in Hn.
    rewrite (get_ok row_pos n 0) by lia. cbn [bind].
    unfold U1Charge, np_unique. cbn [charge_labels snd].
    rewrite (get_ok _ n 0) by (rewrite length_map; lia). cbn [bind].
    rewrite (nth_indep _ 0 (index_of 0%Z (usort FL)))
      by (rewrite length_map; lia).
    rewrite (map_nth (fun v => index_of v (usort FL))).
    assert (Hin : In (nth n FL 0%Z) (usort FL))
      by (apply usort_In, nth_In; lia).
    rewrite (get_ok _ _ []) by (rewrite length_map; now apply index_of_lt).
    cbn [bind]. f_equal. f_equal.
    rewrite (nth_indep _ []
      ((fun a => Np.mask_select col_pos
                   (map (fun z => mem z target) (map (Z.add a) FR))) 0%Z))
      by (rewrite length_map; now apply index_of_lt).
    rewrite (map_nth (fun a => Np.mask_select col_pos
                   (map (fun z => mem z target) (map (Z.add a) FR)))).
    now rewrite nth_index_of by exact Hin.
Qed.

Lemma reduce_charges_strided_ok (legs : list (list Z)) (flows : list bool)
  (target : list Z) (strides : list Z) :
  2 <= length legs -> length flows = length legs -> ~ In [] legs ->
  length strides = length legs -> (forall x, In x strides -> x <> 0%Z) ->
  exists positions,
    fuse_stride_arrays (map len (map U1Charge legs)) strides = Ok positions /\
    length positions = num_positions legs /\
    forall return_locations,
      reduce_charges (map U1Charge legs) flows target return_locations
        (Some strides) =
      Ok (reduced_of target (fused_values legs flows),
          if return_locations
          then Some (Np.mask_select positions
                       (map (fun z => mem z target)
                            (fused_values legs flows)))
          else None).
Proof.
  intros H2 Hlen Hnz Hls Hpos.
  assert (Hne : legs <> []) by (intros E; rewrite E in H2; simpl in H2; lia).
  set (dims := map len (map U1Charge legs)).
  assert (Hdl : length dims = length legs)
    by (unfold dims; now rewrite !length_map).
  destruct (reduce_charges_multi legs flows target Hlen H2 Hnz)
    as (p & Hp & Hred).
  destruct (fuse_stride_arrays_split dims strides p)
    as (row_pos & col_pos & Hrow & Hcol & Hall & Hlr & Hlc);
    [lia|lia|exact Hpos|].
  assert (HneL : firstn p legs <> []).
  { intros E. apply (f_equal (@length _)) in E.
    rewrite length_firstn in E. simpl in E. lia. }
  assert (HneR : skipn p legs <> []).
  { intros E. apply (f_equal (@length _)) in E.
    rewrite length_skipn in E. simpl in E. lia. }
  assert (HlenL : length (firstn p flows) = length (firstn p legs))
    by (rewrite !length_firstn; lia).
  assert (HlenR : length (skipn p flows) = length (skipn p legs))
    by (rewrite !length_skipn; lia).
  assert (HlrF : length row_pos =
                 length (fused_values (firstn p legs) (firstn p flows))).
  { rewrite Hlr. unfold dims, prod_dims.
    rewrite firstn_map, firstn_map, tensor_dims_positions.
    symmetry. now apply length_fused_values. }
  assert (HlcF : length col_pos =
                 length (fused_values (skipn p legs) (skipn p flows))).
  { rewrite Hlc. unfold dims, prod_dims.
    rewrite skipn_map, skipn_map, tensor_dims_positions.
    symmetry. now apply length_fused_values. }
  exists (outer add32 row_pos col_pos).
  split; [exact Hall|]. split.
  { rewrite length_outer, HlrF, HlcF.
    rewrite <- (length_outer Z.add).
    rewrite <- (fused_values_split legs flows p Hlen Hp).
    now apply length_fused_values. }
  intros rl. rewrite Hred. cbv zeta.
  destruct rl; [|reflexivity].
  fold dims.
  rewrite (reduce_locations_some_ok dims strides p target _ _ _
             row_pos col_pos Hrow Hcol HlrF HlcF).
  + cbn [bind]. now rewrite <- (fused_values_split legs flows p Hlen Hp).
  + apply fused_values_nonempty; try assumption.
    intros Hin. apply Hnz. rewrite <- (firstn_skipn p legs).
    apply in_or_app. now left.
Qed.

Lemma reduce_charges_single_strided (v : list Z) (f : bool) (target : list Z)
  (s0 : Z) (return_locations : bool) :
  reduce_charges [U1Charge v] [f] target return_locations (Some [s0]) =
  Ok (reduced_of target (map (sgn f) v),
      if return_locations
      then Some (map (fun n => Z.to_nat (s0 * Z.of_nat n))
                   (Np.nonzero (map (fun z => mem z target)
                                    (map (sgn f) v))))
      else None).
Proof.
  unfold reduce_charges. cbn [map length Nat.eqb Np.get nth_error bind].
  rewrite reduce_single_ok. now destruct return_locations.
Qed.

Lemma nth_arange_step (count : nat) (step : Z) (n : nat) :
  n < count ->
  nth n (arange_step count step) 0 = to_uint32 (Z.of_nat n * step).
Proof.
  intros H. unfold arange_step.
  rewrite (nth_indep _ 0 ((fun k => to_uint32 (Z.of_nat k * step)) 0))
    by (rewrite length_map, length_seq; lia).
  rewrite (map_nth (fun k => to_uint32 (Z.of_nat k * step))).
  now rewrite seq_nth by lia.
Qed.

Lemma mask_select_nth_from (l : list nat) (mask : list bool) (s : nat) :
  length l = length mask ->
  Np.mask_select l mask =
  map (fun i => nth (i - s) l 0) (Np.nonzero_from s mask).
Proof.
  revert mask s. induction l as [|x l IH]; intros mask s Hlen.
  - destruct mask; [reflexivity|discriminate].
  - destruct mask as [|b mask]; [discriminate|].
    assert (Hrest : Np.mask_select l mask =
                    map (fun i => nth (i - s) (x :: l) 0)
                        (Np.nonzero_from (S s) mask)).
    { rewrite (IH mask (S s)) by (simpl in Hlen; lia).
      apply map_ext_in. intros i Hi.
      apply (proj2 (nonzero_from_sorted (S s) mask)) in Hi.
      replace (i - s) with (S (i - S s)) by lia. reflexivity. }
    cbn [Np.mask_select Np.nonzero_from]. destruct b.
    + cbn [map]. rewrite Nat.sub_diag. cbn [nth]. now rewrite Hrest.
    + exact Hrest.
Qed.

Lemma mask_select_nth (l : list nat) (mask : list bool) :
  length l = length mask ->
  Np.mask_select l mask = map (fun i => nth i l 0) (Np.nonzero mask).
Proof.
  intros Hlen. rewrite (mask_select_nth_from l mask 0 Hlen).
  apply map_ext. intros i. now rewrite Nat.sub_0_r.
Qed.

(** X14.  On legs that are all non-empty, with one positive stride per
    leg, [reduce_charges] returns the same charge object as with the
    default strides.  For two or more legs its locations are the strided
    positions, as [fuse_stride_arrays] computes them in [uint32]
    arithmetic for the lengths of the legs, of the locations it returns
    with the default strides; for a single leg, which is handed to the
    reduce primitive of the charge, they are these locations times the
    stride, and again the strided positions of [fuse_stride_arrays] when
    the stride times the length of the leg is at most [2^32]. *)
Theorem reduce_charges_strided_locations (legs : list (list Z))
  (flows : list bool) (target : list Z) (strides : list Z) :
  legs <> [] -> length flows = length legs -> ~ In [] legs ->
  length strides = length legs -> (forall x, In x strides -> (0 < x)%Z) ->
  exists obj locs default_locs,
    reduce_charges (map U1Charge legs) flows target true (Some strides) =
      Ok (obj, Some locs) /\
    reduce_charges (map U1Charge legs) flows target true None =
      Ok (obj, Some default_locs) /\
    (2 <= length legs ->
     exists positions,
       fuse_stride_arrays (map len (map U1Charge legs)) strides =
         Ok positions /\
       locs = map (fun i => nth i positions 0) default_locs) /\
    (length legs = 1 ->
     locs = map (fun i => Z.to_nat (nth 0 strides 0%Z * Z.of_nat i))
                default_locs /\
     ((nth 0 strides 0 * Z.of_nat (num_positions legs) <= 4294967296)%Z ->
      exists positions,
        fuse_stride_arrays (map len (map U1Charge legs)) strides =
          Ok positions /\
        locs = map (fun i => nth i positions 0) default_locs)).
Proof.
  intros Hne Hlen Hnz Hls Hpos.
  set (F := fused_values legs flows).
  pose proof (reduce_charges_ok legs flows target true Hne Hlen Hnz) as Hdef.
  fold F in Hdef.
  destruct (Nat.eq_dec (length legs) 1) as [H1|H1].
  - destruct legs as [|v [|? ?]]; try discriminate.
    destruct flows as [|f [|? ?]]; try discriminate.
    destruct strides as [|s0 [|? ?]]; try discriminate.
    exists (reduced_of target F),
           (map (fun n => Z.to_nat (s0 * Z.of_nat n))
                (Np.nonzero (map (fun z => mem z target) F))),
           (Np.nonzero (map (fun z => mem z target) F)).
    split; [exact (reduce_charges_single_strided v f target s0 true)|].
    split; [exact Hdef|].
    split; [intros H2; simpl in H2; lia|]. intros _.
    split; [reflexivity|]. intros Hfit.
    assert (Hs0 : (0 < s0)%Z) by (apply Hpos; now left).
    exists (arange_step (length v) s0). split.
    + rewrite fuse_stride_arrays_explicit.
      * cbn [map combine fst snd fuse_ndarrays fold_left].
        now rewrite len_U1Charge.
      * reflexivity.
      * intros x [<-|[]]. lia.
    + apply map_ext_in. intros n Hn. apply nonzero_lt in Hn.
      assert (Hnv : n < length v).
      { unfold F in Hn. rewrite length_map in Hn.
        rewrite (length_fused_values [v] [f]) in Hn by (discriminate || reflexivity).
        unfold num_positions in Hn. simpl in Hn. lia. }
      rewrite (nth_arange_step (length v) s0 n Hnv).
      cbn [nth] in Hfit. unfold num_positions in Hfit.
      cbn [map fold_right] in Hfit. rewrite Nat.mul_1_r in Hfit.
      rewrite to_uint32_small by nia. f_equal. lia.
  - assert (H2 : 2 <= length legs)
      by (destruct legs as [|? [|? ?]]; simpl in *; try congruence; lia).
    destruct (reduce_charges_strided_ok legs flows target strides
                H2 Hlen Hnz Hls (positive_nonzero strides Hpos))
      as (positions & Hfsa & Hlp & Hred).
    fold F in Hred.
    exists (reduced_of target F),
           (Np.mask_select positions (map (fun z => mem z target) F)),
           (Np.nonzero (map (fun z => mem z target) F)).
    split; [exact (Hred true)|].
    split; [exact Hdef|].
    split; [|intros E; congruence].
    intros _. exists positions. split; [exact Hfsa|].
    apply mask_select_nth. rewrite length_map, Hlp. symmetry.
    now apply length_fused_values.
Qed.

Lemma reduce_charges_strided_locations_witness :
  exists obj locs default_locs,
    reduce_charges (map U1Charge [[0; 1]; [0; 1; 2]]%Z) [true; false]
      [0; 1]%Z true (Some [1; 2]%Z) = Ok (obj, Some locs) /\
    reduce_charges (map U1Charge [[0; 1]; [0; 1; 2]]%Z) [true; false]
      [0; 1]%Z true None = Ok (obj, Some default_locs) /\
    (2 <= length [[0; 1]; [0; 1; 2]]%Z ->
     exists positions,
       fuse_stride_arrays (map len (map U1Charge [[0; 1]; [0; 1; 2]]%Z))
         [1; 2]%Z = Ok positions /\
       locs = map (fun i => nth i positions 0) default_locs) /\
    (length [[0; 1]; [0; 1; 2]]%Z = 1 ->
     locs = map (fun i => Z.to_nat (nth 0 [1; 2]%Z 0%Z * Z.of_nat i))
                default_locs /\
     ((nth 0 [1; 2] 0 * Z.of_nat (num_positions [[0; 1]; [0; 1; 2]]%Z)
       <= 4294967296)%Z ->
      exists positions,
        fuse_stride_arrays (map len (map U1Charge [[0; 1]; [0; 1; 2]]%Z))
          [1; 2]%Z = Ok positions /\
        locs = map (fun i => nth i positions 0) default_locs)).
Proof.
  apply (reduce_charges_strided_locations [[0; 1]; [0; 1; 2]]%Z
           [true; false] [0; 1]%Z [1; 2]%Z).
  - discriminate.
  - reflexivity.
  - simpl. intros [H|[H|[]]]; discriminate.
  - reflexivity.
  - simpl. intros x [<-|[<-|[]]]; lia.
Defined.

(** X15.  On legs that are all non-empty, of a tensor with at most
    [2^32] flat positions, so that the [uint32] positions of the strided
    path do not wrap around, handing [reduce_charges] the row-major
    strides of the leg lengths, as [_get_strides] computes them, gives
    the same result as handing it no strides. *)
Theorem reduce_charges_row_major_strides (legs : list (list Z))
  (flows : list bool) (target : list Z) (return_locations : bool) :
  legs <> [] -> length flows = length legs -> ~ In [] legs ->
  (Z.of_nat (num_positions legs) <= 4294967296)%Z ->
  reduce_charges (map U1Charge legs) flows target return_locations
    (Some (_get_strides (map len (map U1Charge legs)))) =
  reduce_charges (map U1Charge legs) flows target return_locations None.
Proof.
  intros Hne Hlen Hnz Hfit.
  set (dims := map len (map U1Charge legs)).
  assert (Hdl : length dims = length legs)
    by (unfold dims; now rewrite !length_map).
  assert (Hdne : dims <> []).
  { intros E. apply (f_equal (@length _)) in E. rewrite Hdl in E.
    destruct legs; [congruence|discriminate]. }
  assert (Hdpos : forall d, In d dims -> d <> 0).
  { intros d Hd E. unfold dims in Hd. rewrite map_map in Hd.
    apply in_map_iff in Hd. destruct Hd as (v & Hv & Hin).
    rewrite len_U1Charge in Hv. subst d.
    apply length_zero_iff_nil in E. subst v. now apply Hnz. }
  assert (HP : prod_dims dims = num_positions legs)
    by (unfold dims, prod_dims; apply tensor_dims_positions).
  rewrite (reduce_charges_ok legs flows target return_locations Hne Hlen Hnz).
  destruct (Nat.eq_dec (length legs) 1) as [H1|H1].
  - destruct legs as [|v [|? ?]]; try discriminate.
    destruct flows as [|f [|? ?]]; try discriminate.
    unfold dims. cbn [map]. rewrite len_U1Charge.
    change (_get_strides [length v]) with [1%Z].
    rewrite reduce_charges_single_strided. cbn [fused_values fused_from].
    destruct return_locations; [|reflexivity].
    do 3 f_equal. rewrite <- (map_id (Np.nonzero _)) at 2.
    apply map_ext. intros n. lia.
  - assert (H2 : 2 <= length legs)
      by (destruct legs as [|? [|? ?]]; simpl in *; try congruence; lia).
    pose proof (fuse_stride_arrays_row_major dims Hdne Hdpos) as Hrm.
    rewrite HP in Hrm. specialize (Hrm Hfit).
    destruct (reduce_charges_strided_ok legs flows target (_get_strides dims)
                H2 Hlen Hnz) as (positions & Hfsa & Hlp & Hred).
    { rewrite (proj1 (proj1 get_strides_row_major dims Hdne)). exact Hdl. }
    { intros x Hx.
      rewrite (get_strides_exact dims Hdne Hdpos) in Hx by (rewrite HP; lia).
      apply in_map_iff in Hx. destruct Hx as (i & <- & _).
      assert (prod_dims (skipn i (tl dims)) <> 0); [|lia].
      apply prod_dims_nonzero. intros y Hy. apply Hdpos.
      assert (Hy' : In y (tl dims)).
      { rewrite <- (firstn_skipn i (tl dims)). apply in_or_app. now right. }
      destruct dims; [destruct Hy'|now right]. }
    rewrite Hred.
    destruct return_locations; [|reflexivity].
    do 3 f_equal.
    fold dims in Hfsa. rewrite Hrm in Hfsa. injection Hfsa as <-.
    assert (HN : num_positions legs =
                 length (map (fun z => mem z target)
                             (fused_values legs flows)))
      by now rewrite length_map, (length_fused_values legs flows Hne Hlen).
    rewrite HN, <- (map_id (seq 0 _)).
    rewrite (mask_select_arange (fun x : nat => x)). apply map_id.
Qed.

Lemma reduce_charges_row_major_strides_witness :
  reduce_charges (map U1Charge [[0; 1]; [0; 1; 2]; [1; 1]]%Z)
    [true; false; true] [0; 1]%Z true
    (Some (_get_strides
             (map len (map U1Charge [[0; 1]; [0; 1; 2]; [1; 1]]%Z)))) =
  reduce_charges (map U1Charge [[0; 1]; [0; 1; 2]; [1; 1]]%Z)
    [true; false; true] [0; 1]%Z true None.
Proof.
  apply (reduce_charges_row_major_strides [[0; 1]; [0; 1; 2]; [1; 1]]%Z
           [true; false; true] [0; 1]%Z true).
  - discriminate.
  - reflexivity.
  - simpl. intros [H|[H|[H|[]]]]; discriminate.
  - vm_compute. discriminate.
Defined.

(** ** The sparse lookup in general *)








(** ** The structure of the blocks *)







(** X20.  A partition beyond the number of legs is not one of the
    special cases of [_find_diagonal_sparse_blocks]: the column legs
    [charges[partition:]] are then an empty list, and
    [compute_fused_charge_degeneracies] raises [IndexError] on its
    [charges[0]]. *)
Theorem blocks_partition_beyond_legs (legs : list (list Z))
  (flows : list bool) (p : nat) :
  legs <> [] -> length flows = length legs -> length legs < p ->
  _find_diagonal_sparse_blocks (map U1Charge legs) flows p = Err IndexError.
Proof.
  intros Hne Hlen Hp. unfold _find_diagonal_sparse_blocks.
  rewrite length_map.
  assert (Hpos : 0 < length legs) by (destruct legs; [congruence|simpl; lia]).
  rewrite (get_ok _ 0 (U1Charge [])) by (rewrite length_map; lia).
  cbn [bind].
  destruct (Nat.eqb_spec p 0) as [?|_]; [lia|].
  destruct (Nat.eqb_spec p (length legs)) as [?|_]; [lia|].
  cbn [orb].
  rewrite (firstn_all2 (map U1Charge legs)) by (rewrite length_map; lia).
  rewrite (firstn_all2 flows) by lia.
  rewrite (compute_fused_charge_degeneracies_ok legs flows Hne Hlen).
  cbn [bind].
  rewrite (skipn_all2 (map U1Charge legs)) by (rewrite length_map; lia).
  reflexivity.
Qed.

Lemma blocks_partition_beyond_legs_witness :
  _find_diagonal_sparse_blocks (map U1Charge [[0; 1]; [0; 1; 2]]%Z)
    [true; false] 3 = Err IndexError.
Proof.
  apply (blocks_partition_beyond_legs [[0; 1]; [0; 1; 2]]%Z [true; false] 3).
  - discriminate.
  - reflexivity.
  - simpl. lia.
Defined.

(** ** The two methods for the row masks *)

(** X21.  The two methods of lines 407-417 for the row masks of the
    blocks agree: whether there are fewer than 15 blocks or not, when
    there is at least one block and every row label is the label of a
    block, the result has one mask per block with one entry per kept row,
    and entry [i] of mask [n] tells whether row [i] is labelled [n]. *)
Theorem block_row_masks (num_blocks : nat) (qnums : list Z)
  (labels : list nat) :
  num_blocks <> 0 ->
  (forall l, In l labels -> l < num_blocks) ->
  exists row_locs,
    block_row_locs num_blocks (mk qnums labels) = Ok row_locs /\
    length row_locs = num_blocks /\
    forall n, n < num_blocks ->
      length (nth n row_locs []) = length labels /\
      forall i, i < length labels ->
        nth i (nth n row_locs []) false = (nth i labels 0 =? n).
Proof.
  intros Hnb Hlab.
  exists (map (fun n => map (fun l => l =? n) labels) (seq 0 num_blocks)).
  split; [now apply block_row_locs_ok|].
  split; [now rewrite length_map, length_seq|].
  intros n Hn.
  pose proof (map_nth (fun n => map (fun l => l =? n) labels)
                (seq 0 num_blocks) 0 n) as E.
  cbv beta in E.
  rewrite (nth_indep _ [] (map (fun l => l =? 0) labels))
    by now rewrite length_map, length_seq.
  rewrite E, seq_nth by exact Hn. cbn [Nat.add].
  split; [apply length_map|].
  intros i Hi.
  rewrite (nth_indep _ false (0 =? n)) by now rewrite length_map.
  exact (map_nth (fun l => l =? n) labels 0 i).
Qed.

Lemma block_row_masks_witness :
  exists row_locs,
    block_row_locs 16 (mk [] [15; 0; 15; 3]) = Ok row_locs /\
    length row_locs = 16 /\
    forall n, n < 16 ->
      length (nth n row_locs []) = length [15; 0; 15; 3] /\
      forall i, i < length [15; 0; 15; 3] ->
        nth i (nth n row_locs []) false = (nth i [15; 0; 15; 3] 0 =? n).
Proof.
  apply (block_row_masks 16 [] [15; 0; 15; 3]).
  - discriminate.
  - simpl. intros l H. repeat (destruct H as [<-|H]; [lia|]). destruct H.
Defined.

(** ** Flattening *)

Lemma fold_left_app_acc {A : Type} (l : list (list A)) (acc : list A) :
  fold_left (fun res x => res ++ x) l acc = acc ++ concat l.
Proof.
  revert acc. induction l as [|x l IH]; intros acc; simpl.
  - now rewrite app_nil_r.
  - now rewrite IH, app_assoc.
Qed.

Lemma flatten_concat {A : Type} (l : list (list A)) : flatten l = concat l.
Proof. unfold flatten. now rewrite fold_left_app_acc. Qed.

Lemma get_flat_meta_data_acc (indices : list Index)
  (acc : list BaseCharge * list bool) :
  fold_left
    (fun acc i => (fst acc ++ flat_charges i, snd acc ++ flat_flows i))
    indices acc =
  (fst acc ++ concat (map flat_charges indices),
   snd acc ++ concat (map flat_flows indices)).
Proof.
  revert acc. induction indices as [|i indices IH]; intros [cs fs]; simpl.
  - now rewrite !app_nil_r.
  - rewrite IH. simpl. now rewrite !app_assoc.
Qed.

Lemma combine_app_eq {A B : Type} (a a' : list A) (b b' : list B) :
  length a = length b ->
  combine (a ++ a') (b ++ b') = combine a b ++ combine a' b'.
Proof.
  revert b. induction a as [|x a IH]; intros [|y b] H; try discriminate.
  - reflexivity.
  - simpl. f_equal. apply IH. now injection H.
Qed.

(** X22.  [flatten] keeps every element, in order: the result of
    flattening two lists of lists one after the other is the flattened
    first followed by the flattened second, an element is in the result
    exactly when it is in one of the lists, and the result is as long as
    the lists together. *)
Theorem flatten_keeps_order :
  forall (A : Type) (l1 l2 : list (list A)),
    flatten (l1 ++ l2) = flatten l1 ++ flatten l2 /\
    (forall x, In x (flatten l1) <-> exists l, In l l1 /\ In x l) /\
    length (flatten l1) = list_sum (map (@length A) l1).
Proof.
  intros A l1 l2. rewrite !flatten_concat. split; [apply concat_app|].
  split.
  - intros x. rewrite in_concat. reflexivity.
  - apply length_concat.
Qed.

(** X23.  [get_flat_meta_data] flattens the charges and the flows of the
    indices separately, each in the order of the indices: its two results
    are what [flatten] gives on the lists of the flat charges and of the
    flat flows. *)
Theorem flat_meta_data_flatten :
  forall indices : list Index,
    get_flat_meta_data indices =
    (flatten (map flat_charges indices), flatten (map flat_flows indices)).
Proof.
  intros indices. unfold get_flat_meta_data.
  rewrite get_flat_meta_data_acc, !flatten_concat. reflexivity.
Qed.

(** X24.  When every index has as many flat flows as flat charges,
    [get_flat_meta_data] returns as many flows as charges, and flow [n]
    of the result belongs to charge [n]: the pairs of the result are the
    pairs of the indices, in order. *)
Theorem flat_meta_data_aligned (indices : list Index) :
  (forall i, In i indices ->
     length (flat_flows i) = length (flat_charges i)) ->
  length (snd (get_flat_meta_data indices)) =
    length (fst (get_flat_meta_data indices)) /\
  combine (fst (get_flat_meta_data indices))
          (snd (get_flat_meta_data indices)) =
  flatten (map (fun i => combine (flat_charges i) (flat_flows i)) indices).
Proof.
  intros H. unfold get_flat_meta_data.
  rewrite get_flat_meta_data_acc, flatten_concat. cbn [fst snd app].
  induction indices as [|i indices IH]; [split; reflexivity|].
  assert (Hi : length (flat_flows i) = length (flat_charges i))
    by (apply H; now left).
  destruct IH as [IH1 IH2]; [intros j Hj; apply H; now right|].
  cbn [map concat]. split.
  - rewrite !length_app. lia.
  - rewrite <- IH2. apply combine_app_eq. now symmetry.
Qed.

Lemma flat_meta_data_aligned_witness :
  length (snd (get_flat_meta_data
                 [mkIndex [U1Charge [0; 1]%Z; U1Charge [2]%Z] [true; false];
                  mkIndex [U1Charge [1; 1]%Z] [false]])) =
    length (fst (get_flat_meta_data
                 [mkIndex [U1Charge [0; 1]%Z; U1Charge [2]%Z] [true; false];
                  mkIndex [U1Charge [1; 1]%Z] [false]])) /\
  combine (fst (get_flat_meta_data
                 [mkIndex [U1Charge [0; 1]%Z; U1Charge [2]%Z] [true; false];
                  mkIndex [U1Charge [1; 1]%Z] [false]]))
          (snd (get_flat_meta_data
                 [mkIndex [U1Charge [0; 1]%Z; U1Charge [2]%Z] [true; false];
                  mkIndex [U1Charge [1; 1]%Z] [false]])) =
  flatten (map (fun i => combine (flat_charges i) (flat_flows i))
             [mkIndex [U1Charge [0; 1]%Z; U1Charge [2]%Z] [true; false];
              mkIndex [U1Charge [1; 1]%Z] [false]]).
Proof.
  apply (flat_meta_data_aligned
           [mkIndex [U1Charge [0; 1]%Z; U1Charge [2]%Z] [true; false];
            mkIndex [U1Charge [1; 1]%Z] [false]]).
  simpl. intros i [<-|[<-|[]]]; reflexivity.
Defined.

(** ** Ties of the partition selector *)

Lemma math_prod_app (l1 l2 : list Z) :
  math_prod (l1 ++ l2) = (math_prod l1 * math_prod l2)%Z.
Proof.
  unfold math_prod. induction l1 as [|x l1 IH]; simpl.
  - now destruct (fold_right Z.mul 1%Z l2).
  - rewrite IH. lia.
Qed.

Lemma math_prod_ge_1 (l : list Z) :
  (forall d, In d l -> (1 <= d)%Z) -> (1 <= math_prod l)%Z.
Proof.
  unfold math_prod. induction l as [|x l IH]; intros H; simpl; [lia|].
  assert (1 <= x)%Z by (apply H; now left).
  assert (1 <= fold_right Z.mul 1 l)%Z
    by (apply IH; intros d Hd; apply H; now right).
  nia.
Qed.

Lemma In_firstn_skipn (l : list Z) (n : nat) (d : Z) :
  In d (firstn n l) \/ In d (skipn n l) -> In d l.
Proof.
  intros H. rewrite <- (firstn_skipn n l). apply in_or_app. exact H.
Qed.

Lemma math_prod_skipn_antitone (dims : list Z) (a b : nat) :
  (forall d, In d dims -> (1 <= d)%Z) -> a <= b ->
  (math_prod (skipn b dims) <= math_prod (skipn a dims))%Z.
Proof.
  intros Hpos Hab.
  replace b with ((b - a) + a) by lia. rewrite <- skipn_skipn.
  rewrite <- (firstn_skipn (b - a) (skipn a dims)) at 2.
  rewrite math_prod_app.
  assert (H1 : (1 <= math_prod (firstn (b - a) (skipn a dims)))%Z).
  { apply math_prod_ge_1. intros d Hd. apply Hpos.
    apply (In_firstn_skipn dims a). right.
    apply (In_firstn_skipn (skipn a dims) (b - a)). now left. }
  assert (H2 : (1 <= math_prod (skipn (b - a) (skipn a dims)))%Z).
  { apply math_prod_ge_1. intros d Hd. apply Hpos.
    apply (In_firstn_skipn dims a). right.
    apply (In_firstn_skipn (skipn a dims) (b - a)). now right. }
  nia.
Qed.

Lemma products_fit_positive (dims : list Z) :
  (forall d, In d dims -> (1 <= d)%Z) ->
  (math_prod dims < 9223372036854775808)%Z -> products_fit dims.
Proof.
  intros Hpos Hlt n _.
  assert (H1 : (1 <= math_prod (firstn n dims))%Z).
  { apply math_prod_ge_1. intros d Hd. apply Hpos.
    apply (In_firstn_skipn dims n). now left. }
  assert (H2 : (1 <= math_prod (skipn n dims))%Z).
  { apply math_prod_ge_1. intros d Hd. apply Hpos.
    apply (In_firstn_skipn dims n). now right. }
  assert (E : math_prod dims =
              (math_prod (firstn n dims) * math_prod (skipn n dims))%Z)
    by now rewrite <- math_prod_app, firstn_skipn.
  unfold math_diff. nia.
Qed.

Lemma argmax_from_first (l : list Z) (i best : nat) (bestv : Z) :
  (forall x, In x l -> (x <= bestv)%Z) ->
  Np.argmax_from i best bestv l = best.
Proof.
  revert i. induction l as [|x l IH]; intros i H; [reflexivity|].
  simpl. destruct (Z.ltb_spec bestv x) as [Hlt|_].
  - specialize (H x (or_introl eq_refl)). lia.
  - apply IH. intros y Hy. apply H. now right.
Qed.

(** X25.  On a list of at least two dimensions that are all at least 1
    and whose product is below [2^63], so that no 64-bit product wraps
    around, [_find_best_partition] returns the first split index that
    reaches the smallest [|prod(dims[:p]) - prod(dims[p:])|]: every
    earlier split index has a strictly larger difference.  (Among the
    split indices that reach the minimum the one with the largest
    [prod(dims[p:])] is taken, and [np.argmax] takes the first of
    several.) *)
Theorem find_best_partition_first_minimum (dims : list Z) :
  2 <= length dims ->
  (forall d, In d dims -> (1 <= d)%Z) ->
  (math_prod dims < 9223372036854775808)%Z ->
  exists p,
    _find_best_partition dims = Ok p /\
    1 <= p <= length dims - 1 /\
    (forall q, 1 <= q <= length dims - 1 ->
       (math_diff dims p <= math_diff dims q)%Z) /\
    (forall q, 1 <= q < p -> (math_diff dims p < math_diff dims q)%Z).
Proof.
  intros Hlen Hpos Hbound.
  pose proof (products_fit_positive dims Hpos Hbound) as Hfit.
  unfold _find_best_partition.
  destruct (Nat.eqb_spec (length dims) 1) as [Heq|_]; [lia|].
  set (k := length dims - 1).
  set (diffs := map (partition_diff dims) (seq 1 k)).
  assert (Hne : diffs <> []).
  { unfold diffs. destruct k eqn:Hk; [subst k; lia|]. simpl. congruence. }
  destruct (min_spec diffs Hne) as (m & Hmin & Hin & Hle).
  rewrite Hmin. cbn [bind].
  set (min_inds := Np.nonzero (map (fun d => (d =? m)%Z) diffs)).
  assert (Hmi : forall i, In i min_inds <->
                          i < k /\ partition_diff dims (S i) = m)
    by (intros i; apply min_inds_In).
  assert (Hdiff : forall q, 1 <= q <= k -> (m <= partition_diff dims q)%Z).
  { intros q Hq. apply Hle. unfold diffs. apply in_map, in_seq. lia. }
  assert (Hsorted : StronglySorted lt min_inds)
    by apply (proj1 (nonzero_from_sorted 0 _)).
  assert (Hmne : min_inds <> []).
  { unfold diffs in Hin. apply in_map_iff in Hin.
    destruct Hin as (q & Hq & Hqin). apply in_seq in Hqin.
    assert (Hq' : In (q - 1) min_inds).
    { apply Hmi. split; [lia|]. now replace (S (q - 1)) with q by lia. }
    intros E. rewrite E in Hq'. exact Hq'. }
  destruct min_inds as [|mi rest] eqn:Emi; [congruence|].
  assert (Hhead : In mi (mi :: rest)) by now left.
  apply Hmi in Hhead. destruct Hhead as [Hmik Hmid].
  assert (Hrest : forall x, In x rest -> mi < x).
  { inversion Hsorted as [|? ? _ Hall]; subst.
    now apply Forall_forall. }
  assert (Hres :
    (if 1 <? length (mi :: rest)
     then
       k0 <- Np.argmax
               (map (fun min_ind => Np.prod (skipn (min_ind + 1) dims))
                    (mi :: rest)) ;;
       min_ind <- Np.get (mi :: rest) k0 ;; Ok (min_ind + 1)
     else min_ind <- Np.get (mi :: rest) 0 ;; Ok (min_ind + 1)) =
    Ok (mi + 1)).
  { destruct (1 <? length (mi :: rest)); [|reflexivity].
    cbn [map Np.argmax].
    rewrite argmax_from_first; [reflexivity|].
    intros x Hx. apply in_map_iff in Hx. destruct Hx as (j & <- & Hj).
    assert (Hjk : j < k) by (apply (Hmi j); now right).
    pose proof (Hrest j Hj) as Hlt.
    rewrite (proj2 (partition_diff_exact dims (j + 1) Hfit
                      ltac:(fold k; lia))).
    rewrite (proj2 (partition_diff_exact dims (mi + 1) Hfit
                      ltac:(fold k; lia))).
    apply math_prod_skipn_antitone; [exact Hpos|lia]. }
  rewrite Hres. exists (mi + 1). split; [reflexivity|].
  replace (mi + 1) with (S mi) by lia. fold k.
  split; [lia|].
  assert (Ep : math_diff dims (S mi) = m).
  { rewrite <- Hmid. symmetry.
    apply (partition_diff_exact dims (S mi) Hfit). fold k. lia. }
  split.
  - intros q Hq. rewrite Ep.
    rewrite <- (proj1 (partition_diff_exact dims q Hfit Hq)).
    now apply Hdiff.
  - intros q Hq. rewrite Ep.
    assert (Hqk : 1 <= q <= length dims - 1) by (fold k; lia).
    rewrite <- (proj1 (partition_diff_exact dims q Hfit Hqk)).
    assert (Hge : (m <= partition_diff dims q)%Z) by (apply Hdiff; lia).
    assert (Hneq : partition_diff dims q <> m).
    { intros Heq.
      assert (Hin' : In (q - 1) (mi :: rest)).
      { apply Hmi. split; [lia|]. now replace (S (q - 1)) with q by lia. }
      destruct Hin' as [E|Hin']; [lia|].
      specialize (Hrest _ Hin'). lia. }
    lia.
Qed.

Lemma find_best_partition_first_minimum_witness :
  exists p,
    _find_best_partition [2; 1; 2]%Z = Ok p /\
    1 <= p <= length [2; 1; 2]%Z - 1 /\
    (forall q, 1 <= q <= length [2; 1; 2]%Z - 1 ->
       (math_diff [2; 1; 2]%Z p <= math_diff [2; 1; 2]%Z q)%Z) /\
    (forall q, 1 <= q < p ->
       (math_diff [2; 1; 2]%Z p < math_diff [2; 1; 2]%Z q)%Z).
Proof.
  apply (find_best_partition_first_minimum [2; 1; 2]%Z).
  - simpl. lia.
  - simpl. intros d H. repeat (destruct H as [<-|H]; [lia|]). destruct H.
  - reflexivity.
Defined.
